(** * The ANTLR facade: grammar contexts, reference counts and dependencies

    A shallow embedding of the [AntlrFacade] class of the vscode-antlr4
    backend (the dependency graph manager): the context map, the
    reference-counted [ContextEntry] objects, loading, reparsing and releasing
    grammars, gathering dependency contexts, and the queries that forward to a
    [SourceContext]. *)

From stdpp Require Import gmap strings list fin_maps.
From stdpp Require Import sorting.
From Stdlib Require Import ZArith Lia Ascii.

Local Open Scope Z_scope.

(** ** The collaborators of the facade *)

(** The parts of Node's [path] and [fs] modules the facade calls.  A call that
    throws in JavaScript is a [false] (or [None]) here: the facade only ever
    calls them inside [try]/[catch] blocks that ignore the exception. *)
Class NodeEnv := {
  path_dirname : string → string;
  path_join : string → string → string;
  path_isAbsolute : string → bool;
  (** [fs.statSync(p)] returns. *)
  fs_statSync : string → bool;
  (** [fs.accessSync(p, fs.constants.R_OK)] returns. *)
  fs_accessSync : string → bool;
  (** [fs.readFileSync(p, "utf8")]. *)
  fs_readFileSync : string → option string;
}.

(** The [SourceContext] class is imported by the facade from
    [./SourceContext]; the facade sees it through these members only.  The
    state of one [SourceContext] object is a value of [SourceContext]; a
    method that mutates its receiver returns the new state.  The two methods
    that also mutate their argument return the new states of both objects;
    when receiver and argument are one and the same object (a grammar that
    names itself), the second component is the state of that object after
    the call. *)
Class SourceContextApi := {
  SourceContext : Type;
  (** [new SourceContext(fileName)] *)
  sc_new : string → SourceContext;
  (** [context.setText(source)] *)
  sc_setText : SourceContext → string → SourceContext;
  (** [context.parse()]: the names of the grammars referenced by the text. *)
  sc_parse : SourceContext → SourceContext * list string;
  (** [context.addAsReferenceTo(other)]: new states of receiver and argument
      (of the one object, in the second component, when they are the same). *)
  sc_addAsReferenceTo : SourceContext → SourceContext → SourceContext * SourceContext;
  (** [context.removeDependency(other)]: new states of receiver and argument
      (of the one object, in the second component, when they are the same). *)
  sc_removeDependency : SourceContext → SourceContext → SourceContext * SourceContext;
  (** [context.hasErrors] *)
  sc_hasErrors : SourceContext → bool;
  (** [context.isInterpreterDataLoaded] *)
  sc_isInterpreterDataLoaded : SourceContext → bool;
  (** [context.setupInterpreters(outputDir)] *)
  sc_setupInterpreters : SourceContext → string → SourceContext;
  (** The option objects of [generate] and [generateSentence], which the
      facade hands on as it got them. *)
  GenerationOptions : Type;
  SentenceGenerationOptions : Type;
}.

(** ** Methods as state transformers

    A method is a function from the state before the call to its result and
    the state after it.  [None] is a call that does not return: the recursion
    bound of a recursive method was reached, or the method dereferenced
    something that is not an object. *)
Definition StateOp (S A : Type) : Type := S → option (A * S).

Definition op_ret {S A} (a : A) : StateOp S A := λ st, Some (a, st).

Definition op_bind {S A B} (m : StateOp S A) (k : A → StateOp S B) : StateOp S B :=
  λ st, match m st with
        | Some (a, st') => k a st'
        | None => None
        end.

Definition noReturn {S A} : StateOp S A := λ _, None.

Notation "'do' x <- m ; k" := (op_bind m (λ x, k))
  (at level 10, x name, m at level 100, k at level 200).
Notation "m ;;; k" := (op_bind m (λ _, k))
  (at level 100, k at level 200, right associativity).

Fixpoint forEach {S A} (xs : list A) (body : A → StateOp S unit) : StateOp S unit :=
  match xs with
  | [] => op_ret tt
  | x :: xs' => body x ;;; forEach xs' body
  end.

Fixpoint foldOp {S A B} (xs : list A) (acc : B) (body : B → A → StateOp S B) : StateOp S B :=
  match xs with
  | [] => op_ret acc
  | x :: xs' => do acc' <- body acc x; foldOp xs' acc' body
  end.

(** ** Data model *)

(** A reference to a [ContextEntry] object.  Every entry is created together
    with its own [SourceContext] and never changes it, so the same reference
    also stands for the identity of that [SourceContext] instance. *)
Abbreviation ref := nat.

Section Facade.
Context `{NodeEnv} `{SourceContextApi}.

Record ContextEntry := {
  context : SourceContext;
  refCount : Z;
  dependencies : list string;
  grammar : string;
}.

Definition with_context (f : SourceContext → SourceContext) (e : ContextEntry) : ContextEntry :=
  {| context := f (context e); refCount := refCount e;
     dependencies := dependencies e; grammar := grammar e |}.

Definition with_refCount (f : Z → Z) (e : ContextEntry) : ContextEntry :=
  {| context := context e; refCount := f (refCount e);
     dependencies := dependencies e; grammar := grammar e |}.

Definition with_dependencies (f : list string → list string) (e : ContextEntry) : ContextEntry :=
  {| context := context e; refCount := refCount e;
     dependencies := f (dependencies e); grammar := grammar e |}.

(** The facade object together with the entry objects it has allocated:
    [objects] is the store of all [ContextEntry] objects created so far (a
    reference is a position in it; objects are never moved), [sourceContexts]
    is the [Map] from file names to entries. *)
Record AntlrFacade := {
  objects : list ContextEntry;
  sourceContexts : gmap string ref;
  importDir : string;
}.

Definition newAntlrFacade (dir : string) : AntlrFacade :=
  {| objects := []; sourceContexts := ∅; importDir := dir |}.

Definition set_objects (f : list ContextEntry → list ContextEntry) (st : AntlrFacade) : AntlrFacade :=
  {| objects := f (objects st); sourceContexts := sourceContexts st; importDir := importDir st |}.

Definition set_sourceContexts (f : gmap string ref → gmap string ref) (st : AntlrFacade) : AntlrFacade :=
  {| objects := objects st; sourceContexts := f (sourceContexts st); importDir := importDir st |}.

Abbreviation Op := (StateOp AntlrFacade).

(** [this.sourceContexts.get(fileName)] *)
Definition mapGet (fileName : string) : Op (option ref) :=
  λ st, Some (sourceContexts st !! fileName, st).

(** [this.sourceContexts.set(fileName, entry)] *)
Definition mapSet (fileName : string) (r : ref) : Op unit :=
  λ st, Some (tt, set_sourceContexts (insert fileName r) st).

(** [this.sourceContexts.delete(fileName)] *)
Definition mapDelete (fileName : string) : Op unit :=
  λ st, Some (tt, set_sourceContexts (delete fileName) st).

(** A new object. *)
Definition allocEntry (e : ContextEntry) : Op ref :=
  λ st, Some (length (objects st), set_objects (λ os, os ++ [e]) st).

(** Reading the fields of the object behind a reference. *)
Definition readEntry (r : ref) : Op ContextEntry :=
  λ st, match objects st !! r with
        | Some e => Some (e, st)
        | None => None
        end.

(** Assigning to fields of the object behind a reference. *)
Definition updateEntry (r : ref) (f : ContextEntry → ContextEntry) : Op unit :=
  λ st, match objects st !! r with
        | Some _ => Some (tt, set_objects (alter f r) st)
        | None => None
        end.

(** [this.context.m(other.context)] for a method [m] that changes both.  The
    state of the argument is written last: when [this] and [other] are the
    same object, it ends in the state the method gives in the second
    component. *)
Definition contextPair (m : SourceContext → SourceContext → SourceContext * SourceContext)
    (this other : ref) : Op unit :=
  do a <- readEntry this;
  do b <- readEntry other;
  updateEntry this (with_context (λ _, fst (m (context a) (context b)))) ;;;
  updateEntry other (with_context (λ _, snd (m (context a) (context b)))).

(** ** Releasing *)

(** [internalReleaseGrammar(fileName, referencing?)].  [fuel] bounds the depth
    of the recursion. *)
Fixpoint internalReleaseGrammar (fuel : nat) (fileName : string) (referencing : option ref)
    : Op unit :=
  match fuel with
  | O => noReturn
  | S fuel' =>
    do contextEntry <- mapGet fileName;
    match contextEntry with
    | None => op_ret tt
    | Some ce =>
      match referencing with
      | Some r => contextPair sc_removeDependency r ce
      | None => op_ret tt
      end ;;;
      updateEntry ce (with_refCount (λ n, n - 1)) ;;;
      do e <- readEntry ce;
      if decide (refCount e = 0) then
        mapDelete fileName ;;;
        forEach (dependencies e) (λ dep, internalReleaseGrammar fuel' dep (Some ce))
      else op_ret tt
    end
  end.

(** [releaseGrammar(fileName)].  Every level of the recursion of
    [internalReleaseGrammar] below the first has deleted an entry of the map,
    so the depth never exceeds the size of the map plus one (see
    [internalReleaseGrammar_returns]). *)
Definition releaseGrammar (fileName : string) : Op unit :=
  λ st, internalReleaseGrammar (S (size (sourceContexts st))) fileName None st.

(** ** Loading and parsing *)

(** [!source] for an optional string. *)
Definition falsy (source : option string) : bool :=
  match source with
  | None => true
  | Some s => bool_decide (s = "")
  end%string.

(** The source text [loadGrammar] ends up with. *)
Definition initialSource (fileName : string) (source : option string) : string :=
  if falsy source then
    if fs_statSync fileName then default ""%string (fs_readFileSync fileName) else ""%string
  else default ""%string source.

(** One [try] block of [loadDependency]: the probe, then
    [contextEntry.dependencies.push(depPath); return this.loadGrammar(depPath)]. *)
Definition tryDependency (load : string → option string → Op ref) (contextEntry : ref)
    (probe : string → bool) (depPath : string) (otherwise : Op (option ref)) : Op (option ref) :=
  if probe depPath then
    updateEntry contextEntry (with_dependencies (λ ds, ds ++ [depPath])) ;;;
    do c <- load depPath None;
    op_ret (Some c)
  else otherwise.

(** [loadDependency(contextEntry, depName)], over the [loadGrammar] it calls. *)
Definition loadDependencyWith (load : string → option string → Op ref) (contextEntry : ref)
    (depName : string) : Op (option ref) :=
  do e <- readEntry contextEntry;
  λ st,
    let basePath := path_dirname (grammar e) in
    let fullPath := if path_isAbsolute (importDir st) then importDir st
                    else path_join basePath (importDir st) in
    tryDependency load contextEntry fs_accessSync (path_join fullPath (depName +:+ ".g4"))
      (tryDependency load contextEntry fs_accessSync (path_join fullPath (depName +:+ ".g"))
        (tryDependency load contextEntry fs_statSync (path_join basePath (depName +:+ ".g4"))
          (tryDependency load contextEntry fs_statSync (path_join basePath (depName +:+ ".g"))
            (op_ret None)))) st.

(** [contextEntry.context.parse()] *)
Definition contextParse (contextEntry : ref) : Op (list string) :=
  do e <- readEntry contextEntry;
  updateEntry contextEntry (with_context (λ c, fst (sc_parse c))) ;;;
  op_ret (snd (sc_parse (context e))).

(** [parseGrammar(contextEntry)], over the [loadGrammar] it calls. *)
Definition parseGrammarWith (load : string → option string → Op ref) (contextEntry : ref)
    : Op unit :=
  do e <- readEntry contextEntry;
  let oldDependencies := dependencies e in
  updateEntry contextEntry (with_dependencies (λ _, [])) ;;;
  do newDependencies <- contextParse contextEntry;
  forEach newDependencies (λ dep,
    do depContext <- loadDependencyWith load contextEntry dep;
    match depContext with
    | Some d => contextPair sc_addAsReferenceTo contextEntry d
    | None => op_ret tt
    end) ;;;
  forEach oldDependencies releaseGrammar.

(** [loadGrammar(fileName, source?)].  [fuel] bounds the depth of the chain of
    grammars that load each other. *)
Fixpoint loadGrammar (fuel : nat) (fileName : string) (source : option string) : Op ref :=
  match fuel with
  | O => noReturn
  | S fuel' =>
    do found <- mapGet fileName;
    do contextEntry <-
      match found with
      | Some ce => op_ret ce
      | None =>
        do ce <- allocEntry {| context := sc_new fileName; refCount := 0;
                               dependencies := []; grammar := fileName |};
        mapSet fileName ce ;;;
        updateEntry ce (with_context (λ c, sc_setText c (initialSource fileName source))) ;;;
        parseGrammarWith (loadGrammar fuel') ce ;;;
        op_ret ce
      end;
    updateEntry contextEntry (with_refCount (λ n, n + 1)) ;;;
    op_ret contextEntry
  end.


Definition parseGrammar (fuel : nat) : ref → Op unit :=
  parseGrammarWith (loadGrammar fuel).

(** ** Queries *)

Record SelfDiagnostics := { contextCount : Z }.

(** [this.sourceContexts.keys.length]: [keys] is not called, so this is the
    [length] property of the function object [Map.prototype.keys], the number
    of parameters that method declares. *)
Definition Map_keys_length (m : gmap string ref) : Z := 0.

(** [getSelfDiagnostics()] *)
Definition getSelfDiagnostics (st : AntlrFacade) : SelfDiagnostics :=
  {| contextCount := Map_keys_length (sourceContexts st) |}.

(** [getContext(fileName, source?)] *)
Definition getContext (fuel : nat) (fileName : string) (source : option string) : Op ref :=
  do contextEntry <- mapGet fileName;
  match contextEntry with
  | None => loadGrammar fuel fileName source
  | Some ce => op_ret ce
  end.

(** [setText(fileName, source)] *)
Definition setText (fileName source : string) : Op unit :=
  do contextEntry <- mapGet fileName;
  match contextEntry with
  | Some ce => updateEntry ce (with_context (λ c, sc_setText c source))
  | None => op_ret tt
  end.

(** [reparse(fileName)] *)
Definition reparse (fuel : nat) (fileName : string) : Op unit :=
  do contextEntry <- mapGet fileName;
  match contextEntry with
  | Some ce => parseGrammar fuel ce
  | None => op_ret tt
  end.

(** [contexts.add(c)] on a [Set], which keeps insertion order. *)
Definition setAdd (c : ref) (contexts : list ref) : list ref :=
  if decide (c ∈ contexts) then contexts else contexts ++ [c].

(** [pushDependencyFiles(entry, contexts)]: the set is passed in and the
    extended set is returned.  [fuel] bounds the depth of the recursion. *)
Fixpoint pushDependencyFiles (fuel : nat) (entry : ref) (contexts : list ref)
    : Op (list ref) :=
  match fuel with
  | O => noReturn
  | S fuel' =>
    do e <- readEntry entry;
    foldOp (dependencies e) contexts (λ contexts dep,
      do depEntry <- mapGet dep;
      match depEntry with
      | Some de =>
        do contexts' <- pushDependencyFiles fuel' de contexts;
        op_ret (setAdd de contexts')
      | None => op_ret contexts
      end)
  end.

(** [this.sourceContexts.get(fileName)!] followed by a field access. *)
Definition mapGetSome (fileName : string) : Op ref :=
  do entry <- mapGet fileName;
  match entry with
  | Some ce => op_ret ce
  | None => noReturn
  end.

(** A method call the facade makes on a [SourceContext], with its arguments.
    A facade query that ends in [return context.m(args)] returns what that
    call returns; the call itself stands for it here. *)
Inductive ContextCall :=
  | Call_symbolAtPosition (column row : Z) (limitToChildren : bool)
  | Call_getSymbolInfo (symbol : string)
  | Call_listTopLevelSymbols (localOnly : bool)
  | Call_getDiagnostics
  | Call_ruleFromPosition (column row : Z)
  | Call_getReferenceCount (symbol : string)
  | Call_getReferenceGraph
  | Call_getATNGraph (rule : string)
  | Call_generate (dependencies : list ref) (options : GenerationOptions)
  | Call_generateSentence (dependencies : list ref) (rule : string)
      (options : SentenceGenerationOptions).

(** The dependency contexts a call hands to the context. *)
Definition forwardedDependencies (c : ContextCall) : list ref :=
  match c with
  | Call_generate dependencies _ => dependencies
  | Call_generateSentence dependencies _ _ => dependencies
  | _ => []
  end.

(** The shape shared by the queries that only look up the context and call
    one method on it. *)
Definition forward (fuel : nat) (fileName : string) (call : ContextCall)
    : Op (ref * ContextCall) :=
  do context <- getContext fuel fileName None;
  op_ret (context, call).

(** [symbolInfoAtPosition(fileName, column, row, limitToChildren)] *)
Definition symbolInfoAtPosition (fuel : nat) (fileName : string) (column row : Z)
    (limitToChildren : bool) : Op (ref * ContextCall) :=
  forward fuel fileName (Call_symbolAtPosition column row limitToChildren).

(** [infoForSymbol(fileName, symbol)] *)
Definition infoForSymbol (fuel : nat) (fileName symbol : string) : Op (ref * ContextCall) :=
  forward fuel fileName (Call_getSymbolInfo symbol).

(** [listTopLevelSymbols(fileName, fullList)] *)
Definition listTopLevelSymbols (fuel : nat) (fileName : string) (fullList : bool)
    : Op (ref * ContextCall) :=
  forward fuel fileName (Call_listTopLevelSymbols (negb fullList)).

(** [getDiagnostics(fileName)] *)
Definition getDiagnostics (fuel : nat) (fileName : string) : Op (ref * ContextCall) :=
  forward fuel fileName Call_getDiagnostics.

(** [ruleFromPosition(fileName, column, row)] *)
Definition ruleFromPosition (fuel : nat) (fileName : string) (column row : Z)
    : Op (ref * ContextCall) :=
  forward fuel fileName (Call_ruleFromPosition column row).

(** [countReferences(fileName, symbol)] *)
Definition countReferences (fuel : nat) (fileName symbol : string) : Op (ref * ContextCall) :=
  forward fuel fileName (Call_getReferenceCount symbol).

(** [getReferenceGraph(fileName)] *)
Definition getReferenceGraph (fuel : nat) (fileName : string) : Op (ref * ContextCall) :=
  forward fuel fileName Call_getReferenceGraph.

(** [getATNGraph(fileName, rule)] *)
Definition getATNGraph (fuel : nat) (fileName rule : string) : Op (ref * ContextCall) :=
  forward fuel fileName (Call_getATNGraph rule).

(** [generate(fileName, options)] *)
Definition generate (fuel : nat) (fileName : string) (options : GenerationOptions)
    : Op (ref * ContextCall) :=
  do context <- getContext fuel fileName None;
  do entry <- mapGetSome fileName;
  do dependencies <- pushDependencyFiles fuel entry [];
  op_ret (context, Call_generate dependencies options).

(** What [generateSentence] does with its callback: it calls it itself, or
    hands it to the context. *)
Inductive SentenceOutcome :=
  | Callback (sentence : string) (index : Z)
  | Generated (context : ref) (call : ContextCall).

(** The loop over the dependencies in [generateSentence] and [createDebugger]:
    [true] when it ran to the end, [false] when it left the method at a
    dependency with errors. *)
Fixpoint prepareInterpreters (dataDir : string) (contexts : list ref) : Op bool :=
  match contexts with
  | [] => op_ret true
  | dependency :: rest =>
    do d <- readEntry dependency;
    if sc_hasErrors (context d) then op_ret false
    else
      (if sc_isInterpreterDataLoaded (context d) then op_ret tt
       else updateEntry dependency (with_context (λ c, sc_setupInterpreters c dataDir))) ;;;
      prepareInterpreters dataDir rest
  end.

(** [generateSentence(fileName, rule, options, callback)] *)
Definition generateSentence (fuel : nat) (fileName rule : string)
    (options : SentenceGenerationOptions) : Op SentenceOutcome :=
  do context <- getContext fuel fileName None;
  do entry <- mapGetSome fileName;
  do dependencies <- pushDependencyFiles fuel entry [];
  let basePath := path_dirname fileName in
  do ready <- prepareInterpreters (path_join basePath ".antlr") dependencies;
  if ready : bool then op_ret (Generated context (Call_generateSentence dependencies rule options))
  else op_ret (Callback "[Fix grammar errors first]" 0).

(** [createDebugger(fileName, actionFile, dataDir)]: [Some] holds the
    arguments of [new GrammarDebugger(...)], [None] is [undefined]. *)
Definition createDebugger (fuel : nat) (fileName actionFile dataDir : string)
    : Op (option (list ref * string)) :=
  do context <- getContext fuel fileName None;
  do entry <- mapGetSome fileName;
  do contexts <- pushDependencyFiles fuel entry (setAdd context []);
  do ready <- prepareInterpreters dataDir contexts;
  if ready : bool then op_ret (Some (contexts, actionFile)) else op_ret None.

End Facade.

Abbreviation Op := (StateOp AntlrFacade).

(** ** Observations on a facade state *)

Section Observations.
Context `{NodeEnv} `{SourceContextApi}.

(** The entry the map holds for a file name. *)
Definition entryOf (st : AntlrFacade) (fileName : string) : option ContextEntry :=
  match sourceContexts st !! fileName with
  | Some r => objects st !! r
  | None => None
  end.

(** Its reference count. *)
Definition refCountOf (st : AntlrFacade) (fileName : string) : option Z :=
  refCount <$> entryOf st fileName.

End Observations.

(** ** Further operations of the facade *)

(** [SourceContext.fileName], the property of a context [getDependencies]
    reads. *)
Class SourceContextFile `{SourceContextApi} := {
  sc_fileName : SourceContext → string;
}.

(** The kinds of symbols, in the order of the enumeration. *)
Inductive SymbolKind :=
  | Keyword
  | TokenVocab
  | Import
  | BuiltInLexerToken
  | VirtualLexerToken
  | FragmentLexerToken
  | LexerRule
  | BuiltInMode
  | LexerMode
  | BuiltInChannel
  | TokenChannel
  | ParserRule
  | Action
  | Predicate
  | Operator
  | Option
  | TokenReference
  | RuleReference.

(** The number a member of the enumeration stands for. *)
Definition kindValue (k : SymbolKind) : Z :=
  match k with
  | Keyword => 0
  | TokenVocab => 1
  | Import => 2
  | BuiltInLexerToken => 3
  | VirtualLexerToken => 4
  | FragmentLexerToken => 5
  | LexerRule => 6
  | BuiltInMode => 7
  | LexerMode => 8
  | BuiltInChannel => 9
  | TokenChannel => 10
  | ParserRule => 11
  | Action => 12
  | Predicate => 13
  | Operator => 14
  | Option => 15
  | TokenReference => 16
  | RuleReference => 17
  end.

#[global] Instance SymbolKind_eq_dec : EqDecision SymbolKind.
Proof. solve_decision. Defined.

Record Position := { column : Z; row : Z }.

(** [LexicalRange]; its second field is [end] in the source. *)
Record LexicalRange := { start : Position; end_ : Position }.

(** The interface [Definition] of the source. *)
Record SymbolDefinition := { text : string; range : LexicalRange }.

Record SymbolInfo := {
  kind : SymbolKind;
  name : string;
  source : string;
  definition : option SymbolDefinition;
  description : option string;
  isPredicate : option bool;
}.

(** [context.symbolTable.getSymbolOccurrences(symbolName, localOnly)] *)
Class SymbolTableApi `{SourceContextApi} := {
  sc_getSymbolOccurrences : SourceContext → string → bool → list SymbolInfo;
}.

(** [Array.prototype.sort(compareFn)].  The sort is stable (ECMAScript 2019),
    so for a [compareFn] that is a consistent comparison the result is
    determined: the elements in ascending order, those that compare as equal
    in the order they had.  [sortInsert] puts an element in front of a sorted
    array of elements that came after it. *)
Fixpoint sortInsert {A} (compareFn : A → A → Z) (x : A) (sorted : list A) : list A :=
  match sorted with
  | [] => [x]
  | y :: rest =>
    if decide (compareFn x y ≤ 0) then x :: sorted else y :: sortInsert compareFn x rest
  end.

Definition Array_sort {A} (compareFn : A → A → Z) (array : list A) : list A :=
  foldr (sortInsert compareFn) [] array.

Section FurtherOperations.
Context `{NodeEnv} `{SourceContextApi}.

(** [getDependencies(fileName)] *)
Definition getDependencies `{!SourceContextFile} (fuel : nat) (fileName : string)
    : Op (list string) :=
  do entry <- mapGet fileName;
  match entry with
  | None => op_ret []
  | Some ce =>
    do dependencies <- pushDependencyFiles fuel ce [];
    foldOp dependencies [] (λ result dep,
      do d <- readEntry dep;
      op_ret (result ++ [sc_fileName (context d)]))
  end.

(** [getSymbolOccurrences(fileName, symbolName)] *)
Definition getSymbolOccurrences `{!SymbolTableApi} (fuel : nat) (fileName symbolName : string)
    : Op (list SymbolInfo) :=
  do c <- getContext fuel fileName None;
  do e <- readEntry c;
  let result := sc_getSymbolOccurrences (context e) symbolName false in
  op_ret (Array_sort (λ lhs rhs, kindValue (kind lhs) - kindValue (kind rhs)) result).

End FurtherOperations.

(** ** The tree data provider of the front end *)

Module TreeDataProvider.

Record Uri := { scheme : string }.

(** The parts of a [TextDocument] of the editor that [refresh] reads. *)
Record TextDocument := { languageId : string; uri : Uri; fileName : string }.

(** An [AntlrTreeDataProvider] over a back end of type [Backend]:
    [changeEvent] is the number of times the event emitter has fired. *)
Record AntlrTreeDataProvider (Backend : Type) := {
  backend : Backend;
  currentFile : option string;
  changeEvent : nat;
}.
Arguments backend {Backend}.
Arguments currentFile {Backend}.
Arguments changeEvent {Backend}.

(** [new AntlrTreeDataProvider(backend)] *)
Definition newAntlrTreeDataProvider {Backend} (b : Backend) : AntlrTreeDataProvider Backend :=
  {| backend := b; currentFile := None; changeEvent := 0 |}.

(** [refresh(document)] *)
Definition refresh {Backend} (document : option TextDocument)
    (this : AntlrTreeDataProvider Backend) : AntlrTreeDataProvider Backend :=
  {| backend := backend this;
     currentFile :=
       match document with
       | Some d =>
         if bool_decide (languageId d = "antlr") && bool_decide (scheme (uri d) = "file")
         then Some (fileName d) else None
       | None => None
       end;
     changeEvent := S (changeEvent this) |}.

(** [getTreeItem(element)] *)
Definition getTreeItem {T} (element : T) : T := element.

(** [getChildren(_element?)] *)
Definition getChildren {T} (_element : option T) : option (list T) := None.

End TreeDataProvider.

(** * Notions the properties are stated with *)

Section Specification.
Context `{NodeEnv} `{SourceContextApi}.

(** ** Well-formed states *)

(** A reference to an object that exists. *)
Definition validRef (st : AntlrFacade) (r : ref) : Prop :=
  (r < length (objects st))%nat.

(** The map only holds references to objects. *)
Definition wf (st : AntlrFacade) : Prop :=
  ∀ n r, sourceContexts st !! n = Some r → validRef st r.

#[global] Instance validRef_dec st r : Decision (validRef st r) :=
  decide (r < length (objects st))%nat.

#[global] Instance wf_dec st : Decision (wf st) :=
  map_Forall_dec (λ (_ : string) (r : ref), validRef st r) (sourceContexts st).

(** ** Steps of [loadGrammar] and [parseGrammar] *)

(** The state after [contextEntry.refCount--] (or [++]). *)
Definition bump (d : Z) (ce : ref) (st : AntlrFacade) : AntlrFacade :=
  set_objects (alter (with_refCount (λ n, n + d)) ce) st.

(** The state after [new] and [this.sourceContexts.set] in [loadGrammar]. *)
Definition registered (fileName : string) (st : AntlrFacade) : AntlrFacade :=
  set_sourceContexts (insert fileName (length (objects st)))
    (set_objects (λ os, os ++ [{| context := sc_new fileName; refCount := 0;
                                  dependencies := []; grammar := fileName |}]) st).

(** The body of the first loop of [parseGrammar]. *)
Definition resolveDependency (load : string → option string → Op ref) (contextEntry : ref)
    (dep : string) : Op unit :=
  do depContext <- loadDependencyWith load contextEntry dep;
  match depContext with
  | Some d => contextPair sc_addAsReferenceTo contextEntry d
  | None => op_ret tt
  end.

(** [parseGrammar] up to the end of its first loop; the result is the local
    variable [oldDependencies]. *)
Definition resolveDependencies (load : string → option string → Op ref) (contextEntry : ref)
    : Op (list string) :=
  do e <- readEntry contextEntry;
  updateEntry contextEntry (with_dependencies (λ _, [])) ;;;
  do newDependencies <- contextParse contextEntry;
  forEach newDependencies (resolveDependency load contextEntry) ;;;
  op_ret (dependencies e).

(** ** The paths of a referenced grammar *)

(** The candidate paths for a referenced grammar in the order of the
    specification, each with the outcome of the existence probe made for it:
    the import directory (taken relative to the directory of the grammar
    unless it is absolute) with the extensions [.g4] and [.g], probed with
    [fs.accessSync(path, R_OK)], then the directory of the grammar with the
    same two extensions, probed with [fs.statSync(path)]. *)
Definition dependencyCandidates (st : AntlrFacade) (e : ContextEntry) (depName : string)
    : list (bool * string) :=
  let grammarDir := path_dirname (grammar e) in
  let importPath := if path_isAbsolute (importDir st) then importDir st
                    else path_join grammarDir (importDir st) in
  [ (fs_accessSync (path_join importPath (depName +:+ ".g4")),
       path_join importPath (depName +:+ ".g4"));
    (fs_accessSync (path_join importPath (depName +:+ ".g")),
       path_join importPath (depName +:+ ".g"));
    (fs_statSync (path_join grammarDir (depName +:+ ".g4")),
       path_join grammarDir (depName +:+ ".g4"));
    (fs_statSync (path_join grammarDir (depName +:+ ".g")),
       path_join grammarDir (depName +:+ ".g")) ].

(** The path [loadDependency] settles on for a referenced grammar. *)
Definition resolvePath (st : AntlrFacade) (e : ContextEntry) (depName : string)
    : option string :=
  snd <$> List.find fst (dependencyCandidates st e depName).

(** ** The contexts a grammar depends on *)

(** [reaches st r x]: the context [x] is behind a chain of dependency paths
    that starts at the entry [r], each path being in the map. *)
Inductive reaches (st : AntlrFacade) : ref → ref → Prop :=
  | reaches_direct r e d r' :
      objects st !! r = Some e → d ∈ dependencies e → sourceContexts st !! d = Some r' →
      reaches st r r'
  | reaches_step r e d r' x :
      objects st !! r = Some e → d ∈ dependencies e → sourceContexts st !! d = Some r' →
      reaches st r' x → reaches st r x.

(** An order of a list of contexts in which every context comes after the
    contexts it reaches. *)
Definition dependenciesFirst (st : AntlrFacade) (contexts : list ref) : Prop :=
  ∀ l1 x l2 y, contexts = l1 ++ x :: l2 → reaches st x y → y ∈ l1.

(** Whether the context behind a reference has errors. *)
Definition hasErrorsAt (st : AntlrFacade) (r : ref) : bool :=
  match objects st !! r with
  | Some e => sc_hasErrors (context e)
  | None => false
  end.

(** ** Counting references *)

(** How often a name is in a list. *)
Definition occurrences (x : string) (l : list string) : nat :=
  length (filter (λ y, y = x) l).

(** The dependency list of the object behind a reference. *)
Definition depsAt (st : AntlrFacade) (r : ref) : list string :=
  match objects st !! r with
  | Some e => dependencies e
  | None => []
  end.

(** The number of times the dependency lists of the entries in the map name
    [x]. *)
Definition incoming (st : AntlrFacade) (x : string) : nat :=
  sum_list_with (λ p, occurrences x (depsAt st p.2)) (map_to_list (sourceContexts st)).

(** Some dependency list of an entry in the map names [d]. *)
Definition referenced (st : AntlrFacade) (d : string) : Prop :=
  ∃ n r e, sourceContexts st !! n = Some r ∧ objects st !! r = Some e ∧ d ∈ dependencies e.

(** The holders after a caller released, or loaded, [name] once. *)
Definition releasedBy (holders : string → nat) (name : string) : string → nat :=
  λ n, if decide (n = name) then (holders n - 1)%nat else holders n.

Definition loadedBy (holders : string → nat) (name : string) : string → nat :=
  λ n, if decide (n = name) then S (holders n) else holders n.

(** The counting invariant, with releases still to come: [holders n] loads
    of [n] by callers have not been released yet, and the names in [pending]
    are about to be released once each.  The count of an entry is the number
    of its holders, of the dependency lists in the map that name it, and of
    its pending releases. *)
Definition counted (holders : string → nat) (pending : list string) (st : AntlrFacade)
    : Prop :=
  wf st ∧
  (∀ n r e, sourceContexts st !! n = Some r → objects st !! r = Some e →
     grammar e = n ∧ 0 < refCount e ∧
     refCount e = Z.of_nat (holders n + incoming st n + occurrences n pending)) ∧
  (∀ n, sourceContexts st !! n = None → holders n = 0%nat ∧ incoming st n = 0%nat).

(** A state at rest: every count is the number of holders and references. *)
Definition consistent (holders : string → nat) (st : AntlrFacade) : Prop :=
  counted holders [] st.

(** The counting invariant with loads under way: the names in [loading] are
    being loaded, each of their counts is still to be raised once; the names in
    [pending] are to be released once each after the loading. *)
Definition counting (holders : string → nat) (loading pending : list string)
    (st : AntlrFacade) : Prop :=
  wf st ∧
  (∀ n r e, sourceContexts st !! n = Some r → objects st !! r = Some e →
     grammar e = n ∧ 0 ≤ refCount e ∧ 0 < refCount e + Z.of_nat (occurrences n loading) ∧
     refCount e + Z.of_nat (occurrences n loading) =
       Z.of_nat (holders n + incoming st n + occurrences n pending)) ∧
  (∀ n, sourceContexts st !! n = None →
     (holders n + incoming st n + occurrences n pending)%nat = occurrences n loading).

(** ** What operations leave alone *)

(** What the reference counting looks at in an entry. *)
Definition shape (e : ContextEntry) : Z * list string * string :=
  (refCount e, dependencies e, grammar e).

(** Two stores whose objects agree in all of that. *)
Definition sameShape (st st' : AntlrFacade) : Prop :=
  shape <$> objects st' = shape <$> objects st.

(** Two states that differ in the [SourceContext]s only. *)
Definition contextsOnly (st st' : AntlrFacade) : Prop :=
  sameShape st st' ∧ sourceContexts st' = sourceContexts st ∧ importDir st' = importDir st.

(** Releases allocate nothing, add nothing to the map, leave dependency lists
    and grammar names alone, and never raise a reference count. *)
Definition releaseFrame (st st' : AntlrFacade) : Prop :=
  length (objects st') = length (objects st) ∧
  sourceContexts st' ⊆ sourceContexts st ∧
  importDir st' = importDir st ∧
  ∀ r e, objects st !! r = Some e →
    ∃ e', objects st' !! r = Some e' ∧ dependencies e' = dependencies e ∧
          grammar e' = grammar e ∧ refCount e' ≤ refCount e.

(** Loads never delete an object or remove an entry of the map, never lower
    a count and leave grammar names alone; they leave alone the dependency
    lists of the objects in [keep]. *)
Definition grows (keep : ref → Prop) (st st' : AntlrFacade) : Prop :=
  (wf st → wf st') ∧
  sourceContexts st ⊆ sourceContexts st' ∧
  importDir st' = importDir st ∧
  ∀ r e, objects st !! r = Some e →
    ∃ e', objects st' !! r = Some e' ∧ grammar e' = grammar e ∧
          refCount e ≤ refCount e' ∧ (keep r → dependencies e' = dependencies e).

(** What the operations below need to know about the [loadGrammar] they
    call. *)
Definition loadGrows (load : string → option string → Op ref) : Prop :=
  ∀ x source st r st', load x source st = Some (r, st') →
    grows (λ _, True) st st' ∧ sourceContexts st' !! x = Some r ∧ validRef st' r.

(** What the invariant needs to know about the [loadGrammar] under it. *)
Definition loadCounts (load : string → option string → Op ref) : Prop :=
  ∀ holders x source loading pending st r st',
    counting holders (x :: loading) pending st →
    load x source st = Some (r, st') →
    counting holders loading pending st'.

End Specification.

Section FurtherSpecification.
Context `{NodeEnv} `{SourceContextApi}.

(** ** The files a load comes to *)

(** The entry [loadGrammar] hands to [parseGrammar] for a name that was not
    in the map: a new context with the initial text. *)
Definition loadedEntry (fileName : string) (source : option string) : ContextEntry :=
  {| context := sc_setText (sc_new fileName) (initialSource fileName source);
     refCount := 0; dependencies := []; grammar := fileName |}.

(** The paths [loadDependency] settles on for the grammars that the parse of
    the context of an entry names. *)
Definition imports (st : AntlrFacade) (e : ContextEntry) : list string :=
  omap (resolvePath st e) (snd (sc_parse (context e))).

(** [files] holds what its files import: for every file of the set, loaded
    from the disk by a facade with the import directory [dir], the paths its
    text leads to are in the set again. *)
Definition importClosed (dir : string) (files : gset string) : Prop :=
  ∀ p d, p ∈ files → d ∈ imports (newAntlrFacade dir) (loadedEntry p None) → d ∈ files.

(** The number of files that are not in the map. *)
Definition missing (files : gset string) (st : AntlrFacade) : nat :=
  size (files ∖ dom (sourceContexts st)).

(** A [loadGrammar] that returns what another one returns. *)
Definition extends (load load' : string → option string → Op ref) : Prop :=
  ∀ x source st r, load x source st = Some r → load' x source st = Some r.

(** What the termination argument needs to know about the [loadGrammar] under
    it: it returns for every file of the set when [loadDependency] calls it,
    in every well-formed state with fewer than [bound] files missing. *)
Definition loadReturns (dir : string) (files : gset string) (bound : nat)
    (load : string → option string → Op ref) : Prop :=
  ∀ p st, p ∈ files → wf st → importDir st = dir → (missing files st < bound)%nat →
    ∃ r st', load p None st = Some (r, st').

(** ** Import cycles *)

(** A chain of dependency paths from the entry [r] leads into a cycle: it
    reaches an entry, or is itself one, that reaches itself. *)
Definition cyclicFrom (st : AntlrFacade) (r : ref) : Prop :=
  ∃ x, (x = r ∨ reaches st r x) ∧ reaches st x x.

(** ** Setting up interpreters *)

(** An entry after the loop of [generateSentence] and [createDebugger] went
    through it: the interpreters of its context are set up in [dataDir] unless
    the context had its interpreter data loaded. *)
Definition prepared (dataDir : string) (e : ContextEntry) : ContextEntry :=
  if sc_isInterpreterDataLoaded (context e) then e
  else with_context (λ c, sc_setupInterpreters c dataDir) e.

(** The contexts of a list in front of the first one with errors, all of them
    when none has errors. *)
Fixpoint beforeErrors (st : AntlrFacade) (contexts : list ref) : list ref :=
  match contexts with
  | [] => []
  | d :: rest => if hasErrorsAt st d then [] else d :: beforeErrors st rest
  end.

(** ** Clients *)

(** The calls of a client that can change the state of the facade.
    [DoQuery] stands for the queries that look up the context of a grammar
    with [getContext] and call one method on it. *)
Inductive Request :=
  | DoLoadGrammar (fileName : string) (source : option string)
  | DoReleaseGrammar (fileName : string)
  | DoSetText (fileName source : string)
  | DoReparse (fileName : string)
  | DoQuery (fileName : string) (call : ContextCall)
  | DoGenerate (fileName : string) (options : GenerationOptions)
  | DoGenerateSentence (fileName rule : string) (options : SentenceGenerationOptions)
  | DoCreateDebugger (fileName actionFile dataDir : string).

Definition perform (fuel : nat) (q : Request) : Op unit :=
  match q with
  | DoLoadGrammar fileName source => loadGrammar fuel fileName source ;;; op_ret tt
  | DoReleaseGrammar fileName => releaseGrammar fileName
  | DoSetText fileName source => setText fileName source
  | DoReparse fileName => reparse fuel fileName
  | DoQuery fileName call => forward fuel fileName call ;;; op_ret tt
  | DoGenerate fileName options => generate fuel fileName options ;;; op_ret tt
  | DoGenerateSentence fileName rule options =>
      generateSentence fuel fileName rule options ;;; op_ret tt
  | DoCreateDebugger fileName actionFile dataDir =>
      createDebugger fuel fileName actionFile dataDir ;;; op_ret tt
  end.

(** The holders after a call: a load adds one, a release takes one away, and
    a query for a grammar that is not in the map loads it, which adds one. *)
Definition holdersAfter (q : Request) (st : AntlrFacade) (holders : string → nat)
    : string → nat :=
  match q with
  | DoLoadGrammar fileName _ => loadedBy holders fileName
  | DoReleaseGrammar fileName => releasedBy holders fileName
  | DoSetText _ _ | DoReparse _ => holders
  | DoQuery fileName _ | DoGenerate fileName _ | DoGenerateSentence fileName _ _
  | DoCreateDebugger fileName _ _ =>
      match sourceContexts st !! fileName with
      | Some _ => holders
      | None => loadedBy holders fileName
      end
  end.

(** Clients release only what they hold. *)
Definition permitted (q : Request) (holders : string → nat) : Prop :=
  match q with
  | DoReleaseGrammar fileName => (0 < holders fileName)%nat
  | _ => True
  end.

(** The states a facade gets into when its clients release only what they
    hold, with the holders of each name. *)
Inductive reachable : (string → nat) → AntlrFacade → Prop :=
  | reachable_new dir : reachable (λ _, 0%nat) (newAntlrFacade dir)
  | reachable_perform holders st fuel q st' :
      reachable holders st → permitted q holders →
      perform fuel q st = Some (tt, st') →
      reachable (holdersAfter q st holders) st'.

(** ** The file names of the contexts *)

(** The file name of a context is the one it was made with: no method the
    facade calls changes it. *)
Record FileNameLaws `{!SourceContextFile} : Prop := {
  fileName_new f : sc_fileName (sc_new f) = f;
  fileName_setText c source : sc_fileName (sc_setText c source) = sc_fileName c;
  fileName_parse c : sc_fileName (fst (sc_parse c)) = sc_fileName c;
  fileName_addAsReferenceTo c d :
    sc_fileName (fst (sc_addAsReferenceTo c d)) = sc_fileName c ∧
    sc_fileName (snd (sc_addAsReferenceTo c d)) = sc_fileName d;
  fileName_removeDependency c d :
    sc_fileName (fst (sc_removeDependency c d)) = sc_fileName c ∧
    sc_fileName (snd (sc_removeDependency c d)) = sc_fileName d;
  fileName_setupInterpreters c dir :
    sc_fileName (sc_setupInterpreters c dir) = sc_fileName c;
}.

(** Every entry object holds the grammar name its context was made with. *)
Definition fileNamed `{!SourceContextFile} (st : AntlrFacade) : Prop :=
  ∀ r e, objects st !! r = Some e → sc_fileName (context e) = grammar e.

(** An operation that keeps it so. *)
Definition keeps `{!SourceContextFile} {A} (m : Op A) : Prop :=
  ∀ st a st', fileNamed st → m st = Some (a, st') → fileNamed st'.

End FurtherSpecification.

(** ** The order of symbol occurrences *)

(** Ascending by the value of the kind. *)
Definition byKind (lhs rhs : SymbolInfo) : Prop :=
  kindValue (kind lhs) ≤ kindValue (kind rhs).

(** The symbols of one kind in a list, in the order of the list. *)
Definition ofKind (k : SymbolKind) (l : list SymbolInfo) : list SymbolInfo :=
  filter (λ s, kind s = k) l.

(** The references to tokens and rules, as opposed to their definitions. *)
Definition isReference (s : SymbolInfo) : Prop :=
  kind s = TokenReference ∨ kind s = RuleReference.

(** ** A small concrete world

    POSIX-like paths, a file system given by a table of files, and a
    [SourceContext] that finds the grammars a text refers to in a table. *)
Module Demo.

Local Open Scope string_scope.

Fixpoint beforeLastSlash (s : string) : option string :=
  match s with
  | EmptyString => None
  | String c s' =>
    match beforeLastSlash s' with
    | Some d => Some (String c d)
    | None => if decide (c = "/"%char) then Some EmptyString else None
    end
  end.

Definition dirname (p : string) : string :=
  match beforeLastSlash p with
  | Some EmptyString => "/"
  | Some d => d
  | None => "."
  end.

Definition join (a b : string) : string :=
  if decide (a = "." ∨ a = "") then b
  else if decide (b = "." ∨ b = "") then a
  else a +:+ "/" +:+ b.

Definition isAbsolute (p : string) : bool :=
  match p with
  | String c _ => bool_decide (c = "/"%char)
  | EmptyString => false
  end.

Fixpoint assoc {A} (k : string) (table : list (string * A)) : option A :=
  match table with
  | [] => None
  | (k', a) :: rest => if decide (k = k') then Some a else assoc k rest
  end.

(** A file system in which exactly the files of the table exist, all of them
    readable. *)
Definition env (files : list (string * string)) : NodeEnv := {|
  path_dirname := dirname;
  path_join := join;
  path_isAbsolute := isAbsolute;
  fs_statSync p := bool_decide (is_Some (assoc p files));
  fs_accessSync p := bool_decide (is_Some (assoc p files));
  fs_readFileSync p := assoc p files;
|}.

Record Context := {
  fileName : string;
  text : string;
  references : list string;
  interpreterData : option string;
}.

Definition withText (c : Context) (source : string) : Context :=
  {| fileName := fileName c; text := source; references := references c;
     interpreterData := interpreterData c |}.

Definition addReference (c other : Context) : Context :=
  {| fileName := fileName c; text := text c;
     references := references c ++ [fileName other];
     interpreterData := interpreterData c |}.

Definition removeReference (c other : Context) : Context :=
  {| fileName := fileName c; text := text c;
     references := filter (λ n, n ≠ fileName other) (references c);
     interpreterData := interpreterData c |}.

Definition withInterpreters (c : Context) (dir : string) : Context :=
  {| fileName := fileName c; text := text c; references := references c;
     interpreterData := Some dir |}.

(** [declared] gives, for a grammar text, the grammars it names in its import
    and token vocabulary declarations; [broken] lists the texts with errors. *)
Definition api (declared : list (string * list string)) (broken : list string)
    : SourceContextApi := {|
  SourceContext := Context;
  sc_new f := {| fileName := f; text := ""; references := []; interpreterData := None |};
  sc_setText := withText;
  sc_parse c := (c, default [] (assoc (text c) declared));
  sc_addAsReferenceTo c other := (addReference c other, other);
  sc_removeDependency c other := (removeReference c other, other);
  sc_hasErrors c := bool_decide (text c ∈ broken);
  sc_isInterpreterDataLoaded c := bool_decide (is_Some (interpreterData c));
  sc_setupInterpreters := withInterpreters;
  GenerationOptions := unit;
  SentenceGenerationOptions := unit;
|}.

(** Grammar texts: a lexer, a parser that takes its tokens from it, a plain
    grammar, two grammars that import each other, and a grammar that imports
    two others of which one imports the other. *)
Definition lexerText : string := "lexer grammar TLexer; ID: [a-z]+;".
Definition parserText : string :=
  "parser grammar TParser; options { tokenVocab = TLexer; } r: ID;".
Definition plainText : string := "grammar t; x: A; A: 'a';".
Definition pingText : string := "grammar Ping; import Pong; a: 'a';".
Definition pongText : string := "grammar Pong; import Ping; b: 'b';".
Definition mainText : string := "grammar Main; import Base, Common; m: c;".
Definition mainText' : string := "grammar Main; import Common; m: c;".
Definition baseText : string := "grammar Base; import Common; b: c;".
Definition commonText : string := "grammar Common; c: 'c';".
Definition brokenText : string := "lexer grammar TLexer; ID: [a-z+;".

Definition declared : list (string * list string) :=
  [(parserText, ["TLexer"]); (pingText, ["Pong"]); (pongText, ["Ping"]);
   (mainText, ["Base"; "Common"]); (mainText', ["Common"]); (baseText, ["Common"])].

Definition files : list (string * string) :=
  [("test/backend/TLexer.g4", lexerText);
   ("test/backend/TParser.g4", parserText);
   ("test/backend/t.g4", plainText);
   ("cycle/Ping.g4", pingText);
   ("cycle/Pong.g4", pongText);
   ("shared/Main.g4", mainText);
   ("shared/Base.g4", baseText);
   ("shared/Common.g4", commonText)].

#[export] Instance node : NodeEnv := env files.
#[export] Instance contexts : SourceContextApi := api declared [brokenText].

(** A facade made like the one of the tests, [new AntlrFacade(".")]. *)
Definition backend : AntlrFacade := newAntlrFacade ".".

(** The state after an operation that returned, the state before it
    otherwise. *)
Definition after {A} (m : Op A) (st : AntlrFacade) : AntlrFacade :=
  match m st with
  | Some (_, st') => st'
  | None => st
  end.

(** States of that facade: after loading the parser grammar (which brings
    in the lexer grammar), after loading one of the two grammars that import
    each other, and after loading the grammar with a shared dependency, before
    and after an edit that drops one of its two imports. *)
Definition parserLoaded : AntlrFacade :=
  after (loadGrammar 5 "test/backend/TParser.g4" None) backend.

Definition cyclic : AntlrFacade :=
  after (loadGrammar 5 "cycle/Ping.g4" None) backend.

Definition shared : AntlrFacade :=
  after (loadGrammar 5 "shared/Main.g4" None) backend.

Definition sharedEdited : AntlrFacade :=
  after (setText "shared/Main.g4" mainText') shared.

(** The holders after one load of [name] on a new facade. *)
Definition oneLoad (name : string) : string → nat := loadedBy (λ _, 0%nat) name.

(** The two grammars that import each other, after the caller has released
    the one it loaded once: the counts are 1 and 1, each entry being held by
    the dependency list of the other. *)
Definition cycleLeft : AntlrFacade := after (releaseGrammar "cycle/Ping.g4") cyclic.

(** The parser grammar with its lexer grammar loaded, after the text of the
    lexer grammar or of the parser grammar was replaced by one with errors. *)
Definition lexerBroken : AntlrFacade :=
  after (setText "test/backend/TLexer.g4" brokenText) parserLoaded.

Definition parserBroken : AntlrFacade :=
  after (setText "test/backend/TParser.g4" brokenText) parserLoaded.

(** The two grammars that import each other, after the text of the second
    was replaced by one with errors. *)
Definition cyclicBroken : AntlrFacade :=
  after (setText "cycle/Pong.g4" brokenText) cyclic.

(** The grammar with a shared dependency and one of the grammars it imports
    were loaded, and then the dependency they share was released by a caller
    that had not loaded it. *)
Definition sharedTwice : AntlrFacade :=
  after (loadGrammar 5 "shared/Base.g4" None) shared.

Definition commonReleased : AntlrFacade :=
  after (releaseGrammar "shared/Common.g4") sharedTwice.

End Demo.

(** ** More of the small world

    The file names of its contexts, a symbol table that knows one token, and
    the set of its files. *)
Module DemoQueries.
Import Demo.

Local Open Scope string_scope.

#[export] Instance fileNames : SourceContextFile := {| sc_fileName := fileName |}.

Definition occurrence (k : SymbolKind) (symbol file : string) : SymbolInfo :=
  {| kind := k; name := symbol; source := file;
     definition := None; description := None; isPredicate := None |}.

(** The occurrences of the token [ID], found in the order of the files: the
    use in the rule of the parser grammar, then the rule of the lexer grammar
    and a use in another lexer rule. *)
Definition occurrencesOfID : list SymbolInfo :=
  [ occurrence RuleReference "ID" "test/backend/TParser.g4";
    occurrence TokenReference "ID" "test/backend/TParser.g4";
    occurrence LexerRule "ID" "test/backend/TLexer.g4";
    occurrence TokenReference "ID" "test/backend/TLexer.g4" ].

#[export] Instance symbols : SymbolTableApi := {|
  sc_getSymbolOccurrences c symbolName localOnly :=
    if decide (symbolName = "ID") then occurrencesOfID else [];
|}.

(** The files of the file system. *)
Definition fileSet : gset string := list_to_set (files.*1).

(** The parser grammar comes before the lexer grammar it depends on. *)
Definition rank (r : ref) : nat := (1 - r)%nat.

(** Documents of the editor. *)
Definition grammarDocument : TreeDataProvider.TextDocument :=
  {| TreeDataProvider.languageId := "antlr";
     TreeDataProvider.uri := {| TreeDataProvider.scheme := "file" |};
     TreeDataProvider.fileName := "test/backend/t.g4" |}.

End DemoQueries.

(** * Properties *)

Section Properties.
Context `{NodeEnv} `{SourceContextApi}.

(** ** Running operations *)

Lemma op_bind_Some {S A B} (m : StateOp S A) (k : A → StateOp S B) st r :
  op_bind m k st = Some r ↔ ∃ a st1, m st = Some (a, st1) ∧ k a st1 = Some r.
Proof.
  unfold op_bind. split.
  - destruct (m st) as [[a st1]|]; [eauto | discriminate].
  - intros (a & st1 & -> & Hk). exact Hk.
Qed.

Lemma op_bind_run {S A B} (m : StateOp S A) (k : A → StateOp S B) st a st1 :
  m st = Some (a, st1) → op_bind m k st = k a st1.
Proof. unfold op_bind. intros ->. reflexivity. Qed.

(** ** Well-formed states and the shape of the store *)

Lemma sameShape_refl st : sameShape st st.
Proof. reflexivity. Qed.

Lemma sameShape_trans st1 st2 st3 :
  sameShape st1 st2 → sameShape st2 st3 → sameShape st1 st3.
Proof. unfold sameShape. congruence. Qed.

Lemma sameShape_length st st' :
  sameShape st st' → length (objects st') = length (objects st).
Proof.
  intros Hs. rewrite <- (length_fmap shape (objects st')), Hs. apply length_fmap.
Qed.

Lemma sameShape_lookup st st' r :
  sameShape st st' → shape <$> (objects st' !! r) = shape <$> (objects st !! r).
Proof. intros Hs. rewrite <- !list_lookup_fmap, Hs. reflexivity. Qed.

Lemma alter_shape (f : ContextEntry → ContextEntry) r (os : list ContextEntry) :
  (∀ e, shape (f e) = shape e) → shape <$> alter f r os = shape <$> os.
Proof.
  intros Hf. revert r. induction os as [|o os IH]; intros [|r]; simpl; try reflexivity.
  - rewrite Hf. reflexivity.
  - f_equal. apply IH.
Qed.

Lemma validRef_lookup st r : validRef st r ↔ is_Some (objects st !! r).
Proof. unfold validRef. symmetry. apply lookup_lt_is_Some. Qed.

Lemma readEntry_run st r e :
  objects st !! r = Some e → readEntry r st = Some (e, st).
Proof. unfold readEntry. intros ->. reflexivity. Qed.

Lemma updateEntry_run st r f :
  validRef st r → updateEntry r f st = Some (tt, set_objects (alter f r) st).
Proof.
  intros [e He]%validRef_lookup. unfold updateEntry. rewrite He. reflexivity.
Qed.

Lemma contextsOnly_refl st : contextsOnly st st.
Proof. repeat split. Qed.

Lemma contextsOnly_trans st1 st2 st3 :
  contextsOnly st1 st2 → contextsOnly st2 st3 → contextsOnly st1 st3.
Proof.
  intros (? & ? & ?) (? & ? & ?). repeat split; [|congruence..].
  eapply sameShape_trans; eassumption.
Qed.

Lemma contextsOnly_validRef st st' r :
  contextsOnly st st' → validRef st' r ↔ validRef st r.
Proof. intros (Hs & _). unfold validRef. rewrite (sameShape_length _ _ Hs). reflexivity. Qed.

Lemma contextsOnly_wf st st' : contextsOnly st st' → wf st → wf st'.
Proof.
  intros Hc Hwf n r Hn. apply (contextsOnly_validRef _ _ _ Hc).
  destruct Hc as (_ & Hm & _). rewrite Hm in Hn. eauto.
Qed.

Lemma updateEntry_context st r f :
  validRef st r →
  ∃ st', updateEntry r (with_context f) st = Some (tt, st') ∧ contextsOnly st st'.
Proof.
  intros Hr. eexists. split; [apply updateEntry_run, Hr|].
  repeat split. unfold sameShape. simpl. apply alter_shape. reflexivity.
Qed.

Lemma contextPair_run st m a b :
  validRef st a → validRef st b →
  ∃ st', contextPair m a b st = Some (tt, st') ∧ contextsOnly st st'.
Proof.
  intros Ha Hb.
  destruct (proj1 (validRef_lookup _ _) Ha) as [ea Hea].
  destruct (proj1 (validRef_lookup _ _) Hb) as [eb Heb].
  unfold contextPair.
  rewrite (op_bind_run _ _ _ _ _ (readEntry_run _ _ _ Hea)).
  rewrite (op_bind_run _ _ _ _ _ (readEntry_run _ _ _ Heb)).
  destruct (updateEntry_context st a (λ _, fst (m (context ea) (context eb))) Ha)
    as (st1 & Hu1 & Hc1).
  rewrite (op_bind_run _ _ _ _ _ Hu1).
  apply (contextsOnly_validRef _ _ _ Hc1) in Hb.
  destruct (updateEntry_context st1 b (λ _, snd (m (context ea) (context eb))) Hb)
    as (st2 & Hu2 & Hc2).
  exists st2. split; [exact Hu2|]. eapply contextsOnly_trans; eassumption.
Qed.

(** One call of [internalReleaseGrammar] on a loaded name, up to what the
    [removeDependency] call did to the two contexts. *)
Lemma internalReleaseGrammar_step fuel name referencing st ce e :
  sourceContexts st !! name = Some ce →
  objects st !! ce = Some e →
  (∀ r, referencing = Some r → validRef st r) →
  ∃ st1, contextsOnly st st1 ∧ (referencing = None → st1 = st) ∧
    internalReleaseGrammar (S fuel) name referencing st =
      if decide (refCount e - 1 = 0) then
        forEach (dependencies e) (λ dep, internalReleaseGrammar fuel dep (Some ce))
          (set_sourceContexts (delete name) (bump (-1) ce st1))
      else Some (tt, bump (-1) ce st1).
Proof.
  intros Hname He Href.
  assert (Hce : validRef st ce) by (apply validRef_lookup; eauto).
  assert (∃ st1, contextsOnly st st1 ∧ (referencing = None → st1 = st) ∧
            match referencing with
            | Some r => contextPair sc_removeDependency r ce
            | None => op_ret tt
            end st = Some (tt, st1)) as (st1 & Hc & Hnone & Hrun).
  { destruct referencing as [r|].
    - destruct (contextPair_run st sc_removeDependency r ce) as (st1 & ? & ?); [eauto..|].
      exists st1. split; [done|]. split; [discriminate|done].
    - exists st. split; [apply contextsOnly_refl | split; reflexivity]. }
  exists st1. split; [exact Hc|]. split; [exact Hnone|].
  simpl. unfold mapGet at 1. unfold op_bind at 1. rewrite Hname.
  rewrite (op_bind_run _ _ _ _ _ Hrun).
  apply (contextsOnly_validRef _ _ _ Hc) in Hce.
  rewrite (op_bind_run _ _ _ _ _ (updateEntry_run _ _ (with_refCount (λ n, n - 1)) Hce)).
  destruct (proj1 (validRef_lookup _ _) Hce) as [e1 He1].
  assert (Hsh : shape e1 = shape e).
  { destruct Hc as (Hs & _). pose proof (sameShape_lookup _ _ ce Hs) as Hl.
    rewrite He, He1 in Hl. simpl in Hl. congruence. }
  assert (Hread : objects (set_objects (alter (with_refCount (λ n, n - 1)) ce) st1) !! ce
                  = Some (with_refCount (λ n, n - 1) e1)).
  { simpl. rewrite list_lookup_alter_eq, He1. reflexivity. }
  rewrite (op_bind_run _ _ _ _ _ (readEntry_run _ _ _ Hread)).
  injection Hsh as Hrc Hdeps Hg. simpl. rewrite Hrc, Hdeps.
  unfold bump. replace (λ n : Z, n + -1) with (λ n : Z, n - 1) by reflexivity.
  destruct (decide (refCount e - 1 = 0)); reflexivity.
Qed.

(** ** What a release can do to a state *)

Lemma releaseFrame_refl st : releaseFrame st st.
Proof. repeat split; [done|]. intros r e He. exists e. repeat split; [done|lia]. Qed.

Lemma releaseFrame_trans st1 st2 st3 :
  releaseFrame st1 st2 → releaseFrame st2 st3 → releaseFrame st1 st3.
Proof.
  intros (Hl1 & Hm1 & Hi1 & Ho1) (Hl2 & Hm2 & Hi2 & Ho2).
  repeat split; [congruence | by etrans | congruence |].
  intros r e He. destruct (Ho1 r e He) as (e2 & He2 & ? & ? & ?).
  destruct (Ho2 r e2 He2) as (e3 & He3 & ? & ? & ?).
  exists e3. repeat split; [done | congruence.. | lia].
Qed.

Lemma releaseFrame_wf st st' : releaseFrame st st' → wf st → wf st'.
Proof.
  intros (Hl & Hm & _) Hwf n r Hn. unfold validRef. rewrite Hl.
  apply (Hwf n). eapply map_subseteq_spec; eassumption.
Qed.

Lemma releaseFrame_validRef st st' r : releaseFrame st st' → validRef st r → validRef st' r.
Proof. intros (Hl & _). unfold validRef. by rewrite Hl. Qed.

Lemma releaseFrame_size st st' :
  releaseFrame st st' → (size (sourceContexts st') ≤ size (sourceContexts st))%nat.
Proof. intros (_ & Hm & _). by apply map_subseteq_size. Qed.

Lemma contextsOnly_releaseFrame st st' : contextsOnly st st' → releaseFrame st st'.
Proof.
  intros (Hs & Hm & Hi). repeat split; [by apply sameShape_length | by rewrite Hm | done |].
  intros r e He. pose proof (sameShape_lookup _ _ r Hs) as Hl. rewrite He in Hl.
  destruct (objects st' !! r) as [e'|]; [|discriminate]. simpl in Hl.
  injection Hl as Hrc Hd Hg. exists e'. repeat split; [done.. | lia].
Qed.

Lemma bump_lookup d ce st r :
  objects (bump d ce st) !! r =
    if decide (ce = r) then with_refCount (λ n, n + d) <$> objects st !! r
    else objects st !! r.
Proof.
  unfold bump. simpl. rewrite list_lookup_alter.
  destruct (decide (ce = r)) as [->|]; reflexivity.
Qed.

Lemma bump_releaseFrame ce st : releaseFrame st (bump (-1) ce st).
Proof.
  repeat split; [apply length_alter | done |].
  intros r e He. rewrite bump_lookup. destruct (decide (ce = r)).
  - rewrite He. eexists. split; [reflexivity|]. simpl. repeat split; lia.
  - exists e. repeat split; [done|lia].
Qed.

Lemma mapDelete_releaseFrame name st : releaseFrame st (set_sourceContexts (delete name) st).
Proof.
  repeat split; [apply delete_subseteq|].
  intros r e He. exists e. repeat split; [done|lia].
Qed.

Lemma size_delete_lt (m : gmap string ref) name r :
  m !! name = Some r → (size (delete name m) < size m)%nat.
Proof.
  intros Hn. rewrite <- (insert_delete_id m name r Hn) at 2.
  rewrite map_size_insert_None by apply lookup_delete_eq. lia.
Qed.

(** With more fuel than the map has entries, [internalReleaseGrammar]
    returns. *)
Lemma internalReleaseGrammar_returns fuel name referencing st :
  wf st →
  (∀ r, referencing = Some r → validRef st r) →
  (size (sourceContexts st) < fuel)%nat →
  ∃ st', internalReleaseGrammar fuel name referencing st = Some (tt, st') ∧
         releaseFrame st st'.
Proof.
  revert name referencing st.
  induction fuel as [|fuel IH]; intros name referencing st Hwf Href Hsize; [lia|].
  destruct (sourceContexts st !! name) as [ce|] eqn:Hname.
  2: { exists st. split; [|apply releaseFrame_refl].
       simpl. unfold mapGet at 1, op_bind at 1. rewrite Hname. reflexivity. }
  pose proof (Hwf _ _ Hname) as Hce.
  destruct (proj1 (validRef_lookup _ _) Hce) as [e He].
  destruct (internalReleaseGrammar_step fuel name referencing st ce e Hname He Href)
    as (st1 & Hc & _ & ->).
  assert (Hf2 : releaseFrame st (bump (-1) ce st1)).
  { eapply releaseFrame_trans; [apply contextsOnly_releaseFrame, Hc|apply bump_releaseFrame]. }
  destruct (decide (refCount e - 1 = 0)) as [_|_]; [|eauto].
  set (st2 := set_sourceContexts (delete name) (bump (-1) ce st1)).
  assert (Hf : releaseFrame st st2).
  { eapply releaseFrame_trans; [exact Hf2|apply mapDelete_releaseFrame]. }
  assert (Hsz : (size (sourceContexts st2) < fuel)%nat).
  { subst st2. simpl. destruct Hc as (_ & Hm & _). rewrite Hm.
    pose proof (size_delete_lt _ _ _ Hname). lia. }
  assert (Hwf2 : wf st2) by (eapply releaseFrame_wf; eassumption).
  assert (Hce2 : validRef st2 ce) by (eapply releaseFrame_validRef; eassumption).
  clearbody st2. clear Hf2 He Hname.
  revert st2 Hf Hsz Hwf2 Hce2.
  induction (dependencies e) as [|dep deps IHd]; intros st2 Hf Hsz Hwf2 Hce2.
  - exists st2. split; [reflexivity | exact Hf].
  - simpl.
    destruct (IH dep (Some ce) st2 Hwf2) as (st3 & Hrun & Hf3); [by intros ? [= <-] | exact Hsz |].
    rewrite (op_bind_run _ _ _ _ _ Hrun).
    apply IHd.
    + eapply releaseFrame_trans; eassumption.
    + pose proof (releaseFrame_size _ _ Hf3). lia.
    + eapply releaseFrame_wf; eassumption.
    + eapply releaseFrame_validRef; eassumption.
Qed.

Lemma releaseGrammar_returns name st :
  wf st → ∃ st', releaseGrammar name st = Some (tt, st') ∧ releaseFrame st st'.
Proof.
  intros Hwf. unfold releaseGrammar.
  apply internalReleaseGrammar_returns; [exact Hwf | discriminate | lia].
Qed.

Lemma forEach_mono {A} (xs : list A) (f g : A → Op unit) st r :
  (∀ x st r, f x st = Some r → g x st = Some r) →
  forEach xs f st = Some r → forEach xs g st = Some r.
Proof.
  intros Hfg. revert st. induction xs as [|x xs IH]; intros st; simpl; [done|].
  intros (a & st1 & Hf & Hrest)%op_bind_Some.
  rewrite (op_bind_run _ _ _ _ _ (Hfg _ _ _ Hf)). by apply IH.
Qed.

(** More fuel does not change the result of a release. *)
Lemma internalReleaseGrammar_fuel fuel fuel' name referencing st r :
  (fuel ≤ fuel')%nat →
  internalReleaseGrammar fuel name referencing st = Some r →
  internalReleaseGrammar fuel' name referencing st = Some r.
Proof.
  revert fuel' name referencing st r.
  induction fuel as [|fuel IH]; intros fuel' name referencing st r Hle; [done|].
  destruct fuel' as [|fuel']; [lia|].
  simpl. intros (found & st1 & Hget & Hrest)%op_bind_Some.
  rewrite (op_bind_run _ _ _ _ _ Hget).
  destruct found as [ce|]; [|exact Hrest].
  apply op_bind_Some in Hrest as (u1 & st2 & H1 & Hrest).
  rewrite (op_bind_run _ _ _ _ _ H1).
  apply op_bind_Some in Hrest as (u2 & st3 & H2 & Hrest).
  rewrite (op_bind_run _ _ _ _ _ H2).
  apply op_bind_Some in Hrest as (e & st4 & H3 & Hrest).
  rewrite (op_bind_run _ _ _ _ _ H3).
  destruct (decide (refCount e = 0)); [|exact Hrest].
  apply op_bind_Some in Hrest as (u4 & st5 & H4 & Hrest).
  rewrite (op_bind_run _ _ _ _ _ H4).
  eapply forEach_mono; [|exact Hrest].
  intros x st' r'. apply IH. lia.
Qed.

(** ** Reference counts and references *)

Lemma occurrences_cons x y l :
  occurrences x (y :: l) = ((if decide (y = x) then 1 else 0) + occurrences x l)%nat.
Proof.
  unfold occurrences. rewrite filter_cons. destruct (decide (y = x)); reflexivity.
Qed.

Lemma occurrences_app x l k :
  occurrences x (l ++ k) = (occurrences x l + occurrences x k)%nat.
Proof. unfold occurrences. by rewrite filter_app, length_app. Qed.

Lemma occurrences_pos x l : (0 < occurrences x l)%nat ↔ x ∈ l.
Proof.
  induction l as [|y l IH].
  - split; [inversion 1 | by intros ?%elem_of_nil].
  - rewrite occurrences_cons, elem_of_cons. destruct (decide (y = x)) as [->|Hne].
    + split; [by left | intros; lia].
    + simpl. rewrite IH. split; [by right | intros [->|]; done].
Qed.

Lemma incoming_ext st st' x :
  sourceContexts st' = sourceContexts st →
  (∀ r, depsAt st' r = depsAt st r) →
  incoming st' x = incoming st x.
Proof.
  intros Hm Hd. unfold incoming. rewrite Hm.
  induction (map_to_list (sourceContexts st)) as [|p l IH]; simpl; [done|].
  by rewrite Hd, IH.
Qed.

Lemma incoming_delete st name ce x :
  sourceContexts st !! name = Some ce →
  incoming st x =
    (occurrences x (depsAt st ce) + incoming (set_sourceContexts (delete name) st) x)%nat.
Proof.
  intros Hn. unfold incoming. simpl.
  rewrite <- (sum_list_with_Permutation_proper _ _ _ (map_to_list_delete _ _ _ Hn)).
  reflexivity.
Qed.

Lemma incoming_pos st x :
  (0 < incoming st x)%nat ↔
  ∃ n r e, sourceContexts st !! n = Some r ∧ objects st !! r = Some e ∧ x ∈ dependencies e.
Proof.
  unfold incoming. split.
  - intros Hpos.
    assert (∃ p, p ∈ map_to_list (sourceContexts st) ∧ (0 < occurrences x (depsAt st p.2))%nat)
      as ([n r] & Hin & Hocc).
    { induction (map_to_list (sourceContexts st)) as [|p l IH]; simpl in Hpos; [lia|].
      destruct (decide (0 < occurrences x (depsAt st p.2))%nat).
      - exists p. split; [left|done].
      - destruct IH as (q & ? & ?); [lia|]. exists q. split; [by right|done]. }
    apply elem_of_map_to_list in Hin. apply occurrences_pos in Hocc.
    unfold depsAt in Hocc. simpl in Hocc.
    destruct (objects st !! r) as [e|] eqn:He; [|by apply elem_of_nil in Hocc]. eauto 6.
  - intros (n & r & e & Hn & He & Hx).
    apply elem_of_map_to_list in Hn.
    pose proof (sum_list_with_in _ (λ p, occurrences x (depsAt st p.2)) _ Hn) as Hle.
    simpl in Hle. unfold depsAt in Hle at 1. rewrite He in Hle.
    apply occurrences_pos in Hx. lia.
Qed.

Lemma depsAt_sameShape st st' r : sameShape st st' → depsAt st' r = depsAt st r.
Proof.
  intros Hs. pose proof (sameShape_lookup _ _ r Hs) as Hl. unfold depsAt.
  destruct (objects st' !! r), (objects st !! r); simpl in Hl; try done.
  by injection Hl as _ Hd _.
Qed.

Lemma depsAt_bump d ce st r : depsAt (bump d ce st) r = depsAt st r.
Proof.
  unfold depsAt. rewrite bump_lookup. destruct (decide (ce = r)); [|done].
  by destruct (objects st !! r).
Qed.

Lemma counted_contextsOnly holders pending st st' :
  contextsOnly st st' → counted holders pending st → counted holders pending st'.
Proof.
  intros Hc (Hwf & Hlive & Hdead).
  pose proof Hc as (Hs & Hm & _).
  assert (Hinc : ∀ x, incoming st' x = incoming st x).
  { intros x. apply incoming_ext; [done|]. intros r. by apply depsAt_sameShape. }
  split; [by eapply contextsOnly_wf|]. split.
  - intros n r e' Hn He'. rewrite Hm in Hn.
    pose proof (sameShape_lookup _ _ r Hs) as Hl. rewrite He' in Hl.
    destruct (objects st !! r) as [e|] eqn:He; [|done]. simpl in Hl.
    injection Hl as Hrc Hd Hg. rewrite Hinc, Hrc, Hg. by apply (Hlive n r e).
  - intros n Hn. rewrite Hm in Hn. rewrite Hinc. by apply Hdead.
Qed.

(** Releasing a name that is not in the map. *)
Lemma counted_absent holders name pending st :
  sourceContexts st !! name = None →
  counted holders (name :: pending) st → counted holders pending st.
Proof.
  intros Hname (Hwf & Hlive & Hdead). split; [done|]. split; [|done].
  intros n r e Hn He. destruct (Hlive n r e Hn He) as (Hg & Hpos & Hrc).
  split; [done|]. split; [done|]. rewrite Hrc, occurrences_cons.
  destruct (decide (name = n)) as [->|]; [congruence|]. reflexivity.
Qed.

(** Releasing a name whose count stays above zero. *)
Lemma counted_decrement holders name pending st ce e :
  sourceContexts st !! name = Some ce →
  objects st !! ce = Some e →
  refCount e - 1 ≠ 0 →
  counted holders (name :: pending) st →
  counted holders pending (bump (-1) ce st).
Proof.
  intros Hname He Hne (Hwf & Hlive & Hdead).
  assert (Hinc : ∀ x, incoming (bump (-1) ce st) x = incoming st x).
  { intros x. apply incoming_ext; [done|]. intros r. apply depsAt_bump. }
  destruct (Hlive _ _ _ Hname He) as (Hg & Hpos & Hrc).
  split; [eapply releaseFrame_wf; [apply bump_releaseFrame|done]|]. split.
  - intros n r e' Hn. rewrite bump_lookup, Hinc. destruct (decide (ce = r)) as [<-|Hr].
    + rewrite He. intros [= <-]. simpl in Hn.
      destruct (Hlive _ _ _ Hn He) as (Hg' & _). simpl. split; [done|].
      assert (n = name) as -> by congruence.
      rewrite occurrences_cons in Hrc. rewrite decide_True in Hrc by done. lia.
    + intros He'. simpl in Hn. destruct (Hlive _ _ _ Hn He') as (Hg' & Hpos' & Hrc').
      split; [done|]. split; [done|]. rewrite Hrc', occurrences_cons.
      destruct (decide (name = n)) as [->|]; [congruence|]. reflexivity.
  - intros n Hn. rewrite Hinc. by apply Hdead.
Qed.

(** Releasing a name whose count reaches zero: the entry leaves the map and
    its dependencies become pending releases. *)
Lemma counted_remove holders name pending st ce e :
  sourceContexts st !! name = Some ce →
  objects st !! ce = Some e →
  refCount e - 1 = 0 →
  counted holders (name :: pending) st →
  counted holders (dependencies e ++ pending)
    (set_sourceContexts (delete name) (bump (-1) ce st)).
Proof.
  intros Hname He Hz (Hwf & Hlive & Hdead).
  set (st2 := set_sourceContexts (delete name) (bump (-1) ce st)).
  assert (Hinc : ∀ x, incoming st x = (occurrences x (dependencies e) + incoming st2 x)%nat).
  { intros x. rewrite (incoming_delete st name ce x Hname). unfold depsAt at 1. rewrite He.
    f_equal. symmetry. apply incoming_ext; [done|]. intros r.
    exact (depsAt_bump (-1) ce st r). }
  destruct (Hlive _ _ _ Hname He) as (Hg & Hpos & Hrc).
  rewrite occurrences_cons, decide_True in Hrc by done.
  split.
  { eapply releaseFrame_wf; [|exact Hwf].
    eapply releaseFrame_trans; [apply bump_releaseFrame | apply mapDelete_releaseFrame]. }
  split.
  - intros n r e' Hn. simpl in Hn. apply lookup_delete_Some in Hn as (Hne & Hn).
    change (objects st2) with (objects (bump (-1) ce st)).
    rewrite bump_lookup. destruct (decide (ce = r)) as [<-|Hr].
    + destruct (Hlive _ _ _ Hn He) as (Hg' & _). congruence.
    + intros He'. destruct (Hlive _ _ _ Hn He') as (Hg' & Hpos' & Hrc').
      split; [done|]. split; [done|].
      rewrite Hrc', occurrences_cons, decide_False, occurrences_app, (Hinc n) by done. lia.
  - intros n Hn. simpl in Hn. apply lookup_delete_None in Hn as [<-|Hn].
    + pose proof (Hinc name). lia.
    + destruct (Hdead n Hn). pose proof (Hinc n). lia.
Qed.

(** A release that returns turns one pending release into its effect. *)
Lemma internalReleaseGrammar_counted holders fuel name referencing pending st st' :
  counted holders (name :: pending) st →
  (∀ r, referencing = Some r → validRef st r) →
  internalReleaseGrammar fuel name referencing st = Some (tt, st') →
  counted holders pending st' ∧ length (objects st') = length (objects st).
Proof.
  revert name referencing pending st st'.
  induction fuel as [|fuel IH]; intros name referencing pending st st' Hinv Href Hrun; [done|].
  destruct (sourceContexts st !! name) as [ce|] eqn:Hname.
  2: { simpl in Hrun. unfold mapGet at 1, op_bind at 1 in Hrun. rewrite Hname in Hrun.
       injection Hrun as <-. split; [by eapply counted_absent|done]. }
  pose proof (proj1 Hinv _ _ Hname) as Hce.
  destruct (proj1 (validRef_lookup _ _) Hce) as [e He].
  destruct (internalReleaseGrammar_step fuel name referencing st ce e Hname He Href)
    as (st1 & Hc & _ & Heq).
  rewrite Heq in Hrun. clear Heq.
  apply (counted_contextsOnly _ _ _ _ Hc) in Hinv.
  pose proof Hc as (Hs & Hm & _).
  pose proof (sameShape_length _ _ Hs) as Hlen. rewrite <- Hlen.
  rewrite <- Hm in Hname.
  pose proof (sameShape_lookup _ _ ce Hs) as Hl. rewrite He in Hl.
  destruct (objects st1 !! ce) as [e1|] eqn:He1; [|done]. simpl in Hl.
  injection Hl as Hrc Hd Hg. rewrite <- Hrc, <- Hd in Hrun.
  assert (Hce1 : validRef st1 ce) by (apply validRef_lookup; eauto).
  clear Hc Hs Hm Hlen He Hrc Hd Hg Href Hce e st.
  destruct (decide (refCount e1 - 1 = 0)) as [Hz|Hnz].
  - pose proof (counted_remove _ _ _ _ _ _ Hname He1 Hz Hinv) as Hinv2.
    set (st2 := set_sourceContexts (delete name) (bump (-1) ce st1)) in *.
    assert (Hlen2 : length (objects st2) = length (objects st1)) by apply length_alter.
    rewrite <- Hlen2. unfold validRef in Hce1. rewrite <- Hlen2 in Hce1.
    clearbody st2. clear Hlen2 Hname He1 Hz Hinv.
    revert st2 Hinv2 Hce1 Hrun.
    induction (dependencies e1) as [|dep deps IHd]; intros st2 Hinv2 Hce1 Hrun.
    + injection Hrun as <-. done.
    + simpl in Hrun. apply op_bind_Some in Hrun as ([] & st3 & Hdep & Hrun).
      destruct (IH dep (Some ce) (deps ++ pending) st2 st3 Hinv2) as (Hinv3 & Hlen3);
        [by intros ? [= <-] | done |].
      rewrite <- Hlen3. apply IHd; [done | by rewrite Hlen3 | done].
  - injection Hrun as <-. split; [by eapply counted_decrement|apply length_alter].
Qed.

(** ** Termination of releases (C8) *)

(** C8.  [releaseGrammar] returns on every well-formed state, whatever the
    dependency lists of the entries look like, cycles included: any bound on
    the recursion depth above the size of the map gives the same final state.
    The map only loses entries.  A release of a name that is not in the map
    changes nothing, in the final state as well, so an entry that was removed
    is not processed again.  When the count reaches zero, the dependencies are
    released from a state whose map no longer has the entry. *)
Theorem releaseGrammar_terminates (st : AntlrFacade) (name : string) :
  wf st →
  (∃ st', releaseGrammar name st = Some (tt, st') ∧
     (∀ fuel, (size (sourceContexts st) < fuel)%nat →
        internalReleaseGrammar fuel name None st = Some (tt, st')) ∧
     wf st' ∧
     sourceContexts st' ⊆ sourceContexts st ∧
     (∀ n, sourceContexts st' !! n = None → releaseGrammar n st' = Some (tt, st'))) ∧
  (sourceContexts st !! name = None → releaseGrammar name st = Some (tt, st)) ∧
  (∀ ce e, sourceContexts st !! name = Some ce → objects st !! ce = Some e →
     refCount e = 1 →
     ∃ st1, sourceContexts st1 = delete name (sourceContexts st) ∧
       sourceContexts st1 !! name = None ∧
       releaseGrammar name st =
         forEach (dependencies e)
           (λ dep, internalReleaseGrammar (size (sourceContexts st)) dep (Some ce)) st1).
Proof.
  intros Hwf.
  assert (Habsent : ∀ st0 n, sourceContexts st0 !! n = None →
            releaseGrammar n st0 = Some (tt, st0)).
  { intros st0 n Hn. unfold releaseGrammar. simpl.
    unfold mapGet at 1, op_bind at 1. rewrite Hn. reflexivity. }
  split; [|split].
  - destruct (releaseGrammar_returns name st Hwf) as (st' & Hrun & Hf).
    exists st'. split; [exact Hrun|]. split.
    { intros fuel Hfuel. eapply internalReleaseGrammar_fuel; [|exact Hrun]. lia. }
    split; [by eapply releaseFrame_wf|]. split; [apply Hf|]. intros n. apply Habsent.
  - apply Habsent.
  - intros ce e Hname He Hrc.
    destruct (internalReleaseGrammar_step (size (sourceContexts st)) name None st ce e
                Hname He) as (st1 & _ & Hst1 & Heq); [discriminate|].
    rewrite (Hst1 eq_refl) in Heq.
    exists (set_sourceContexts (delete name) (bump (-1) ce st)).
    split; [reflexivity|]. split; [apply lookup_delete_eq|].
    unfold releaseGrammar. rewrite Heq. rewrite decide_True by lia. reflexivity.
Qed.

(** ** The self diagnostics (C9) *)

(** C9.  [getSelfDiagnostics] reports a context count of 0 in every state,
    however many entries the map has: it reads the [length] of the map's
    [keys] method, not the size of the map. *)
Theorem getSelfDiagnostics_contextCount (st : AntlrFacade) :
  contextCount (getSelfDiagnostics st) = 0 ∧
  ∀ name r, contextCount (getSelfDiagnostics (set_sourceContexts (insert name r) st)) = 0.
Proof. split; reflexivity. Qed.

(** ** What a load can do to a state *)

Lemma grows_refl keep st : grows keep st st.
Proof. repeat split; [done..|]. intros r e He. exists e. repeat split; [done|lia]. Qed.

Lemma grows_trans keep st1 st2 st3 :
  grows keep st1 st2 → grows keep st2 st3 → grows keep st1 st3.
Proof.
  intros (Hw1 & Hm1 & Hi1 & Ho1) (Hw2 & Hm2 & Hi2 & Ho2).
  split; [tauto|]. split; [by etrans|]. split; [congruence|].
  intros r e He. destruct (Ho1 r e He) as (e2 & He2 & ? & ? & Hk2).
  destruct (Ho2 r e2 He2) as (e3 & He3 & ? & ? & Hk3).
  exists e3. split; [done|]. split; [congruence|]. split; [lia|].
  intros Hk. rewrite Hk3, Hk2; done.
Qed.

Lemma grows_weaken (keep keep' : ref → Prop) st st' :
  (∀ r, keep' r → keep r) → grows keep st st' → grows keep' st st'.
Proof.
  intros Hk (Hw & Hm & Hi & Ho). repeat split; [done..|].
  intros r e He. destruct (Ho r e He) as (e' & ? & ? & ? & ?). exists e'. eauto 8.
Qed.

Lemma grows_validRef keep st st' r : grows keep st st' → validRef st r → validRef st' r.
Proof.
  intros (_ & _ & _ & Ho) [e He]%validRef_lookup.
  destruct (Ho r e He) as (e' & He' & _). apply validRef_lookup. eauto.
Qed.

Lemma contextsOnly_grows keep st st' : contextsOnly st st' → grows keep st st'.
Proof.
  intros Hc. pose proof Hc as (Hs & Hm & Hi).
  split; [by apply contextsOnly_wf|]. split; [by rewrite Hm|]. split; [done|].
  intros r e He. pose proof (sameShape_lookup _ _ r Hs) as Hl. rewrite He in Hl.
  destruct (objects st' !! r) as [e'|]; [|discriminate]. simpl in Hl.
  injection Hl as Hrc Hd Hg. exists e'. repeat split; [done | lia | done].
Qed.

Lemma bump_wf d ce st : wf st → wf (bump d ce st).
Proof. intros Hwf n r Hn. unfold validRef, bump. simpl. rewrite length_alter. by apply (Hwf n). Qed.

Lemma bump_grows keep ce st : grows keep st (bump 1 ce st).
Proof.
  split; [apply bump_wf|]. repeat split; [done|].
  intros r e He. rewrite bump_lookup. destruct (decide (ce = r)).
  - rewrite He. eexists. split; [reflexivity|]. simpl. repeat split; lia.
  - exists e. repeat split; [done|lia].
Qed.

Lemma updateDependencies_grows ce f st :
  grows (λ r, r ≠ ce) st (set_objects (alter (with_dependencies f) ce) st).
Proof.
  split.
  { intros Hwf n r Hn. unfold validRef. simpl. rewrite length_alter. by apply (Hwf n). }
  repeat split; [done|].
  intros r e He. simpl. rewrite list_lookup_alter. destruct (decide (ce = r)) as [<-|].
  - rewrite He. eexists. split; [reflexivity|]. simpl. repeat split; [lia|done].
  - exists e. repeat split; [done|lia].
Qed.

Lemma parseGrammarWith_phases load ce st :
  parseGrammarWith load ce st =
    (do oldDependencies <- resolveDependencies load ce;
     forEach oldDependencies releaseGrammar) st.
Proof.
  unfold parseGrammarWith, resolveDependencies, resolveDependency, op_bind.
  destruct (readEntry ce st) as [[e st1]|]; [|done].
  destruct (updateEntry ce _ st1) as [[[] st2]|]; [|done].
  destruct (contextParse ce st2) as [[names st3]|]; [|done].
  destruct (forEach names _ st3) as [[[] st4]|]; done.
Qed.

Lemma tryDependency_grows load ce probe depPath otherwise st res st' :
  loadGrows load →
  (otherwise st = Some (res, st') →
     grows (λ r, r ≠ ce) st st' ∧ ∀ d, res = Some d → validRef st' d) →
  tryDependency load ce probe depPath otherwise st = Some (res, st') →
  grows (λ r, r ≠ ce) st st' ∧ ∀ d, res = Some d → validRef st' d.
Proof.
  intros Hload Hother. unfold tryDependency. destruct (probe depPath); [|exact Hother].
  intros ([] & st1 & Hupd & Hrest)%op_bind_Some.
  apply op_bind_Some in Hrest as (c & st2 & Hl & [= <- <-]).
  unfold updateEntry in Hupd. destruct (objects st !! ce); [|done]. injection Hupd as <-.
  destruct (Hload _ _ _ _ _ Hl) as (Hg & _ & Hc).
  split; [|by intros d [= <-]].
  eapply grows_trans; [apply updateDependencies_grows|].
  eapply grows_weaken; [|exact Hg]. done.
Qed.

Lemma loadDependencyWith_grows load ce dep st res st' :
  loadGrows load →
  loadDependencyWith load ce dep st = Some (res, st') →
  grows (λ r, r ≠ ce) st st' ∧ ∀ d, res = Some d → validRef st' d.
Proof.
  intros Hload. unfold loadDependencyWith.
  intros (e & st1 & Hread & Hrest)%op_bind_Some.
  unfold readEntry in Hread. destruct (objects st !! ce); [|done]. injection Hread as <- <-.
  revert Hrest. repeat (apply tryDependency_grows; [exact Hload|]).
  intros [= <- <-]. split; [apply grows_refl|done].
Qed.

Lemma resolveDependency_grows load ce dep st st' :
  loadGrows load → validRef st ce →
  resolveDependency load ce dep st = Some (tt, st') →
  grows (λ r, r ≠ ce) st st'.
Proof.
  intros Hload Hce. unfold resolveDependency.
  intros (res & st1 & Hdep & Hrest)%op_bind_Some.
  destruct (loadDependencyWith_grows _ _ _ _ _ _ Hload Hdep) as (Hg & Hres).
  destruct res as [d|].
  - destruct (contextPair_run st1 sc_addAsReferenceTo ce d) as (st2 & Hrun & Hc);
      [by eapply grows_validRef | by apply Hres |].
    rewrite Hrun in Hrest. injection Hrest as <-.
    eapply grows_trans; [exact Hg|]. by apply contextsOnly_grows.
  - by injection Hrest as <-.
Qed.

Lemma forEach_grows {A} keep (body : A → Op unit) (I : AntlrFacade → Prop) xs st st' :
  (∀ x st st', I st → body x st = Some (tt, st') → grows keep st st' ∧ I st') →
  I st → forEach xs body st = Some (tt, st') → grows keep st st' ∧ I st'.
Proof.
  intros Hbody. revert st. induction xs as [|x xs IH]; intros st HI; simpl.
  - intros [= <-]. split; [apply grows_refl|done].
  - intros ([] & st1 & Hx & Hrest)%op_bind_Some.
    destruct (Hbody _ _ _ HI Hx) as (Hg1 & HI1).
    destruct (IH _ HI1 Hrest) as (Hg2 & HI2).
    split; [by eapply grows_trans|done].
Qed.

Lemma resolveDependencies_grows load ce st olds st' :
  loadGrows load →
  resolveDependencies load ce st = Some (olds, st') →
  grows (λ r, r ≠ ce) st st' ∧ validRef st ce ∧
  ∃ e, objects st !! ce = Some e ∧ olds = dependencies e.
Proof.
  intros Hload. unfold resolveDependencies.
  intros (e & st1 & Hread & Hrest)%op_bind_Some.
  unfold readEntry in Hread. destruct (objects st !! ce) as [e0|] eqn:He; [|done].
  injection Hread as <- <-.
  assert (Hce : validRef st ce) by (apply validRef_lookup; eauto).
  apply op_bind_Some in Hrest as ([] & st2 & Hupd & Hrest).
  rewrite (updateEntry_run _ _ _ Hce) in Hupd. injection Hupd as <-.
  pose proof (updateDependencies_grows ce (λ _, []) st) as Hg2.
  set (st2 := set_objects _ st) in *.
  apply op_bind_Some in Hrest as (names & st3 & Hparse & Hrest).
  assert (Hc3 : contextsOnly st2 st3).
  { unfold contextParse in Hparse.
    apply op_bind_Some in Hparse as (e2 & st2' & Hread & Hparse).
    unfold readEntry in Hread. destruct (objects st2 !! ce) eqn:He2; [|done].
    injection Hread as <- <-.
    apply op_bind_Some in Hparse as ([] & st3' & Hupd & [= _ <-]).
    destruct (updateEntry_context st2 ce (λ c, fst (sc_parse c))) as (? & Hrun & Hc).
    { apply validRef_lookup. eauto. }
    rewrite Hrun in Hupd. by injection Hupd as <-. }
  apply op_bind_Some in Hrest as ([] & st4 & Hloop & [= <- <-]).
  split; [|split; [done|eauto]].
  eapply grows_trans; [exact Hg2|].
  eapply grows_trans; [apply contextsOnly_grows, Hc3|].
  destruct (forEach_grows (λ r, r ≠ ce) (resolveDependency load ce) (λ s, validRef s ce)
              names st3 st4) as (Hg4 & _); [| |exact Hloop|exact Hg4].
  - intros x s s' Hv Hx. pose proof (resolveDependency_grows _ _ _ _ _ Hload Hv Hx) as Hg.
    split; [done|]. by eapply grows_validRef.
  - eapply grows_validRef; [apply (contextsOnly_grows (λ _, True)), Hc3|].
    by eapply grows_validRef.
Qed.

Lemma grows_upgrade (keep : ref → Prop) st st' :
  (∀ r, validRef st r → keep r) → grows keep st st' → grows (λ _, True) st st'.
Proof.
  intros Hk (Hw & Hm & Hi & Ho). repeat split; [done..|].
  intros r e He. destruct (Ho r e He) as (e' & ? & ? & ? & Hd). exists e'.
  repeat split; [done..|]. intros _. apply Hd, Hk, validRef_lookup. eauto.
Qed.

Lemma grows_lookup keep st st' n r :
  grows keep st st' → sourceContexts st !! n = Some r → sourceContexts st' !! n = Some r.
Proof. intros (_ & Hm & _). revert n r. by apply map_subseteq_spec. Qed.

Lemma registered_grows fileName st :
  sourceContexts st !! fileName = None → grows (λ _, True) st (registered fileName st).
Proof.
  intros Hnone. split.
  { intros Hwf n r. unfold registered, validRef. simpl. rewrite length_app. simpl.
    intros [[_ <-]|[_ Hn]]%lookup_insert_Some; [lia|]. pose proof (Hwf _ _ Hn). unfold validRef in *. lia. }
  split; [by apply insert_subseteq|]. split; [done|].
  intros r e He. exists e. simpl. rewrite lookup_app_l by (by eapply lookup_lt_Some).
  repeat split; [done|lia].
Qed.

Lemma registered_lookup fileName st :
  objects (registered fileName st) !! length (objects st) =
    Some {| context := sc_new fileName; refCount := 0; dependencies := []; grammar := fileName |}.
Proof. simpl. by rewrite lookup_app_r, Nat.sub_diag. Qed.

(** Loading a name that is in the map. *)
Lemma loadGrammar_loaded fuel name source st ce :
  sourceContexts st !! name = Some ce → validRef st ce →
  loadGrammar (S fuel) name source st = Some (ce, bump 1 ce st).
Proof.
  intros Hname Hce. simpl. unfold mapGet at 1, op_bind at 1. rewrite Hname.
  unfold op_bind at 1, op_ret at 1.
  rewrite (op_bind_run _ _ _ _ _ (updateEntry_run _ _ (with_refCount (λ n, n + 1)) Hce)).
  reflexivity.
Qed.

(** Loading a name that is not in the map, up to the final increment. *)
Lemma loadGrammar_new fuel name source st :
  sourceContexts st !! name = None →
  loadGrammar (S fuel) name source st =
    (updateEntry (length (objects st))
       (with_context (λ c, sc_setText c (initialSource name source))) ;;;
     parseGrammarWith (loadGrammar fuel) (length (objects st)) ;;;
     updateEntry (length (objects st)) (with_refCount (λ n, n + 1)) ;;;
     op_ret (length (objects st))) (registered name st).
Proof.
  intros Hname. simpl. unfold mapGet at 1, op_bind at 1. rewrite Hname.
  unfold op_bind, allocEntry, mapSet, op_ret. fold (registered name st).
  destruct (updateEntry _ _ (registered name st)) as [[[] st1]|]; [|done].
  destruct (parseGrammarWith _ _ st1) as [[[] st2]|]; done.
Qed.

(** Loading a name that is not in the map: the new entry is registered, its
    text is set, its dependencies are resolved (it has no old ones to release),
    and its count is raised last. *)
Lemma loadGrammar_new_steps fuel x source st r st' :
  sourceContexts st !! x = None →
  loadGrammar (S fuel) x source st = Some (r, st') →
  r = length (objects st) ∧
  ∃ st1 st2, contextsOnly (registered x st) st1 ∧
    resolveDependencies (loadGrammar fuel) r st1 = Some ([], st2) ∧
    validRef st2 r ∧ st' = bump 1 r st2.
Proof.
  intros Hx Hrun.
  rewrite (loadGrammar_new _ _ _ _ Hx) in Hrun.
  pose proof (registered_lookup x st) as He0.
  set (ce := length (objects st)) in *. set (st0 := registered x st) in *.
  assert (Hce0 : validRef st0 ce) by (apply validRef_lookup; eauto).
  apply op_bind_Some in Hrun as ([] & st1 & Hupd & Hrun).
  destruct (updateEntry_context st0 ce (λ c, sc_setText c (initialSource x source)) Hce0)
    as (? & Hrun1 & Hc1).
  rewrite Hrun1 in Hupd. injection Hupd as ->.
  assert (He1 : ∃ e1, objects st1 !! ce = Some e1 ∧ dependencies e1 = []).
  { destruct Hc1 as (Hs & _). pose proof (sameShape_lookup _ _ ce Hs) as Hl.
    rewrite He0 in Hl. destruct (objects st1 !! ce) as [e1|]; [|done].
    simpl in Hl. injection Hl as _ Hd _. eauto. }
  destruct He1 as (e1 & He1 & Hd1).
  apply op_bind_Some in Hrun as ([] & st2 & Hparse & Hrun).
  rewrite parseGrammarWith_phases in Hparse.
  apply op_bind_Some in Hparse as (olds & st2' & Hres & Hrel).
  assert (olds = []) as ->.
  { unfold resolveDependencies in Hres.
    rewrite (op_bind_run _ _ _ _ _ (readEntry_run _ _ _ He1)) in Hres.
    apply op_bind_Some in Hres as (? & ? & _ & Hres).
    apply op_bind_Some in Hres as (? & ? & _ & Hres).
    apply op_bind_Some in Hres as (? & ? & _ & [= <- _]). done. }
  injection Hrel as ->.
  apply op_bind_Some in Hrun as ([] & st3 & Hupd & [= <- <-]).
  assert (Hce2 : validRef st2 ce).
  { unfold updateEntry in Hupd. apply validRef_lookup.
    destruct (objects st2 !! ce); [eauto|done]. }
  rewrite (updateEntry_run _ _ _ Hce2) in Hupd. injection Hupd as <-.
  split; [done|]. exists st1, st2. done.
Qed.

Lemma loadGrammar_new_run fuel x source st r st' :
  loadGrows (loadGrammar fuel) →
  sourceContexts st !! x = None →
  loadGrammar (S fuel) x source st = Some (r, st') →
  r = length (objects st) ∧
  ∃ st2, grows (λ r', r' ≠ r) (registered x st) st2 ∧ st' = bump 1 r st2.
Proof.
  intros IH Hx Hrun.
  destruct (loadGrammar_new_steps _ _ _ _ _ _ Hx Hrun) as (-> & st1 & st2 & Hc1 & Hres & _ & ->).
  split; [done|]. exists st2. split; [|done].
  destruct (resolveDependencies_grows _ _ _ _ _ IH Hres) as (Hg2 & _).
  eapply grows_trans; [apply contextsOnly_grows, Hc1|exact Hg2].
Qed.

Lemma loadGrammar_grows fuel : loadGrows (loadGrammar fuel).
Proof.
  induction fuel as [|fuel IH]; intros x source st r st' Hrun; [done|].
  destruct (sourceContexts st !! x) as [ce|] eqn:Hx.
  - assert (Hce : validRef st ce).
    { simpl in Hrun. unfold mapGet at 1, op_bind at 1 in Hrun. rewrite Hx in Hrun.
      unfold op_bind at 1, op_ret at 1 in Hrun.
      apply op_bind_Some in Hrun as ([] & st1 & Hupd & _).
      unfold updateEntry in Hupd. apply validRef_lookup.
      destruct (objects st !! ce); [eauto|done]. }
    rewrite (loadGrammar_loaded _ _ _ _ _ Hx Hce) in Hrun. injection Hrun as <- <-.
    split; [apply bump_grows|]. split; [done|].
    unfold validRef, bump. simpl. by rewrite length_alter.
  - destruct (loadGrammar_new_run _ _ _ _ _ _ IH Hx Hrun) as (-> & st2 & Hg2 & ->).
    pose proof (registered_grows x st Hx) as Hg0.
    assert (Hg : grows (λ r, r ≠ length (objects st)) st st2).
    { eapply grows_trans; [eapply grows_weaken; [|exact Hg0]; done|exact Hg2]. }
    split; [|split].
    + eapply grows_trans; [|apply bump_grows].
      eapply grows_upgrade; [|exact Hg]. unfold validRef. lia.
    + simpl. eapply grows_lookup; [exact Hg2|]. apply lookup_insert_eq.
    + unfold validRef, bump. simpl. rewrite length_alter.
      eapply grows_validRef; [exact Hg2|]. apply validRef_lookup.
      rewrite registered_lookup. eauto.
Qed.


Lemma list_lookup_last {A} (l : list A) (x : A) : (l ++ [x]) !! length l = Some x.
Proof. by rewrite lookup_app_r, Nat.sub_diag. Qed.

Lemma list_alter_last {A} (f : A → A) (l : list A) (x : A) :
  alter f (length l) (l ++ [x]) = l ++ [f x].
Proof. induction l as [|y l IH]; simpl; [done|]. f_equal. exact IH. Qed.

(** ** Loading a grammar whose file cannot be read (C7) *)

(** C7.  When [loadGrammar] is called without a source for a name that is not
    loaded and whose file cannot be read ([fs.statSync] or [fs.readFileSync]
    throws), the source text it uses is the empty string, and the load goes on
    as for any new grammar: the entry is created and registered, the empty
    text is set, the entry is parsed, the count is raised.  With a parser that
    finds no grammar names in the empty text, the load returns on any positive
    bound: the new entry is in the map under the name, with the context that
    was parsed from the empty text, an empty dependency list and a count of
    exactly 1. *)
Theorem loadGrammar_unreadable (fuel : nat) (name : string) (st : AntlrFacade) :
  sourceContexts st !! name = None →
  fs_statSync name = false ∨ fs_readFileSync name = None →
  snd (sc_parse (sc_setText (sc_new name) "")) = [] →
  initialSource name None = ""%string ∧
  loadGrammar (S fuel) name None st =
    (updateEntry (length (objects st)) (with_context (λ c, sc_setText c "")) ;;;
     parseGrammarWith (loadGrammar fuel) (length (objects st)) ;;;
     updateEntry (length (objects st)) (with_refCount (λ n, n + 1)) ;;;
     op_ret (length (objects st))) (registered name st) ∧
  loadGrammar (S fuel) name None st =
    Some (length (objects st),
          set_sourceContexts (insert name (length (objects st)))
            (set_objects (λ os, os ++ [{| context := fst (sc_parse (sc_setText (sc_new name) ""));
                                          refCount := 1; dependencies := [];
                                          grammar := name |}]) st)).
Proof.
  intros Hname Hfile Hparse.
  assert (Hsrc : initialSource name None = ""%string).
  { unfold initialSource. simpl. destruct Hfile as [->| ->]; [done|].
    by destruct (fs_statSync name). }
  split; [exact Hsrc|]. split.
  { rewrite (loadGrammar_new _ _ _ _ Hname), Hsrc. reflexivity. }
  rewrite (loadGrammar_new _ _ _ _ Hname), Hsrc.
  destruct st as [os m d]. unfold registered.
  unfold parseGrammarWith, contextParse, op_bind, updateEntry, readEntry, op_ret,
    set_objects, set_sourceContexts.
  cbn [objects sourceContexts importDir].
  repeat (rewrite ?list_alter_last, ?list_lookup_last;
          cbn [objects sourceContexts importDir with_context with_refCount
               with_dependencies context dependencies refCount grammar forEach]).
  rewrite Hparse. cbn [forEach]. unfold op_ret. cbn [objects sourceContexts importDir].
  repeat (rewrite ?list_alter_last, ?list_lookup_last;
          cbn [objects sourceContexts importDir with_context with_refCount
               with_dependencies context dependencies refCount grammar forEach]).
  reflexivity.
Qed.

(** ** Releasing a loaded name *)

Lemma releaseAll_returns fuel deps referencing st :
  wf st →
  (∀ r, referencing = Some r → validRef st r) →
  (size (sourceContexts st) < fuel)%nat →
  ∃ st', forEach deps (λ dep, internalReleaseGrammar fuel dep referencing) st = Some (tt, st') ∧
         releaseFrame st st'.
Proof.
  revert st. induction deps as [|dep deps IH]; intros st Hwf Href Hsize.
  - exists st. split; [done|apply releaseFrame_refl].
  - destruct (internalReleaseGrammar_returns fuel dep referencing st Hwf Href Hsize)
      as (st1 & Hrun & Hf1).
    destruct (IH st1) as (st2 & Hrest & Hf2).
    + by eapply releaseFrame_wf.
    + intros r Hr. eapply releaseFrame_validRef; eauto.
    + pose proof (releaseFrame_size _ _ Hf1). lia.
    + exists st2. split; [|by eapply releaseFrame_trans].
      simpl. by rewrite (op_bind_run _ _ _ _ _ Hrun).
Qed.

Lemma refCountOf_lookup st name ce e :
  sourceContexts st !! name = Some ce → objects st !! ce = Some e →
  refCountOf st name = Some (refCount e).
Proof. intros Hn He. unfold refCountOf, entryOf. by rewrite Hn, He. Qed.

Lemma refCountOf_Some st name k :
  refCountOf st name = Some k →
  ∃ ce e, sourceContexts st !! name = Some ce ∧ objects st !! ce = Some e ∧ refCount e = k.
Proof.
  unfold refCountOf, entryOf. destruct (sourceContexts st !! name) as [ce|] eqn:Hn; [|done].
  destruct (objects st !! ce) as [e|] eqn:He; [|done]. simpl. intros [= <-].
  exists ce, e. done.
Qed.

(** A release that leaves the count above zero only lowers the count. *)
Lemma releaseGrammar_kept st name ce e :
  sourceContexts st !! name = Some ce → objects st !! ce = Some e →
  refCount e ≠ 1 →
  releaseGrammar name st = Some (tt, bump (-1) ce st).
Proof.
  intros Hname He Hrc.
  destruct (internalReleaseGrammar_step (size (sourceContexts st)) name None st ce e
              Hname He) as (st1 & _ & Hst1 & Heq); [discriminate|].
  rewrite (Hst1 eq_refl) in Heq. unfold releaseGrammar. rewrite Heq.
  rewrite decide_False by lia. reflexivity.
Qed.

(** A release that brings the count to zero removes the entry. *)
Lemma releaseGrammar_removed st name ce e :
  wf st →
  sourceContexts st !! name = Some ce → objects st !! ce = Some e →
  refCount e = 1 →
  ∃ st', releaseGrammar name st = Some (tt, st') ∧ sourceContexts st' !! name = None ∧
    releaseGrammar name st =
      forEach (dependencies e)
        (λ dep, internalReleaseGrammar (size (sourceContexts st)) dep (Some ce))
        (set_sourceContexts (delete name) (bump (-1) ce st)) ∧
    releaseFrame (set_sourceContexts (delete name) (bump (-1) ce st)) st'.
Proof.
  intros Hwf Hname He Hrc.
  destruct (internalReleaseGrammar_step (size (sourceContexts st)) name None st ce e
              Hname He) as (st1 & _ & Hst1 & Heq); [discriminate|].
  rewrite (Hst1 eq_refl) in Heq. unfold releaseGrammar. rewrite Heq.
  rewrite decide_True by lia.
  set (st2 := set_sourceContexts (delete name) (bump (-1) ce st)).
  assert (Hf : releaseFrame st st2).
  { eapply releaseFrame_trans; [apply bump_releaseFrame | apply mapDelete_releaseFrame]. }
  destruct (releaseAll_returns (size (sourceContexts st)) (dependencies e) (Some ce) st2)
    as (st' & Hrun & Hf').
  - by eapply releaseFrame_wf.
  - intros r [= <-]. eapply releaseFrame_validRef; [exact Hf|]. by apply (Hwf name).
  - apply (size_delete_lt _ _ _ Hname).
  - exists st'. split; [exact Hrun|]. split; [|done].
    destruct Hf' as (_ & Hm & _).
    destruct (sourceContexts st' !! name) as [r|] eqn:Hr; [|done].
    eapply map_subseteq_spec in Hr; [|exact Hm]. simpl in Hr.
    by rewrite lookup_delete_eq in Hr.
Qed.

(** ** Loading twice, releasing twice (C1) *)


(** ** Looking up the context for a query (C5) *)


(** ** Locating a dependency (C6) *)

Lemma loadDependencyWith_candidates load ce depName st e :
  objects st !! ce = Some e →
  loadDependencyWith load ce depName st =
    match resolvePath st e depName with
    | Some depPath =>
        (updateEntry ce (with_dependencies (λ ds, ds ++ [depPath])) ;;;
         do c <- load depPath None;
         op_ret (Some c)) st
    | None => Some (None, st)
    end.
Proof.
  intros He. unfold loadDependencyWith.
  rewrite (op_bind_run _ _ _ _ _ (readEntry_run _ _ _ He)).
  unfold resolvePath, dependencyCandidates, tryDependency. simpl.
  repeat match goal with
         | |- context [if ?b then _ else _] =>
             lazymatch b with
             | fs_accessSync _ => destruct b
             | fs_statSync _ => destruct b
             end; simpl; try reflexivity
         end.
Qed.

Lemma loadDependencyWith_recorded load ce depName st e res st' :
  loadGrows load →
  objects st !! ce = Some e →
  loadDependencyWith load ce depName st = Some (res, st') →
  match resolvePath st e depName with
  | Some depPath =>
      ∃ c, res = Some c ∧ sourceContexts st' !! depPath = Some c ∧
           depsAt st' ce = dependencies e ++ [depPath]
  | None => res = None ∧ st' = st
  end.
Proof.
  intros Hload He. rewrite (loadDependencyWith_candidates _ _ _ _ _ He).
  destruct (resolvePath st e depName) as [depPath|].
  - intros ([] & st1 & Hupd & Hrest)%op_bind_Some.
    apply op_bind_Some in Hrest as (c & st2 & Hl & [= <- <-]).
    assert (Hce : validRef st ce) by (apply validRef_lookup; eauto).
    rewrite (updateEntry_run _ _ _ Hce) in Hupd. injection Hupd as <-.
    destruct (Hload _ _ _ _ _ Hl) as ((_ & _ & _ & Ho) & Hc & _).
    exists c. split; [done|]. split; [exact Hc|].
    destruct (Ho ce (with_dependencies (λ ds, ds ++ [depPath]) e))
      as (e' & He' & _ & _ & Hd).
    { simpl. by rewrite list_lookup_alter_eq, He. }
    unfold depsAt. rewrite He'. by apply Hd.
  - by intros [= <- <-].
Qed.


(** ** Gathering the dependency contexts *)

Lemma elem_of_setAdd c contexts x : x ∈ setAdd c contexts ↔ x = c ∨ x ∈ contexts.
Proof.
  unfold setAdd. destruct (decide (c ∈ contexts)).
  - split; [by right | by intros [->|]].
  - rewrite elem_of_app, list_elem_of_singleton. tauto.
Qed.

Lemma NoDup_setAdd c contexts : NoDup contexts → NoDup (setAdd c contexts).
Proof.
  intros Hnd. unfold setAdd. destruct (decide (c ∈ contexts)); [done|].
  apply NoDup_app. split; [done|]. split; [|apply NoDup_singleton].
  intros x Hx ->%list_elem_of_singleton. done.
Qed.

Lemma reaches_inv st r e x :
  objects st !! r = Some e →
  reaches st r x ↔
  ∃ d r', d ∈ dependencies e ∧ sourceContexts st !! d = Some r' ∧ (x = r' ∨ reaches st r' x).
Proof.
  intros He. split.
  - intros Hr. destruct Hr as [r e' d r' He' Hd Hm | r e' d r' x He' Hd Hm Hrest];
      rewrite He in He'; injection He' as <-; eauto 6.
  - intros (d & r' & Hd & Hm & [->|Hrest]).
    + by eapply reaches_direct.
    + by eapply reaches_step.
Qed.

(** [pushDependencyFiles] reads the state only, keeps what the set held in
    its order, adds no context twice, and adds exactly the contexts the entry
    reaches. *)
Lemma pushDependencyFiles_spec fuel entry contexts st contexts' st' :
  pushDependencyFiles fuel entry contexts st = Some (contexts', st') →
  st' = st ∧ (NoDup contexts → NoDup contexts') ∧
  (∃ added, contexts' = contexts ++ added) ∧
  ∀ x, x ∈ contexts' ↔ x ∈ contexts ∨ reaches st entry x.
Proof.
  revert entry contexts contexts' st'.
  induction fuel as [|fuel IH]; intros entry contexts contexts' st' Hrun; [done|].
  simpl in Hrun. apply op_bind_Some in Hrun as (e & st1 & Hread & Hrun).
  unfold readEntry in Hread. destruct (objects st !! entry) as [e0|] eqn:He; [|done].
  injection Hread as <- <-.
  assert (Hloop : ∀ ds cs cs' st',
    foldOp ds cs (λ contexts dep,
      do depEntry <- mapGet dep;
      match depEntry with
      | Some de =>
        do contexts' <- pushDependencyFiles fuel de contexts;
        op_ret (setAdd de contexts')
      | None => op_ret contexts
      end) st = Some (cs', st') →
    st' = st ∧ (NoDup cs → NoDup cs') ∧ (∃ added, cs' = cs ++ added) ∧
    ∀ x, x ∈ cs' ↔ x ∈ cs ∨
      ∃ d r', d ∈ ds ∧ sourceContexts st !! d = Some r' ∧ (x = r' ∨ reaches st r' x)).
  { clear Hrun. intros ds. induction ds as [|d ds IHd]; intros cs csF stF Hrun.
    - injection Hrun as <- <-. split; [done|]. split; [done|]. split; [by exists []; rewrite app_nil_r|].
      intros x. split; [by left|]. intros [|(d & r' & []%elem_of_nil & _)]. done.
    - simpl in Hrun. apply op_bind_Some in Hrun as (csA & stA & Hd & Hrest).
      apply op_bind_Some in Hd as (found & stB & Hget & Hd). injection Hget as <- <-.
      destruct (sourceContexts st !! d) as [de|] eqn:Hde.
      + apply op_bind_Some in Hd as (cs0 & stC & Hpush & [= <- <-]).
        destruct (IH _ _ _ _ Hpush) as (-> & Hnd0 & (added0 & Hadd0) & Hin0).
        destruct (IHd _ _ _ Hrest) as (-> & Hnd1 & (added1 & Hadd1) & Hin1).
        split; [done|]. split; [by intros; apply Hnd1, NoDup_setAdd, Hnd0|]. split.
        { unfold setAdd in Hadd1. destruct (decide (de ∈ cs0)).
          - exists (added0 ++ added1). by rewrite Hadd1, Hadd0, <- app_assoc.
          - exists (added0 ++ [de] ++ added1). rewrite Hadd1, Hadd0, <- !app_assoc. done. }
        intros x. rewrite Hin1, elem_of_setAdd, Hin0. split.
        * intros [[->|[Hx|Hx]]|(d' & r' & Hd' & Hm & Hx)].
          -- right. exists d, de. split; [left|]. eauto.
          -- by left.
          -- right. exists d, de. split; [left|]. eauto.
          -- right. exists d', r'. split; [by right|]. eauto.
        * intros [Hx|(d' & r' & Hd' & Hm & Hx)]; [by left; right; left|].
          apply elem_of_cons in Hd' as [->|Hd'].
          -- rewrite Hde in Hm. injection Hm as <-. left. destruct Hx; [by left|by right; right].
          -- right. eauto 6.
      + injection Hd as <- <-.
        destruct (IHd _ _ _ Hrest) as (-> & Hnd1 & Hadd1 & Hin1).
        split; [done|]. split; [done|]. split; [done|].
        intros x. rewrite Hin1. split.
        * intros [Hx|(d' & r' & Hd' & Hm & Hx)]; [by left|]. right.
          exists d', r'. split; [by right|]. eauto.
        * intros [Hx|(d' & r' & Hd' & Hm & Hx)]; [by left|].
          apply elem_of_cons in Hd' as [->|Hd']; [congruence|]. right. eauto 6. }
  destruct (Hloop _ _ _ _ Hrun) as (-> & Hnd & Hadd & Hin).
  split; [done|]. split; [done|]. split; [done|].
  intros x. rewrite Hin, (reaches_inv st entry _ x He). done.
Qed.

Lemma getContext_registered fuel name source st c st1 :
  getContext fuel name source st = Some (c, st1) →
  sourceContexts st1 !! name = Some c ∧ (wf st → wf st1).
Proof.
  unfold getContext, mapGet, op_bind.
  destruct (sourceContexts st !! name) as [ce|] eqn:Hname.
  - by intros [= <- <-].
  - intros Hload. destruct (loadGrammar_grows _ _ _ _ _ _ Hload) as ((Hwf & _) & Hc & _).
    done.
Qed.

Lemma reaches_validRef st r x : wf st → reaches st r x → validRef st x.
Proof. intros Hwf. induction 1; [by eapply Hwf|done]. Qed.

Lemma existsb_agree {A} (f g : A → bool) (l : list A) :
  (∀ x, x ∈ l → f x = g x) → existsb f l = existsb g l.
Proof.
  induction l as [|y l IH]; intros Hfg; simpl; [done|].
  rewrite Hfg by left. rewrite IH; [done|]. intros x Hx. apply Hfg. by right.
Qed.

(** The loop over the gathered contexts returns; it ran to the end exactly
    when none of them has errors, and it touched nothing but the contexts it
    went through. *)
Lemma prepareInterpreters_run dataDir contexts st :
  NoDup contexts →
  (∀ d, d ∈ contexts → validRef st d) →
  ∃ st2, prepareInterpreters dataDir contexts st =
           Some (negb (existsb (hasErrorsAt st) contexts), st2) ∧
         contextsOnly st st2 ∧
         ∀ r, r ∉ contexts → objects st2 !! r = objects st !! r.
Proof.
  revert st. induction contexts as [|d cs IH]; intros st Hnd Hvalid.
  - exists st. split; [done|]. split; [apply contextsOnly_refl|done].
  - apply NoDup_cons in Hnd as (Hd & Hnd).
    assert (Hdv : validRef st d) by (apply Hvalid; left).
    destruct (proj1 (validRef_lookup _ _) Hdv) as [e He].
    simpl. rewrite (op_bind_run _ _ _ _ _ (readEntry_run _ _ _ He)).
    unfold hasErrorsAt at 1. rewrite He.
    destruct (sc_hasErrors (context e)) eqn:Herr.
    { exists st. split; [done|]. split; [apply contextsOnly_refl|done]. }
    assert (∃ st1, (if sc_isInterpreterDataLoaded (context e) then op_ret tt
                    else updateEntry d (with_context (λ c, sc_setupInterpreters c dataDir))) st
                   = Some (tt, st1) ∧ contextsOnly st st1 ∧
                   ∀ r, r ≠ d → objects st1 !! r = objects st !! r) as (st1 & Hrun & Hc & Hsame).
    { destruct (sc_isInterpreterDataLoaded (context e)).
      - exists st. split; [done|]. split; [apply contextsOnly_refl|done].
      - destruct (updateEntry_context st d (λ c, sc_setupInterpreters c dataDir) Hdv)
          as (st1 & Hrun & Hc).
        exists st1. split; [done|]. split; [done|].
        rewrite (updateEntry_run _ _ _ Hdv) in Hrun. injection Hrun as <-.
        intros r Hr. simpl. by rewrite list_lookup_alter_ne. }
    rewrite (op_bind_run _ _ _ _ _ Hrun).
    destruct (IH st1 Hnd) as (st2 & Hrest & Hc2 & Hsame2).
    { intros x Hx. apply (contextsOnly_validRef _ _ _ Hc), Hvalid. by right. }
    exists st2. split; [|split].
    + rewrite Hrest. simpl. do 3 f_equal. apply existsb_agree.
      intros x Hx. unfold hasErrorsAt. rewrite Hsame; [done|].
      by intros ->.
    + by eapply contextsOnly_trans.
    + intros r Hr. rewrite Hsame2, Hsame; [done| |].
      * intros ->. apply Hr. left.
      * intros Hx. apply Hr. by right.
Qed.

Lemma app_singleton_split {A} (l l1 l2 : list A) (a x : A) :
  l ++ [a] = l1 ++ x :: l2 →
  (l2 = [] ∧ x = a ∧ l1 = l) ∨ (∃ l2', l2 = l2' ++ [a] ∧ l = l1 ++ x :: l2').
Proof.
  destruct l2 as [|z l2 _] using rev_ind.
  - intros Heq. apply app_inj_tail in Heq as [-> ->]. by left.
  - intros Heq. right. exists l2.
    change (l1 ++ x :: l2 ++ [z]) with (l1 ++ (x :: l2) ++ [z]) in Heq.
    rewrite app_assoc in Heq. apply app_inj_tail in Heq as [-> ->]. done.
Qed.

(** The gathering is depth first: it keeps the set in an order in which
    every context comes after the contexts it reaches. *)
Lemma pushDependencyFiles_order fuel entry contexts st contexts' st' :
  pushDependencyFiles fuel entry contexts st = Some (contexts', st') →
  dependenciesFirst st contexts → dependenciesFirst st contexts'.
Proof.
  revert entry contexts contexts' st'.
  induction fuel as [|fuel IH]; intros entry contexts contexts' st' Hrun; [done|].
  simpl in Hrun. apply op_bind_Some in Hrun as (e & st1 & Hread & Hrun).
  unfold readEntry in Hread. destruct (objects st !! entry) as [e0|] eqn:He; [|done].
  injection Hread as <- <-.
  revert contexts contexts' st' Hrun.
  induction (dependencies e0) as [|d ds IHd]; intros cs cs' st' Hrun Hcs.
  - by injection Hrun as <- <-.
  - simpl in Hrun. apply op_bind_Some in Hrun as (csA & stA & Hd & Hrest).
    apply op_bind_Some in Hd as (found & stB & Hget & Hd). injection Hget as <- <-.
    destruct (sourceContexts st !! d) as [de|] eqn:Hde.
    + apply op_bind_Some in Hd as (cs0 & stC & Hpush & [= <- <-]).
      destruct (pushDependencyFiles_spec _ _ _ _ _ _ Hpush) as (-> & _ & _ & Hin0).
      pose proof (IH _ _ _ _ Hpush Hcs) as Hcs0.
      apply (IHd _ _ _ Hrest).
      unfold setAdd. destruct (decide (de ∈ cs0)); [done|].
      intros l1 x l2 y Heq Hreach.
      apply app_singleton_split in Heq as [(-> & -> & ->)|(l2' & -> & ->)].
      * apply Hin0. by right.
      * by eapply Hcs0.
    + injection Hd as <- <-. by apply (IHd _ _ _ Hrest).
Qed.

(** Whether [pushDependencyFiles] returns does not depend on the set it is
    given. *)
Lemma pushDependencyFiles_any_set fuel entry contexts contexts2 st r :
  pushDependencyFiles fuel entry contexts st = Some r →
  is_Some (pushDependencyFiles fuel entry contexts2 st).
Proof.
  revert entry contexts contexts2 r.
  induction fuel as [|fuel IH]; intros entry contexts contexts2 r Hrun; [done|].
  simpl in *. apply op_bind_Some in Hrun as (e & st1 & Hread & Hrun).
  rewrite (op_bind_run _ _ _ _ _ Hread).
  unfold readEntry in Hread. destruct (objects st !! entry) as [e0|]; [|done].
  injection Hread as <- <-.
  revert contexts contexts2 r Hrun.
  induction (dependencies e0) as [|d ds IHd]; intros cs cs2 r Hrun; [done|].
  simpl in *. apply op_bind_Some in Hrun as (csA & stA & Hd & Hrest).
  assert (stA = st ∧ ∃ x,
    (do depEntry <- mapGet d;
     match depEntry with
     | Some de =>
       do contexts' <- pushDependencyFiles fuel de cs2;
       op_ret (setAdd de contexts')
     | None => op_ret cs2
     end) st = Some (x, st)) as (-> & x & Hd2).
  { unfold mapGet, op_bind in Hd |- *. destruct (sourceContexts st !! d) as [de|].
    - destruct (pushDependencyFiles fuel de cs st) as [[cs0 stC]|] eqn:Hpush; [|done].
      destruct (pushDependencyFiles_spec _ _ _ _ _ _ Hpush) as (-> & _).
      injection Hd as <- <-. split; [done|].
      destruct (IH _ _ cs2 _ Hpush) as [[cs2' st2] Hpush2].
      destruct (pushDependencyFiles_spec _ _ _ _ _ _ Hpush2) as (-> & _).
      rewrite Hpush2. by eexists.
    - injection Hd as <- <-. split; [done|]. by eexists. }
  rewrite (op_bind_run _ _ _ _ _ Hd2). by eapply IHd.
Qed.

(** The three queries that gather the dependency contexts, once the context
    lookup and the gathering have returned. *)
Lemma gathering_queries_run fuel name st context st1 deps :
  wf st →
  getContext fuel name None st = Some (context, st1) →
  pushDependencyFiles fuel context [] st1 = Some (deps, st1) →
  NoDup deps ∧ (∀ x, x ∈ deps ↔ reaches st1 context x) ∧
  (∀ options, generate fuel name options st =
     Some ((context, Call_generate deps options), st1)) ∧
  (∀ rule options, ∃ st2, generateSentence fuel name rule options st =
     Some (if existsb (hasErrorsAt st1) deps
           then Callback "[Fix grammar errors first]" 0
           else Generated context (Call_generateSentence deps rule options), st2)) ∧
  (∀ actionFile dataDir, ∃ others st2, createDebugger fuel name actionFile dataDir st =
     Some (if existsb (hasErrorsAt st1) (context :: others) then None
           else Some (context :: others, actionFile), st2) ∧
     NoDup (context :: others) ∧
     ∀ x, x ∈ context :: others ↔ x = context ∨ reaches st1 context x).
Proof.
  intros Hwf Hget Hpush.
  destruct (getContext_registered _ _ _ _ _ _ Hget) as (Hname & Hwf1).
  specialize (Hwf1 Hwf).
  assert (Hentry : mapGetSome name st1 = Some (context, st1)).
  { unfold mapGetSome, mapGet, op_bind. by rewrite Hname. }
  destruct (pushDependencyFiles_spec _ _ _ _ _ _ Hpush) as (_ & Hnd & _ & Hin).
  specialize (Hnd (NoDup_nil_2)).
  assert (Hin' : ∀ x, x ∈ deps ↔ reaches st1 context x).
  { intros x. rewrite Hin. split; [intros [[]%elem_of_nil|]; done | by right]. }
  split; [exact Hnd|]. split; [exact Hin'|]. split; [|split].
  - intros options. unfold generate.
    rewrite (op_bind_run _ _ _ _ _ Hget), (op_bind_run _ _ _ _ _ Hentry).
    by rewrite (op_bind_run _ _ _ _ _ Hpush).
  - intros rule options. unfold generateSentence.
    rewrite (op_bind_run _ _ _ _ _ Hget), (op_bind_run _ _ _ _ _ Hentry).
    rewrite (op_bind_run _ _ _ _ _ Hpush).
    destruct (prepareInterpreters_run (path_join (path_dirname name) ".antlr") deps st1 Hnd)
      as (st2 & Hrun & _).
    { intros d Hd. eapply reaches_validRef; [exact Hwf1|]. by apply Hin'. }
    exists st2. rewrite (op_bind_run _ _ _ _ _ Hrun).
    by destruct (existsb (hasErrorsAt st1) deps).
  - intros actionFile dataDir. unfold createDebugger.
    rewrite (op_bind_run _ _ _ _ _ Hget), (op_bind_run _ _ _ _ _ Hentry).
    destruct (pushDependencyFiles_any_set _ _ _ (setAdd context []) _ _ Hpush)
      as [[contexts st1'] Hpush2].
    destruct (pushDependencyFiles_spec _ _ _ _ _ _ Hpush2) as (-> & Hnd2 & (others & ->) & Hin2).
    change (setAdd context []) with [context] in *. simpl in *.
    specialize (Hnd2 (NoDup_singleton _)).
    rewrite (op_bind_run _ _ _ _ _ Hpush2).
    assert (Hin2' : ∀ x, x ∈ context :: others ↔ x = context ∨ reaches st1 context x).
    { intros x. rewrite Hin2, list_elem_of_singleton. done. }
    destruct (prepareInterpreters_run dataDir (context :: others) st1 Hnd2) as (st2 & Hrun & _).
    { intros d [->|Hd]%Hin2'; [|by eapply reaches_validRef].
      by eapply (Hwf1 name). }
    exists others, st2. rewrite (op_bind_run _ _ _ _ _ Hrun). split; [|done].
    change (hasErrorsAt st1 context || existsb (hasErrorsAt st1) others)
      with (existsb (hasErrorsAt st1) (context :: others)).
    by destruct (existsb (hasErrorsAt st1) (context :: others)).
Qed.

(** ** The counting invariant while dependencies are being loaded *)

Lemma incoming_agree st st' x :
  sourceContexts st' = sourceContexts st →
  (∀ n r, sourceContexts st !! n = Some r → depsAt st' r = depsAt st r) →
  incoming st' x = incoming st x.
Proof.
  intros Hm Hd. unfold incoming. rewrite Hm.
  assert (Hall : ∀ p, p ∈ map_to_list (sourceContexts st) → depsAt st' p.2 = depsAt st p.2).
  { intros [n r] Hp%elem_of_map_to_list. by eapply Hd. }
  induction (map_to_list (sourceContexts st)) as [|p l IH]; simpl; [done|].
  rewrite Hall by left. rewrite IH; [done|]. intros q Hq. apply Hall. by right.
Qed.

Lemma incoming_insert st name r x :
  sourceContexts st !! name = None →
  incoming (set_sourceContexts (insert name r) st) x =
    (occurrences x (depsAt st r) + incoming st x)%nat.
Proof.
  intros Hn. unfold incoming. simpl.
  rewrite (sum_list_with_Permutation_proper _ _ _ (map_to_list_insert _ _ r Hn)).
  reflexivity.
Qed.

(** Assigning a new dependency list to the entry of [g]. *)
Lemma incoming_alter_dependencies st g ce e f x :
  sourceContexts st !! g = Some ce → objects st !! ce = Some e →
  (∀ n, sourceContexts st !! n = Some ce → n = g) →
  (incoming (set_objects (alter (with_dependencies f) ce) st) x
     + occurrences x (dependencies e))%nat =
  (incoming st x + occurrences x (f (dependencies e)))%nat.
Proof.
  intros Hg He Hinj.
  set (st' := set_objects (alter (with_dependencies f) ce) st).
  rewrite (incoming_delete st g ce x Hg), (incoming_delete st' g ce x Hg).
  assert (Hrest : incoming (set_sourceContexts (delete g) st') x =
                  incoming (set_sourceContexts (delete g) st) x).
  { apply incoming_agree; [done|]. intros n r Hn. simpl in Hn.
    apply lookup_delete_Some in Hn as (Hne & Hn).
    unfold depsAt, st'. simpl. rewrite list_lookup_alter_ne; [done|].
    intros <-. by apply Hne, eq_sym, Hinj. }
  rewrite Hrest. unfold depsAt, st'. simpl.
  rewrite list_lookup_alter_eq, He. simpl. lia.
Qed.

Lemma counting_counted holders pending st :
  counting holders [] pending st → counted holders pending st.
Proof.
  intros (Hwf & Hlive & Hdead). split; [done|]. split.
  - intros n r e Hn He. destruct (Hlive n r e Hn He) as (? & ? & ? & ?).
    change (occurrences n []) with 0%nat in *. repeat split; [done|lia|lia].
  - intros n Hn. specialize (Hdead n Hn).
    change (occurrences n []) with 0%nat in *. lia.
Qed.

Lemma consistent_counting holders st : consistent holders st ↔ counting holders [] [] st.
Proof.
  split.
  - intros (Hwf & Hlive & Hdead). split; [done|]. split.
    + intros n r e Hn He. destruct (Hlive n r e Hn He) as (? & ? & ?).
      change (occurrences n []) with 0%nat in *. repeat split; [done|lia|lia|lia].
    + intros n Hn. destruct (Hdead n Hn).
      change (occurrences n []) with 0%nat in *. lia.
  - apply counting_counted.
Qed.

Lemma counting_injective holders loading pending st n ce :
  counting holders loading pending st →
  sourceContexts st !! n = Some ce →
  ∀ n', sourceContexts st !! n' = Some ce → n' = n.
Proof.
  intros (Hwf & Hlive & _) Hn n' Hn'.
  destruct (proj1 (validRef_lookup _ _) (Hwf _ _ Hn)) as [e He].
  destruct (Hlive _ _ _ Hn He) as (<- & _). by destruct (Hlive _ _ _ Hn' He) as (<- & _).
Qed.

Lemma counting_contextsOnly holders loading pending st st' :
  contextsOnly st st' → counting holders loading pending st →
  counting holders loading pending st'.
Proof.
  intros Hc (Hwf & Hlive & Hdead).
  pose proof Hc as (Hs & Hm & _).
  assert (Hinc : ∀ x, incoming st' x = incoming st x).
  { intros x. apply incoming_ext; [done|]. intros r. by apply depsAt_sameShape. }
  split; [by eapply contextsOnly_wf|]. split.
  - intros n r e' Hn He'. rewrite Hm in Hn.
    pose proof (sameShape_lookup _ _ r Hs) as Hl. rewrite He' in Hl.
    destruct (objects st !! r) as [e|] eqn:He; [|done]. simpl in Hl.
    injection Hl as Hrc Hd Hg. rewrite Hinc, Hrc, Hg. by apply (Hlive n r e).
  - intros n Hn. rewrite Hm in Hn. rewrite Hinc. by apply Hdead.
Qed.

(** [contextEntry.refCount++] at the end of [loadGrammar]. *)
Lemma counting_bump holders x loading pending st ce :
  sourceContexts st !! x = Some ce →
  counting holders (x :: loading) pending st →
  counting holders loading pending (bump 1 ce st).
Proof.
  intros Hx Hinv. pose proof Hinv as (Hwf & Hlive & Hdead).
  assert (Hinc : ∀ n, incoming (bump 1 ce st) n = incoming st n).
  { intros n. apply incoming_ext; [done|]. intros r. apply depsAt_bump. }
  split; [by apply bump_wf|]. split.
  - intros n r e' Hn. simpl in Hn. rewrite bump_lookup, Hinc.
    destruct (decide (ce = r)) as [<-|Hr].
    + destruct (objects st !! ce) as [e|] eqn:He; [|done]. intros [= <-].
      pose proof (counting_injective _ _ _ _ _ _ Hinv Hx n Hn) as ->.
      destruct (Hlive _ _ _ Hx He) as (? & ? & ? & Heq).
      rewrite occurrences_cons, decide_True in Heq by done. simpl.
      repeat split; [done|lia|lia|lia].
    + intros He'. destruct (Hlive _ _ _ Hn He') as (? & ? & Hpos & Heq).
      rewrite occurrences_cons, decide_False in Heq, Hpos.
      * repeat split; [done|lia|lia|lia].
      * intros ->. rewrite Hx in Hn. congruence.
      * intros ->. rewrite Hx in Hn. congruence.
  - intros n Hn. simpl in Hn. specialize (Hdead n Hn).
    rewrite occurrences_cons, decide_False in Hdead; [rewrite Hinc; lia|].
    intros ->. congruence.
Qed.

(** Assigning a new dependency list to an entry of the map, with the
    bookkeeping of loads and releases adjusted to it. *)
Lemma counting_alter_dependencies holders loading pending loading' pending' st g ce e f :
  sourceContexts st !! g = Some ce → objects st !! ce = Some e →
  counting holders loading pending st →
  (∀ n, (occurrences n loading' + occurrences n (dependencies e) + occurrences n pending =
         occurrences n loading + occurrences n (f (dependencies e)) + occurrences n pending')%nat ∧
        (occurrences n loading ≤ occurrences n loading')%nat) →
  counting holders loading' pending' (set_objects (alter (with_dependencies f) ce) st).
Proof.
  intros Hg He Hinv Hocc. pose proof Hinv as (Hwf & Hlive & Hdead).
  set (st' := set_objects (alter (with_dependencies f) ce) st).
  assert (Hinc : ∀ x, (incoming st' x + occurrences x (dependencies e))%nat =
                      (incoming st x + occurrences x (f (dependencies e)))%nat).
  { intros x. apply (incoming_alter_dependencies st g ce e f x Hg He).
    by apply (counting_injective _ _ _ _ _ _ Hinv). }
  split.
  { intros n r Hn. unfold validRef, st'. simpl. rewrite length_alter. by apply (Hwf n). }
  split.
  - intros n r e' Hn He'. simpl in Hn.
    assert (∃ e0, objects st !! r = Some e0 ∧ grammar e' = grammar e0 ∧
                  refCount e' = refCount e0) as (e0 & He0 & -> & ->).
    { unfold st' in He'. simpl in He'. rewrite list_lookup_alter in He'.
      destruct (decide (ce = r)) as [<-|].
      - rewrite He in He'. injection He' as <-. eauto.
      - eauto. }
    destruct (Hlive _ _ _ Hn He0) as (? & ? & ? & ?).
    destruct (Hocc n). pose proof (Hinc n). repeat split; [done|lia|lia|lia].
  - intros n Hn. simpl in Hn. specialize (Hdead n Hn).
    destruct (Hocc n). pose proof (Hinc n). lia.
Qed.

(** [contextEntry.dependencies.push(depPath)], with the load of [depPath]
    that follows it. *)
Lemma counting_push holders loading pending st g ce depPath :
  sourceContexts st !! g = Some ce →
  counting holders loading pending st →
  counting holders (depPath :: loading) pending
    (set_objects (alter (with_dependencies (λ ds, ds ++ [depPath])) ce) st).
Proof.
  intros Hg Hinv.
  destruct (proj1 (validRef_lookup _ _) (proj1 Hinv _ _ Hg)) as [e He].
  eapply counting_alter_dependencies; [exact Hg | exact He | exact Hinv |].
  intros n. rewrite occurrences_app, !occurrences_cons.
  change (occurrences n []) with 0%nat. lia.
Qed.

(** [contextEntry.dependencies = []], with the releases of the old
    dependencies that follow the loading. *)
Lemma counting_clear holders loading pending st g ce e :
  sourceContexts st !! g = Some ce → objects st !! ce = Some e →
  counting holders loading pending st →
  counting holders loading (dependencies e ++ pending)
    (set_objects (alter (with_dependencies (λ _, [])) ce) st).
Proof.
  intros Hg He Hinv.
  eapply counting_alter_dependencies; [exact Hg | exact He | exact Hinv |].
  intros n. rewrite occurrences_app. change (occurrences n []) with 0%nat. lia.
Qed.

(** The new entry of [loadGrammar], registered with a count of zero. *)
Lemma counting_registered holders x loading pending st :
  sourceContexts st !! x = None →
  counting holders (x :: loading) pending st →
  counting holders (x :: loading) pending (registered x st).
Proof.
  intros Hx (Hwf & Hlive & Hdead).
  assert (Hold : ∀ r, validRef st r → objects (registered x st) !! r = objects st !! r).
  { intros r Hr. simpl. by apply lookup_app_l. }
  assert (Hinc : ∀ n, incoming (registered x st) n = incoming st n).
  { intros n.
    set (st_a := set_objects (λ os, os ++ [{| context := sc_new x; refCount := 0;
                                              dependencies := []; grammar := x |}]) st).
    change (registered x st) with (set_sourceContexts (insert x (length (objects st))) st_a).
    rewrite (incoming_insert st_a x (length (objects st)) n Hx).
    unfold depsAt at 1. simpl. rewrite list_lookup_last. simpl.
    apply incoming_agree; [done|]. intros m r Hm. unfold depsAt.
    change (objects st_a) with (objects (registered x st)).
    by rewrite (Hold r (Hwf _ _ Hm)). }
  split; [by apply registered_grows|]. split.
  - intros n r e Hn He. simpl in Hn. rewrite Hinc.
    apply lookup_insert_Some in Hn as [(<- & <-)|(Hne & Hn)].
    + rewrite registered_lookup in He. injection He as <-. simpl.
      specialize (Hdead x Hx). rewrite occurrences_cons, decide_True in * by done.
      repeat split; lia.
    + rewrite (Hold r (Hwf _ _ Hn)) in He. by apply (Hlive n r e).
  - intros n Hn. simpl in Hn. apply lookup_insert_None in Hn as (Hn & Hne).
    rewrite Hinc. by apply Hdead.
Qed.

Lemma tryDependency_counting load ce g probe depPath otherwise holders loading pending
    st res st' :
  loadCounts load → loadGrows load →
  sourceContexts st !! g = Some ce →
  counting holders loading pending st →
  (otherwise st = Some (res, st') →
     counting holders loading pending st' ∧ sourceContexts st' !! g = Some ce) →
  tryDependency load ce probe depPath otherwise st = Some (res, st') →
  counting holders loading pending st' ∧ sourceContexts st' !! g = Some ce.
Proof.
  intros Hcounts Hgrows Hg Hinv Hother. unfold tryDependency.
  destruct (probe depPath); [|exact Hother].
  intros ([] & st1 & Hupd & Hrest)%op_bind_Some.
  apply op_bind_Some in Hrest as (c & st2 & Hl & [= <- <-]).
  rewrite (updateEntry_run _ _ _ (proj1 Hinv _ _ Hg)) in Hupd. injection Hupd as <-.
  pose proof (counting_push _ _ _ _ _ _ depPath Hg Hinv) as Hinv1.
  split; [by eapply Hcounts|].
  destruct (Hgrows _ _ _ _ _ Hl) as (Hgr & _). by eapply grows_lookup.
Qed.

Lemma resolveDependency_counting load ce g dep holders loading pending st st' :
  loadCounts load → loadGrows load →
  sourceContexts st !! g = Some ce →
  counting holders loading pending st →
  resolveDependency load ce dep st = Some (tt, st') →
  counting holders loading pending st' ∧ sourceContexts st' !! g = Some ce.
Proof.
  intros Hcounts Hgrows Hg Hinv. unfold resolveDependency.
  intros (res & st1 & Hdep & Hrest)%op_bind_Some.
  destruct (loadDependencyWith_grows _ _ _ _ _ _ Hgrows Hdep) as (Hgr & Hres).
  assert (counting holders loading pending st1 ∧ sourceContexts st1 !! g = Some ce)
    as (Hinv1 & Hg1).
  { revert Hdep. unfold loadDependencyWith.
    intros (e & st0 & Hread & Hdep)%op_bind_Some.
    unfold readEntry in Hread. destruct (objects st !! ce); [|done].
    injection Hread as <- <-. revert Hdep.
    repeat (apply tryDependency_counting; [done..|]).
    by intros [= <- <-]. }
  destruct res as [d|]; [|by injection Hrest as <-].
  destruct (contextPair_run st1 sc_addAsReferenceTo ce d) as (st2 & Hrun & Hc);
    [by apply (proj1 Hinv1 g) | by apply Hres |].
  rewrite Hrun in Hrest. injection Hrest as <-.
  split; [by eapply counting_contextsOnly|]. destruct Hc as (_ & -> & _). done.
Qed.

Lemma resolveDependencies_counting load ce g holders loading pending st olds st' :
  loadCounts load → loadGrows load →
  sourceContexts st !! g = Some ce →
  counting holders loading pending st →
  resolveDependencies load ce st = Some (olds, st') →
  counting holders loading (olds ++ pending) st' ∧ sourceContexts st' !! g = Some ce ∧
  olds = depsAt st ce.
Proof.
  intros Hcounts Hgrows Hg Hinv. unfold resolveDependencies.
  intros (e & st1 & Hread & Hrest)%op_bind_Some.
  unfold readEntry in Hread. destruct (objects st !! ce) as [e0|] eqn:He; [|done].
  injection Hread as <- <-.
  assert (Hce : validRef st ce) by (apply validRef_lookup; eauto).
  apply op_bind_Some in Hrest as ([] & st2 & Hupd & Hrest).
  rewrite (updateEntry_run _ _ _ Hce) in Hupd. injection Hupd as <-.
  pose proof (counting_clear _ _ _ _ _ _ _ Hg He Hinv) as Hinv2.
  set (st2 := set_objects _ st) in *.
  assert (Hg2 : sourceContexts st2 !! g = Some ce) by done.
  apply op_bind_Some in Hrest as (names & st3 & Hparse & Hrest).
  assert (Hc3 : contextsOnly st2 st3).
  { unfold contextParse in Hparse.
    apply op_bind_Some in Hparse as (e2 & st2' & Hread & Hparse).
    unfold readEntry in Hread. destruct (objects st2 !! ce) eqn:He2; [|done].
    injection Hread as <- <-.
    apply op_bind_Some in Hparse as ([] & st3' & Hupd & [= _ <-]).
    destruct (updateEntry_context st2 ce (λ c, fst (sc_parse c))) as (? & Hrun & Hc).
    { apply validRef_lookup. eauto. }
    rewrite Hrun in Hupd. by injection Hupd as <-. }
  apply (counting_contextsOnly _ _ _ _ _ Hc3) in Hinv2.
  assert (Hg3 : sourceContexts st3 !! g = Some ce).
  { destruct Hc3 as (_ & -> & _). done. }
  apply op_bind_Some in Hrest as ([] & st4 & Hloop & [= <- <-]).
  unfold depsAt. rewrite He. split; [|split; [|done]].
  all: clear Hparse He Hce Hinv Hg Hg2 Hc3; clearbody st2; revert st3 Hinv2 Hg3 Hloop.
  all: induction names as [|dep names IH]; intros st3 Hinv3 Hg3 Hloop.
  1, 3: by injection Hloop as <-.
  all: simpl in Hloop; apply op_bind_Some in Hloop as ([] & st3' & Hdep & Hloop).
  all: destruct (resolveDependency_counting _ _ _ _ _ _ _ _ _ Hcounts Hgrows Hg3 Hinv3 Hdep)
         as (Hinv3' & Hg3').
  all: by eapply IH.
Qed.

(** Every load that returns settles the count it was to raise. *)
Lemma loadGrammar_counts fuel : loadCounts (loadGrammar fuel).
Proof.
  induction fuel as [|fuel IH];
    intros holders x source loading pending st r st' Hinv Hrun; [done|].
  destruct (sourceContexts st !! x) as [ce|] eqn:Hx.
  - rewrite (loadGrammar_loaded _ _ _ _ _ Hx (proj1 Hinv _ _ Hx)) in Hrun.
    injection Hrun as <- <-. by eapply counting_bump.
  - destruct (loadGrammar_new_steps _ _ _ _ _ _ Hx Hrun)
      as (-> & st1 & st2 & Hc1 & Hres & _ & ->).
    pose proof (counting_registered _ _ _ _ _ Hx Hinv) as Hinv0.
    apply (counting_contextsOnly _ _ _ _ _ Hc1) in Hinv0.
    assert (Hx1 : sourceContexts st1 !! x = Some (length (objects st))).
    { destruct Hc1 as (_ & -> & _). apply lookup_insert_eq. }
    destruct (resolveDependencies_counting _ _ _ _ _ _ _ _ _ IH (loadGrammar_grows fuel)
                Hx1 Hinv0 Hres) as (Hinv2 & Hx2 & _).
    by eapply counting_bump.
Qed.

(** ** Releasing and reparsing keep the counts right (C2, C3) *)

(** The second loop of [parseGrammar]. *)
Lemma releaseEach_counted holders names pending st :
  counted holders (names ++ pending) st →
  ∃ st', forEach names releaseGrammar st = Some (tt, st') ∧
         counted holders pending st' ∧ releaseFrame st st'.
Proof.
  revert st. induction names as [|name names IH]; intros st Hinv.
  - exists st. split; [done|]. split; [done|apply releaseFrame_refl].
  - destruct (releaseGrammar_returns name st (proj1 Hinv)) as (st1 & Hrun & Hf1).
    assert (Hnone : ∀ r, @None ref = Some r → validRef st r) by discriminate.
    destruct (internalReleaseGrammar_counted holders (S (size (sourceContexts st))) name None
                (names ++ pending) st st1 Hinv Hnone Hrun) as (Hinv1 & _).
    destruct (IH st1 Hinv1) as (st2 & Hrest & Hinv2 & Hf2).
    exists st2. split; [|split; [done|by eapply releaseFrame_trans]].
    simpl. by rewrite (op_bind_run _ _ _ _ _ Hrun).
Qed.

Lemma resolvePath_agree st st' e e' depName :
  importDir st' = importDir st → grammar e' = grammar e →
  resolvePath st' e' depName = resolvePath st e depName.
Proof. intros Hi Hg. unfold resolvePath, dependencyCandidates. by rewrite Hi, Hg. Qed.

Lemma omap_agree {A B} (f g : A → option B) (l : list A) :
  (∀ x, f x = g x) → omap f l = omap g l.
Proof.
  intros Hfg. induction l as [|x l IH]; [done|].
  change (omap f (x :: l)) with (match f x with Some y => y :: omap f l | None => omap f l end).
  change (omap g (x :: l)) with (match g x with Some y => y :: omap g l | None => omap g l end).
  by rewrite Hfg, IH.
Qed.

Lemma option_list_app {A} (l : list A) (o : option A) :
  l ++ option_list o = match o with Some x => l ++ [x] | None => l end.
Proof. destruct o; simpl; [done|by rewrite app_nil_r]. Qed.

(** One round of the first loop appends the path it settled on, if any. *)
Lemma resolveDependency_dependencies load ce dep st st' e :
  loadGrows load →
  objects st !! ce = Some e →
  resolveDependency load ce dep st = Some (tt, st') →
  ∃ e', objects st' !! ce = Some e' ∧ grammar e' = grammar e ∧
        importDir st' = importDir st ∧
        dependencies e' = dependencies e ++ option_list (resolvePath st e dep).
Proof.
  intros Hload He Hrun.
  assert (Hce : validRef st ce) by (apply validRef_lookup; eauto).
  pose proof (resolveDependency_grows _ _ _ _ _ Hload Hce Hrun) as (_ & _ & Hi & Ho).
  destruct (Ho _ _ He) as (e' & He' & Hg & _ & _).
  exists e'. split; [done|]. split; [done|]. split; [done|].
  unfold resolveDependency in Hrun.
  apply op_bind_Some in Hrun as (res & st1 & Hdep & Hrest).
  pose proof (loadDependencyWith_recorded _ _ _ _ _ _ _ Hload He Hdep) as Hrec.
  rewrite option_list_app.
  destruct (resolvePath st e dep) as [depPath|].
  - destruct Hrec as (c & -> & Hc & Hd).
    destruct (contextPair_run st1 sc_addAsReferenceTo ce c) as (st2 & Hpair & (Hs & _)).
    { destruct (loadDependencyWith_grows _ _ _ _ _ _ Hload Hdep) as (Hg1 & _).
      by eapply grows_validRef. }
    { destruct (loadDependencyWith_grows _ _ _ _ _ _ Hload Hdep) as (_ & Hres).
      by apply Hres. }
    rewrite Hpair in Hrest. injection Hrest as <-.
    rewrite <- Hd, <- (depsAt_sameShape _ _ ce Hs). unfold depsAt. by rewrite He'.
  - destruct Hrec as (-> & ->). injection Hrest as <-.
    rewrite He in He'. by injection He' as <-.
Qed.

Lemma resolveLoop_dependencies load ce names st st' e :
  loadGrows load →
  objects st !! ce = Some e →
  forEach names (resolveDependency load ce) st = Some (tt, st') →
  depsAt st' ce = dependencies e ++ omap (resolvePath st e) names.
Proof.
  intros Hload. revert st e. induction names as [|dep names IH]; intros st e He Hrun.
  - injection Hrun as <-. unfold depsAt. rewrite He. simpl. by rewrite app_nil_r.
  - simpl in Hrun. apply op_bind_Some in Hrun as ([] & st1 & Hdep & Hrest).
    destruct (resolveDependency_dependencies _ _ _ _ _ _ Hload He Hdep)
      as (e1 & He1 & Hg & Hi & Hd).
    rewrite (IH _ _ He1 Hrest), Hd, <- app_assoc. f_equal.
    rewrite (omap_agree (resolvePath st1 e1) (resolvePath st e) names)
      by (by intros; apply resolvePath_agree).
    simpl. by destruct (resolvePath st e dep).
Qed.

(** After the first loop of [parseGrammar] the dependency list of the entry
    holds the paths settled on for the names of the new parse, in order. *)
Lemma resolveDependencies_dependencies load ce st e olds st1 :
  loadGrows load →
  objects st !! ce = Some e →
  resolveDependencies load ce st = Some (olds, st1) →
  olds = dependencies e ∧
  depsAt st1 ce = omap (resolvePath st e) (snd (sc_parse (context e))).
Proof.
  intros Hload He. unfold resolveDependencies.
  rewrite (op_bind_run _ _ _ _ _ (readEntry_run _ _ _ He)).
  assert (Hce : validRef st ce) by (apply validRef_lookup; eauto).
  rewrite (op_bind_run _ _ _ _ _ (updateEntry_run _ _ (with_dependencies (λ _, [])) Hce)).
  set (st2 := set_objects _ st).
  assert (He2 : objects st2 !! ce = Some (with_dependencies (λ _, []) e)).
  { unfold st2. simpl. by rewrite list_lookup_alter_eq, He. }
  unfold contextParse.
  intros (names & st3 & Hparse & Hrest)%op_bind_Some.
  rewrite (op_bind_run _ _ _ _ _ (readEntry_run _ _ _ He2)) in Hparse.
  assert (Hce2 : validRef st2 ce) by (apply validRef_lookup; eauto).
  rewrite (op_bind_run _ _ _ _ _ (updateEntry_run _ _ (with_context (λ c, fst (sc_parse c))) Hce2))
    in Hparse.
  injection Hparse as <- <-.
  apply op_bind_Some in Hrest as ([] & st4 & Hloop & [= <- <-]).
  split; [done|].
  set (st3 := set_objects _ st2) in *.
  assert (He3 : objects st3 !! ce =
                Some (with_context (λ c, fst (sc_parse c)) (with_dependencies (λ _, []) e))).
  { change (objects st3) with (alter (with_context (λ c, fst (sc_parse c))) ce (objects st2)).
    by rewrite list_lookup_alter_eq, He2. }
  rewrite (resolveLoop_dependencies _ _ _ _ _ _ Hload He3 Hloop). simpl.
  apply omap_agree. intros dep. by apply resolvePath_agree.
Qed.

Lemma consistent_new dir : consistent (λ _, 0%nat) (newAntlrFacade dir).
Proof.
  split; [by intros n r ?|]. split; [by intros n r e ?|].
  intros n _. split; [done|]. unfold incoming. simpl. by rewrite map_to_list_empty.
Qed.

Lemma consistent_lookup holders st d :
  consistent holders st →
  match sourceContexts st !! d with
  | Some r => ∃ e, objects st !! r = Some e ∧ grammar e = d ∧ 0 < refCount e ∧
                   refCount e = Z.of_nat (holders d + incoming st d)
  | None => holders d = 0%nat ∧ ¬ referenced st d
  end.
Proof.
  intros (Hwf & Hlive & Hdead). destruct (sourceContexts st !! d) as [r|] eqn:Hd.
  - destruct (proj1 (validRef_lookup _ _) (Hwf _ _ Hd)) as [e He].
    destruct (Hlive _ _ _ Hd He) as (? & ? & Heq).
    change (occurrences d []) with 0%nat in Heq. exists e. repeat split; [done..|lia].
  - destruct (Hdead d Hd) as (Hh & Hinc). split; [done|].
    intros Href%incoming_pos. lia.
Qed.

(** In a consistent state a grammar that has a holder or is named by a
    dependency list in the map is in the map, with a positive count. *)
Lemma consistent_kept holders st d :
  consistent holders st →
  (0 < holders d)%nat ∨ referenced st d →
  ∃ k, refCountOf st d = Some k ∧ 0 < k.
Proof.
  intros Hinv Hd. pose proof (consistent_lookup _ _ d Hinv) as Hl.
  destruct (sourceContexts st !! d) as [r|] eqn:Hr.
  - destruct Hl as (e & He & _ & Hpos & _). exists (refCount e). split; [|done].
    by eapply refCountOf_lookup.
  - destruct Hl as (Hh & Href). destruct Hd; [lia|done].
Qed.

(** In a consistent state a grammar without holders that no dependency list
    in the map names is not in the map. *)
Lemma consistent_gone holders st d :
  consistent holders st →
  holders d = 0%nat → ¬ referenced st d →
  sourceContexts st !! d = None.
Proof.
  intros Hinv Hh Href. pose proof (consistent_lookup _ _ d Hinv) as Hl.
  destruct (sourceContexts st !! d) as [r|] eqn:Hr; [|done].
  destruct Hl as (e & He & _ & Hpos & Heq).
  assert (incoming st d = 0%nat); [|lia].
  destruct (incoming st d) eqn:Hinc; [done|].
  exfalso. apply Href, incoming_pos. lia.
Qed.

Lemma consistent_release_start holders name st :
  consistent holders st → (0 < holders name)%nat →
  counted (releasedBy holders name) [name] st.
Proof.
  intros (Hwf & Hlive & Hdead) Hheld. split; [done|]. split.
  - intros n r e Hn He. destruct (Hlive n r e Hn He) as (? & ? & Heq).
    split; [done|]. split; [done|]. rewrite Heq, occurrences_cons. unfold releasedBy.
    change (occurrences n []) with 0%nat.
    destruct (decide (n = name)) as [->|].
    + rewrite decide_True by done. lia.
    + rewrite decide_False by done. lia.
  - intros n Hn. destruct (Hdead n Hn) as (Hh & Hinc). split; [|done].
    unfold releasedBy. destruct (decide (n = name)); lia.
Qed.

Lemma consistent_load_start holders name st :
  consistent holders st → counting (loadedBy holders name) [name] [] st.
Proof.
  intros (Hwf & Hlive & Hdead). split; [done|]. split.
  - intros n r e Hn He. destruct (Hlive n r e Hn He) as (? & ? & Heq).
    change (occurrences n []) with 0%nat in Heq.
    rewrite occurrences_cons. unfold loadedBy.
    change (occurrences n []) with 0%nat.
    destruct (decide (name = n)) as [->|Hne].
    + rewrite decide_True by done. repeat split; [done|lia..].
    + rewrite decide_False by congruence. repeat split; [done|lia..].
  - intros n Hn. destruct (Hdead n Hn) as (Hh & Hinc).
    rewrite occurrences_cons. unfold loadedBy. change (occurrences n []) with 0%nat.
    destruct (decide (name = n)) as [->|Hne].
    + rewrite decide_True by done. lia.
    + rewrite decide_False by congruence. lia.
Qed.

(** A load by a caller keeps the counts right. *)
Lemma loadGrammar_consistent holders fuel name source st r st' :
  consistent holders st →
  loadGrammar fuel name source st = Some (r, st') →
  consistent (loadedBy holders name) st'.
Proof.
  intros Hinv Hrun. apply consistent_counting.
  eapply loadGrammar_counts; [|exact Hrun]. by apply consistent_load_start.
Qed.

(** A release by a holder returns and keeps the counts right. *)
Lemma releaseGrammar_consistent holders name st :
  consistent holders st → (0 < holders name)%nat →
  ∃ st', releaseGrammar name st = Some (tt, st') ∧
         consistent (releasedBy holders name) st'.
Proof.
  intros Hinv Hheld.
  pose proof (consistent_release_start _ _ _ Hinv Hheld) as Hstart.
  destruct (releaseEach_counted _ [name] [] st Hstart) as (st' & Hrun & Hinv' & _).
  exists st'. split; [|done].
  simpl in Hrun. apply op_bind_Some in Hrun as ([] & st1 & Hrun & [= <-]). done.
Qed.

(** A reparse keeps the counts right, and returns once its first loop has. *)
Lemma parseGrammar_consistent holders fuel name ce st olds st1 :
  consistent holders st →
  sourceContexts st !! name = Some ce →
  resolveDependencies (loadGrammar fuel) ce st = Some (olds, st1) →
  ∃ st', parseGrammar fuel ce st = Some (tt, st') ∧
         forEach olds releaseGrammar st1 = Some (tt, st') ∧
         consistent holders st' ∧ releaseFrame st1 st'.
Proof.
  intros Hinv Hname Hres.
  apply consistent_counting in Hinv.
  destruct (resolveDependencies_counting _ _ _ _ _ _ _ _ _ (loadGrammar_counts fuel)
              (loadGrammar_grows fuel) Hname Hinv Hres) as (Hinv1 & _ & _).
  apply counting_counted in Hinv1.
  destruct (releaseEach_counted _ _ _ _ Hinv1) as (st' & Hrun & Hinv' & Hf).
  exists st'. split; [|done].
  unfold parseGrammar. rewrite parseGrammarWith_phases.
  by rewrite (op_bind_run _ _ _ _ _ Hres).
Qed.

(** [setText] only changes the text of a context. *)
Lemma setText_consistent holders name source st st' :
  consistent holders st →
  setText name source st = Some (tt, st') →
  consistent holders st'.
Proof.
  intros Hinv. unfold setText, mapGet, op_bind.
  destruct (sourceContexts st !! name) as [ce|] eqn:Hname; [|by intros [= <-]].
  intros Hupd.
  destruct (updateEntry_context st ce (λ c, sc_setText c source) (proj1 Hinv _ _ Hname))
    as (st1 & Hrun & Hc).
  rewrite Hrun in Hupd. injection Hupd as <-. by eapply counted_contextsOnly.
Qed.

(** C2, as amended.  For a name in the map, [releaseGrammar] lowers the
    count of the entry of [name] by one.  If the count does not reach zero
    nothing else changes.  If it reaches zero the entry is removed from the
    map, and then each path of its dependency list is released, recursively.
    When the counts are right before a release by one of the holders of
    [name] (each count is the number of holders of the name and of the times
    the dependency lists in the map name it), they are right after it, so for
    every dependency [d] of the entry: if [d] still has a holder, or a
    dependency list in the map still names it, it is in the map with a
    positive count; if it has no holder and no dependency list in the map
    names it, it is no longer in the map.  Without right counts a dependency
    can be removed while a grammar in the map still names it. *)
Theorem releaseGrammar_counts (name : string) (st : AntlrFacade) (ce : ref)
    (e : ContextEntry) :
  wf st →
  sourceContexts st !! name = Some ce →
  objects st !! ce = Some e →
  (refCount e ≠ 1 →
     releaseGrammar name st = Some (tt, bump (-1) ce st) ∧
     refCountOf (bump (-1) ce st) name = Some (refCount e - 1)) ∧
  (refCount e = 1 →
     ∃ st', releaseGrammar name st = Some (tt, st') ∧
       sourceContexts st' !! name = None ∧
       releaseGrammar name st =
         forEach (dependencies e)
           (λ dep, internalReleaseGrammar (size (sourceContexts st)) dep (Some ce))
           (set_sourceContexts (delete name) (bump (-1) ce st))) ∧
  ∀ holders, consistent holders st → (0 < holders name)%nat →
    ∃ st', releaseGrammar name st = Some (tt, st') ∧
      consistent (releasedBy holders name) st' ∧
      ∀ d, d ∈ dependencies e →
        ((0 < releasedBy holders name d)%nat ∨ referenced st' d →
           ∃ k, refCountOf st' d = Some k ∧ 0 < k) ∧
        (releasedBy holders name d = 0%nat → ¬ referenced st' d →
           sourceContexts st' !! d = None).
Proof.
  intros Hwf Hname He. split; [|split].
  - intros Hrc. split; [by eapply releaseGrammar_kept|].
    assert (He' : objects (bump (-1) ce st) !! ce = Some (with_refCount (λ n, n + -1) e)).
    { rewrite bump_lookup, decide_True, He by done. done. }
    rewrite (refCountOf_lookup (bump (-1) ce st) name ce _ Hname He'). simpl. f_equal.
  - intros Hrc.
    destruct (releaseGrammar_removed _ _ _ _ Hwf Hname He Hrc)
      as (st' & Hrun & Hgone & Heq & _).
    exists st'. done.
  - intros holders Hinv Hheld.
    destruct (releaseGrammar_consistent _ _ _ Hinv Hheld) as (st' & Hrun & Hinv').
    exists st'. split; [done|]. split; [done|].
    intros d _. split.
    + by apply consistent_kept.
    + by apply consistent_gone.
Qed.

Lemma releaseEach_returns names st :
  wf st →
  ∃ st', forEach names releaseGrammar st = Some (tt, st') ∧ releaseFrame st st'.
Proof.
  revert st. induction names as [|name names IH]; intros st Hwf.
  - exists st. split; [done|apply releaseFrame_refl].
  - destruct (releaseGrammar_returns name st Hwf) as (st1 & Hrun & Hf1).
    destruct (IH st1) as (st2 & Hrest & Hf2); [by eapply releaseFrame_wf|].
    exists st2. split; [|by eapply releaseFrame_trans].
    simpl. by rewrite (op_bind_run _ _ _ _ _ Hrun).
Qed.

(** C3, as amended.  A reparse of a loaded grammar first resolves the names
    of the new parse, loading every grammar it finds for them, and then
    releases each path of the previous dependency list exactly once, in order;
    it returns once the resolving has.  Afterwards the dependency list of the
    entry holds the paths found for the names of the new parse and nothing
    else.  When the counts were right before, they are right again: every
    count is the number of holders plus the number of times the dependency
    lists in the map name the grammar, so a count has changed by what these
    lists have gained or lost.  An old dependency that still has a holder or
    is still named by a list in the map stays with a positive count; one that
    has neither is no longer in the map. *)
Theorem reparse_dependencies (fuel : nat) (name : string) (st st1 : AntlrFacade)
    (ce : ref) (e : ContextEntry) (olds : list string) :
  wf st →
  sourceContexts st !! name = Some ce →
  objects st !! ce = Some e →
  resolveDependencies (loadGrammar fuel) ce st = Some (olds, st1) →
  ∃ st',
    reparse fuel name st = Some (tt, st') ∧
    olds = dependencies e ∧
    forEach olds releaseGrammar st1 = Some (tt, st') ∧
    depsAt st' ce = omap (resolvePath st e) (snd (sc_parse (context e))) ∧
    ∀ holders, consistent holders st →
      consistent holders st' ∧
      (∀ d k k', refCountOf st d = Some k → refCountOf st' d = Some k' →
         k' - k = Z.of_nat (incoming st' d) - Z.of_nat (incoming st d)) ∧
      ∀ d, d ∈ olds →
        ((0 < holders d)%nat ∨ referenced st' d →
           ∃ k, refCountOf st' d = Some k ∧ 0 < k) ∧
        (holders d = 0%nat → ¬ referenced st' d → sourceContexts st' !! d = None).
Proof.
  intros Hwf Hname He Hres.
  destruct (resolveDependencies_grows _ _ _ _ _ (loadGrammar_grows fuel) Hres)
    as ((Hwf1 & _ & _ & Ho) & _).
  destruct (releaseEach_returns olds st1 (Hwf1 Hwf)) as (st' & Hrel & Hf).
  destruct (resolveDependencies_dependencies _ _ _ _ _ _ (loadGrammar_grows fuel) He Hres)
    as (Holds & Hdeps).
  exists st'. split.
  { unfold reparse, mapGet, op_bind. rewrite Hname.
    unfold parseGrammar. rewrite parseGrammarWith_phases.
    by rewrite (op_bind_run _ _ _ _ _ Hres). }
  split; [done|]. split; [done|]. split.
  { rewrite <- Hdeps. unfold depsAt.
    destruct (Ho _ _ He) as (e1 & He1 & _).
    destruct Hf as (_ & _ & _ & Ho'). destruct (Ho' _ _ He1) as (e' & He' & Hd & _).
    by rewrite He', He1. }
  intros holders Hinv.
  destruct (parseGrammar_consistent _ _ _ _ _ _ _ Hinv Hname Hres)
    as (st'' & _ & Hrel' & Hinv' & _).
  rewrite Hrel in Hrel'. injection Hrel' as <-.
  split; [done|]. split.
  - intros d k k' Hk Hk'.
    destruct (refCountOf_Some _ _ _ Hk) as (r & e0 & Hr & He0 & <-).
    destruct (refCountOf_Some _ _ _ Hk') as (r' & e0' & Hr' & He0' & <-).
    pose proof (consistent_lookup _ _ d Hinv) as Hl. rewrite Hr in Hl.
    destruct Hl as (x & Hx & _ & _ & Heq). rewrite He0 in Hx. injection Hx as <-.
    pose proof (consistent_lookup _ _ d Hinv') as Hl'. rewrite Hr' in Hl'.
    destruct Hl' as (x' & Hx' & _ & _ & Heq'). rewrite He0' in Hx'. injection Hx' as <-.
    lia.
  - intros d _. split.
    + by apply consistent_kept.
    + by apply consistent_gone.
Qed.

End Properties.

(** * Further properties *)

Section FurtherProperties.
Context `{NodeEnv} `{SourceContextApi}.

(** ** Termination of loads *)

Lemma op_bind_mono {S A B} (m m' : StateOp S A) (k k' : A → StateOp S B) st r :
  (∀ st r, m st = Some r → m' st = Some r) →
  (∀ a st r, k a st = Some r → k' a st = Some r) →
  op_bind m k st = Some r → op_bind m' k' st = Some r.
Proof.
  intros Hm Hk (a & st1 & Hrun & Hrest)%op_bind_Some.
  apply op_bind_Some. exists a, st1. split; [apply Hm, Hrun|apply Hk, Hrest].
Qed.

Lemma tryDependency_mono load load' ce probe depPath otherwise otherwise' st r :
  extends load load' →
  (otherwise st = Some r → otherwise' st = Some r) →
  tryDependency load ce probe depPath otherwise st = Some r →
  tryDependency load' ce probe depPath otherwise' st = Some r.
Proof.
  intros Hl Ho. unfold tryDependency. destruct (probe depPath); [|exact Ho].
  apply op_bind_mono; [done|]. intros _ st1 r1.
  apply op_bind_mono; [apply Hl|done].
Qed.

Lemma loadDependencyWith_mono load load' ce depName st r :
  extends load load' →
  loadDependencyWith load ce depName st = Some r →
  loadDependencyWith load' ce depName st = Some r.
Proof.
  intros Hl. unfold loadDependencyWith. apply op_bind_mono; [done|].
  intros e st1 r1. repeat (apply tryDependency_mono; [exact Hl|]). done.
Qed.

Lemma parseGrammarWith_mono load load' ce st r :
  extends load load' →
  parseGrammarWith load ce st = Some r → parseGrammarWith load' ce st = Some r.
Proof.
  intros Hl. unfold parseGrammarWith. apply op_bind_mono; [done|].
  intros e st1 r1. apply op_bind_mono; [done|].
  intros _ st2 r2. apply op_bind_mono; [done|].
  intros names st3 r3. apply op_bind_mono; [|done].
  intros st4 r4. apply forEach_mono. intros dep st5 r5.
  apply op_bind_mono; [|done]. intros st6 r6. apply loadDependencyWith_mono, Hl.
Qed.

(** A larger bound on the depth of the recursion gives the same result. *)
Lemma loadGrammar_fuel fuel fuel' :
  (fuel ≤ fuel')%nat → extends (loadGrammar fuel) (loadGrammar fuel').
Proof.
  revert fuel'. induction fuel as [|fuel IH]; intros fuel' Hle x source st r Hrun; [done|].
  destruct fuel' as [|fuel']; [lia|]. simpl in *.
  revert Hrun. apply op_bind_mono; [done|]. intros found st1 r1.
  apply op_bind_mono; [|done]. intros st2 r2.
  destruct found as [ce|]; [done|].
  apply op_bind_mono; [done|]. intros ce st3 r3.
  apply op_bind_mono; [done|]. intros _ st4 r4.
  apply op_bind_mono; [done|]. intros _ st5 r5.
  apply op_bind_mono; [|done]. intros st6 r6.
  apply parseGrammarWith_mono, IH. lia.
Qed.

Lemma missing_mono files st st' :
  sourceContexts st ⊆ sourceContexts st' → (missing files st' ≤ missing files st)%nat.
Proof.
  intros Hsub. apply subseteq_size.
  pose proof (subseteq_dom _ _ Hsub) as Hdom.
  intros x [Hx Hn]%elem_of_difference. apply elem_of_difference.
  split; [done|]. intros Hd. apply Hn, Hdom, Hd.
Qed.

Lemma missing_registered files p st :
  p ∈ files → sourceContexts st !! p = None →
  (missing files (registered p st) < missing files st)%nat.
Proof.
  intros Hp Hnone. apply subset_size. unfold registered. simpl. rewrite dom_insert.
  assert (Hdom : p ∉ dom (sourceContexts st)) by by apply not_elem_of_dom.
  split.
  - intros x [Hx Hn]%elem_of_difference. apply elem_of_difference.
    split; [done|]. intros Hd. apply Hn, elem_of_union. by right.
  - intros Hsub. specialize (Hsub p). rewrite !elem_of_difference in Hsub.
    destruct Hsub as (_ & Hn); [done|]. apply Hn, elem_of_union. left.
    by apply elem_of_singleton.
Qed.

Lemma alter_wf f ce st : wf st → wf (set_objects (alter f ce) st).
Proof. intros Hwf n r Hn. unfold validRef. simpl. rewrite length_alter. by eapply Hwf. Qed.

Lemma contextParse_run ce st :
  validRef st ce →
  ∃ e st', objects st !! ce = Some e ∧
    contextParse ce st = Some (snd (sc_parse (context e)), st') ∧ contextsOnly st st'.
Proof.
  intros Hce. destruct (proj1 (validRef_lookup _ _) Hce) as [e He].
  destruct (updateEntry_context st ce (λ c, fst (sc_parse c)) Hce) as (st' & Hu & Hc).
  exists e, st'. split; [done|]. split; [|done]. unfold contextParse.
  rewrite (op_bind_run _ _ _ _ _ (readEntry_run _ _ _ He)).
  by rewrite (op_bind_run _ _ _ _ _ Hu).
Qed.

Lemma imports_agree st st' e e' :
  importDir st' = importDir st → grammar e' = grammar e → context e' = context e →
  imports st' e' = imports st e.
Proof.
  intros Hi Hg Hc. unfold imports. rewrite Hc.
  apply omap_agree. intros dep. by apply resolvePath_agree.
Qed.

Lemma imports_resolved st e dep p :
  dep ∈ snd (sc_parse (context e)) → resolvePath st e dep = Some p → p ∈ imports st e.
Proof. intros Hdep Hp. apply list_elem_of_omap. by exists dep. Qed.

Section Finite.
Variable dir : string.
Variable files : gset string.
Hypothesis Hfiles : importClosed dir files.

Lemma resolveDependency_returns bound load ce e dep st :
  loadGrows load → loadReturns dir files bound load →
  objects st !! ce = Some e → wf st → importDir st = dir →
  (∀ p, resolvePath st e dep = Some p → p ∈ files) →
  (missing files st < bound)%nat →
  ∃ st', resolveDependency load ce dep st = Some (tt, st') ∧ grows (λ r, r ≠ ce) st st'.
Proof.
  intros Hg Hret He Hwf Hdir Hin Hm.
  assert (Hce : validRef st ce) by (apply validRef_lookup; eauto).
  assert (∃ st', resolveDependency load ce dep st = Some (tt, st')) as (st' & Hrun).
  { unfold resolveDependency. unfold op_bind at 1.
    rewrite (loadDependencyWith_candidates _ _ _ _ _ He).
    destruct (resolvePath st e dep) as [p|] eqn:Hp; [|by eexists].
    rewrite (op_bind_run _ _ _ _ _ (updateEntry_run _ _ _ Hce)).
    set (st1 := set_objects _ st).
    destruct (Hret p st1) as (r & st2 & Hload).
    { by apply Hin. }
    { apply alter_wf, Hwf. }
    { exact Hdir. }
    { exact Hm. }
    rewrite (op_bind_run _ _ _ _ _ Hload). simpl.
    destruct (Hg _ _ _ _ _ Hload) as (Hg2 & _ & Hr).
    destruct (contextPair_run st2 sc_addAsReferenceTo ce r) as (st3 & Hpair & _);
      [|exact Hr|by exists st3].
    eapply grows_validRef; [exact Hg2|]. unfold validRef, st1. simpl.
    by rewrite length_alter. }
  exists st'. split; [exact Hrun|]. eapply resolveDependency_grows; eassumption.
Qed.

Lemma resolveLoop_returns bound load ce names st :
  loadGrows load → loadReturns dir files bound load →
  validRef st ce → wf st → importDir st = dir →
  (∀ e dep p, objects st !! ce = Some e → dep ∈ names →
     resolvePath st e dep = Some p → p ∈ files) →
  (missing files st < bound)%nat →
  ∃ st', forEach names (resolveDependency load ce) st = Some (tt, st') ∧
         grows (λ r, r ≠ ce) st st'.
Proof.
  intros Hg Hret. revert st.
  induction names as [|dep names IH]; intros st Hce Hwf Hdir Hin Hm.
  - exists st. split; [done|apply grows_refl].
  - destruct (proj1 (validRef_lookup _ _) Hce) as [e He].
    destruct (resolveDependency_returns bound load ce e dep st) as (st1 & Hrun & Hg1);
      [done..| |done|].
    { intros p. apply (Hin e); [done|by left]. }
    destruct (IH st1) as (st2 & Hrun2 & Hg2).
    { eapply grows_validRef; eassumption. }
    { by apply Hg1. }
    { destruct Hg1 as (_ & _ & -> & _). exact Hdir. }
    { intros e1 dep' p He1 Hdep' Hp. apply (Hin e dep'); [done|by right|].
      destruct Hg1 as (_ & _ & Hdir1 & Hobj).
      destruct (Hobj _ _ He) as (e1' & He1' & Hgr & _).
      rewrite He1 in He1'. injection He1' as <-.
      by rewrite <- (resolvePath_agree st st1 e e1 dep'). }
    { eapply Nat.le_lt_trans; [apply missing_mono, Hg1|exact Hm]. }
    exists st2. split; [|eapply grows_trans; eassumption].
    simpl. by rewrite (op_bind_run _ _ _ _ _ Hrun).
Qed.

(** [parseGrammar] returns when the loads it makes do. *)
Lemma parseGrammarWith_returns bound load ce e st :
  loadGrows load → loadReturns dir files bound load →
  objects st !! ce = Some e → wf st → importDir st = dir →
  (∀ d, d ∈ imports st e → d ∈ files) →
  (missing files st < bound)%nat →
  ∃ st', parseGrammarWith load ce st = Some (tt, st') ∧ wf st' ∧ validRef st' ce.
Proof.
  intros Hg Hret He Hwf Hdir Hin Hm.
  assert (Hce : validRef st ce) by (apply validRef_lookup; eauto).
  rewrite parseGrammarWith_phases.
  assert (∃ st1, resolveDependencies load ce st = Some (dependencies e, st1) ∧
                 wf st1 ∧ validRef st1 ce) as (st1 & Hres & Hwf1 & Hce1).
  { unfold resolveDependencies.
    rewrite (op_bind_run _ _ _ _ _ (readEntry_run _ _ _ He)).
    rewrite (op_bind_run _ _ _ _ _ (updateEntry_run _ _ _ Hce)).
    set (st0 := set_objects _ st).
    assert (Hce0 : validRef st0 ce) by (unfold validRef, st0; simpl; by rewrite length_alter).
    assert (Hwf0 : wf st0) by apply alter_wf, Hwf.
    destruct (contextParse_run ce st0 Hce0) as (e0 & st0' & He0 & Hparse & Hc).
    assert (He0' : e0 = with_dependencies (λ _, []) e).
    { unfold st0 in He0. simpl in He0. rewrite list_lookup_alter_eq, He in He0.
      simpl in He0. by injection He0 as <-. }
    rewrite (op_bind_run _ _ _ _ _ Hparse).
    destruct (resolveLoop_returns bound load ce (snd (sc_parse (context e0))) st0')
      as (st1 & Hloop & Hg1); [done|done|..].
    { by apply (contextsOnly_validRef _ _ _ Hc). }
    { by eapply contextsOnly_wf. }
    { destruct Hc as (_ & _ & ->). exact Hdir. }
    { intros e1 dep p He1 Hdep Hp. apply Hin.
      apply (imports_resolved st e dep); [by rewrite He0' in Hdep|].
      rewrite <- Hp. symmetry. apply resolvePath_agree.
      - by destruct Hc as (_ & _ & ->).
      - destruct Hc as (Hshape & _).
        assert (Hs : shape <$> objects st0' !! ce = shape <$> objects st0 !! ce)
          by (by rewrite <- !list_lookup_fmap, Hshape).
        rewrite He1, He0 in Hs. simpl in Hs. injection Hs as _ _ Hgr.
        rewrite Hgr, He0'. done. }
    { destruct Hc as (_ & Hmap & _). unfold missing. rewrite Hmap. exact Hm. }
    rewrite (op_bind_run _ _ _ _ _ Hloop). exists st1. split; [done|].
    split; [apply Hg1; by eapply contextsOnly_wf|].
    eapply grows_validRef; [exact Hg1|]. by apply (contextsOnly_validRef _ _ _ Hc). }
  rewrite (op_bind_run _ _ _ _ _ Hres).
  destruct (releaseEach_returns (dependencies e) st1 Hwf1) as (st' & Hrel & Hf).
  exists st'. split; [exact Hrel|]. split; [by eapply releaseFrame_wf|].
  by eapply releaseFrame_validRef.
Qed.

Lemma loadGrammar_new_returns bound fuel p source st :
  loadReturns dir files bound (loadGrammar fuel) →
  sourceContexts st !! p = None → wf st → importDir st = dir →
  (∀ d, d ∈ imports st (loadedEntry p source) → d ∈ files) →
  (missing files (registered p st) < bound)%nat →
  ∃ r st', loadGrammar (S fuel) p source st = Some (r, st').
Proof.
  intros IH Hp Hwf Hdir Hin Hm.
  rewrite (loadGrammar_new _ _ _ _ Hp).
  pose proof (registered_lookup p st) as He0.
  pose proof (registered_grows p st Hp) as Hg0.
  set (ce := length (objects st)) in *. set (st0 := registered p st) in *.
  assert (Hce0 : validRef st0 ce) by (apply validRef_lookup; eauto).
  assert (Hwf0 : wf st0) by by apply Hg0.
  destruct (updateEntry_context st0 ce (λ c, sc_setText c (initialSource p source)) Hce0)
    as (st1 & Hrun1 & Hc1).
  rewrite (op_bind_run _ _ _ _ _ Hrun1).
  assert (He1 : objects st1 !! ce = Some (loadedEntry p source)).
  { rewrite (updateEntry_run _ _ _ Hce0) in Hrun1. injection Hrun1 as <-.
    change (alter (with_context (λ c, sc_setText c (initialSource p source))) ce
              (objects st0) !! ce = Some (loadedEntry p source)).
    by rewrite list_lookup_alter_eq, He0. }
  destruct (parseGrammarWith_returns bound (loadGrammar fuel) ce (loadedEntry p source) st1)
    as (st2 & Hrun2 & Hwf2 & Hce2); [apply loadGrammar_grows|exact IH|exact He1|..].
  { by eapply contextsOnly_wf. }
  { destruct Hc1 as (_ & _ & ->). exact Hdir. }
  { intros d Hd. apply Hin.
    rewrite <- (imports_agree st st1 (loadedEntry p source) (loadedEntry p source));
      [done|by destruct Hc1 as (_ & _ & ->)|done..]. }
  { destruct Hc1 as (_ & Hmap & _). unfold missing. rewrite Hmap. exact Hm. }
  rewrite (op_bind_run _ _ _ _ _ Hrun2).
  rewrite (op_bind_run _ _ _ _ _ (updateEntry_run _ _ _ Hce2)). by eexists _, _.
Qed.

(** A load of one of the files returns when the bound on the depth of the
    recursion is above the number of files that are not in the map. *)
Lemma loadGrammar_returns fuel : loadReturns dir files fuel (loadGrammar fuel).
Proof.
  induction fuel as [|fuel IH]; intros p st Hp Hwf Hdir Hm; [lia|].
  destruct (sourceContexts st !! p) as [ce|] eqn:Hmap.
  - rewrite (loadGrammar_loaded _ _ _ _ _ Hmap); [by eexists _, _|]. by eapply Hwf.
  - apply (loadGrammar_new_returns fuel); [exact IH|done..| |].
    + intros d Hd. apply (Hfiles p d Hp).
      rewrite (imports_agree st (newAntlrFacade dir) (loadedEntry p None)
                 (loadedEntry p None)); [done|by rewrite Hdir|done..].
    + pose proof (missing_registered files p st Hp Hmap). lia.
Qed.

End Finite.

(** X1.  [loadGrammar] terminates when the files it can come to are finitely
    many, import cycles included.  Let [files] be a finite set of paths that
    holds the paths the initial text of the grammar leads to and, for each of
    its files, the paths the text of that file leads to.  Then a load of the
    grammar returns in every well-formed state, for every bound on the depth
    of the recursion that exceeds the number of these files not yet in the
    map by more than one, and a larger bound gives the same result.  The
    grammar is in the map afterwards, and no name was removed from the map. *)
Theorem loadGrammar_terminates (files : gset string) (fuel : nat) (name : string)
    (source : option string) (st : AntlrFacade) :
  importClosed (importDir st) files →
  (∀ d, d ∈ imports st (loadedEntry name source) → d ∈ files) →
  wf st → (missing files st + 1 < fuel)%nat →
  ∃ r st', loadGrammar fuel name source st = Some (r, st') ∧
    (∀ fuel', (fuel ≤ fuel')%nat → loadGrammar fuel' name source st = Some (r, st')) ∧
    wf st' ∧ sourceContexts st' !! name = Some r ∧
    sourceContexts st ⊆ sourceContexts st'.
Proof.
  intros Hfiles Hroot Hwf Hfuel.
  assert (∃ r st', loadGrammar fuel name source st = Some (r, st')) as (r & st' & Hrun).
  { destruct fuel as [|fuel]; [lia|].
    destruct (sourceContexts st !! name) as [ce|] eqn:Hmap.
    - rewrite (loadGrammar_loaded _ _ _ _ _ Hmap); [by eexists _, _|]. by eapply Hwf.
    - apply (loadGrammar_new_returns (importDir st) files fuel); [|done..|].
      + apply loadGrammar_returns, Hfiles.
      + pose proof (missing_mono files st (registered name st)) as Hle.
        unfold registered in Hle at 1. simpl in Hle.
        specialize (Hle (insert_subseteq _ _ _ Hmap)). lia. }
  exists r, st'. split; [exact Hrun|]. split.
  { intros fuel' Hle. by eapply loadGrammar_fuel. }
  destruct (loadGrammar_grows fuel _ _ _ _ _ Hrun) as ((Hwf' & Hsub & _) & Hname & _).
  split_and!; [by apply Hwf'|done|done].
Qed.

(** X2.  [reparse] terminates when the files it can come to are finitely
    many.  Let [files] be a finite set of paths that holds the paths the
    current text of the grammar leads to and, for each of its files, the paths
    the text of that file leads to.  Then in every well-formed state [reparse]
    returns for every bound on the depth of the recursion above the number of
    these files not in the map, and a larger bound gives the same result.  For
    a name that is not in the map it returns at once and changes nothing. *)
Theorem reparse_terminates (files : gset string) (fuel : nat) (name : string)
    (st : AntlrFacade) :
  importClosed (importDir st) files →
  (∀ ce e d, sourceContexts st !! name = Some ce → objects st !! ce = Some e →
     d ∈ imports st e → d ∈ files) →
  wf st → (missing files st < fuel)%nat →
  (∃ st', reparse fuel name st = Some (tt, st') ∧
     (∀ fuel', (fuel ≤ fuel')%nat → reparse fuel' name st = Some (tt, st')) ∧
     wf st') ∧
  (sourceContexts st !! name = None → reparse fuel name st = Some (tt, st)).
Proof.
  intros Hfiles Hroot Hwf Hfuel.
  assert (Habsent : sourceContexts st !! name = None → reparse fuel name st = Some (tt, st)).
  { intros Hmap. unfold reparse, mapGet, op_bind. by rewrite Hmap. }
  split; [|exact Habsent].
  destruct (sourceContexts st !! name) as [ce|] eqn:Hmap.
  - assert (Hloaded : ∀ fuel', reparse fuel' name st = parseGrammarWith (loadGrammar fuel') ce st).
    { intros fuel'. unfold reparse, mapGet, op_bind. by rewrite Hmap. }
    destruct (proj1 (validRef_lookup st ce)) as [e He]; [by eapply Hwf|].
    destruct (parseGrammarWith_returns (importDir st) files fuel (loadGrammar fuel) ce e st)
      as (st' & Hrun & Hwf' & _);
      [apply loadGrammar_grows|by apply loadGrammar_returns|done..| |done|].
    { intros d. by apply (Hroot ce e d). }
    exists st'. rewrite Hloaded. split; [exact Hrun|]. split; [|done].
    intros fuel' Hle. rewrite Hloaded.
    eapply parseGrammarWith_mono; [|exact Hrun]. by apply loadGrammar_fuel.
  - exists st. split; [by apply Habsent|]. split; [|done].
    intros fuel' _. unfold reparse, mapGet, op_bind. by rewrite Hmap.
Qed.

(** ** Gathering dependencies: cycles *)

Lemma reaches_trans st a b c : reaches st a b → reaches st b c → reaches st a c.
Proof.
  induction 1 as [r e d r' He Hd Hm|r e d r' x He Hd Hm _ IH]; intros Hbc.
  - eapply reaches_step; eassumption.
  - eapply reaches_step; [eassumption..|]. by apply IH.
Qed.

Lemma cyclicFrom_step st r :
  cyclicFrom st r →
  ∃ e d r', objects st !! r = Some e ∧ d ∈ dependencies e ∧
            sourceContexts st !! d = Some r' ∧ cyclicFrom st r'.
Proof.
  intros (x & [->|Hrx] & Hxx).
  - inversion Hxx as [? e d r' He Hd Hm|? e d r' ? He Hd Hm Hr']; subst.
    + exists e, d, r. split_and!; [done..|]. exists r. split; [by left|done].
    + exists e, d, r'. split_and!; [done..|]. exists r. split; [by right|done].
  - inversion Hrx as [? e d r' He Hd Hm|? e d r' ? He Hd Hm Hr']; subst.
    + exists e, d, x. split_and!; [done..|]. exists x. split; [by left|done].
    + exists e, d, r'. split_and!; [done..|]. exists x. split; [by right|done].
Qed.

Lemma cyclicFrom_back st r e d r' :
  objects st !! r = Some e → d ∈ dependencies e → sourceContexts st !! d = Some r' →
  cyclicFrom st r' → cyclicFrom st r.
Proof.
  intros He Hd Hm (x & Hx & Hxx). exists x. split; [|done]. right.
  destruct Hx as [->|Hx]; [by eapply reaches_direct|by eapply reaches_step].
Qed.

(** The body of the loop of [pushDependencyFiles] leaves the state alone. *)
Lemma pushDependencyFiles_body_state fuel contexts dep st contexts' st' :
  (do depEntry <- mapGet dep;
   match depEntry with
   | Some de =>
     do contexts' <- pushDependencyFiles fuel de contexts;
     op_ret (setAdd de contexts')
   | None => op_ret contexts
   end) st = Some (contexts', st') → st' = st.
Proof.
  unfold mapGet at 1, op_bind at 1.
  destruct (sourceContexts st !! dep) as [de|]; [|by intros [= _ <-]].
  intros (cs & st1 & Hpush & [= _ <-])%op_bind_Some.
  by apply pushDependencyFiles_spec in Hpush as (-> & _).
Qed.

(** [pushDependencyFiles] does not return from an entry whose dependencies
    lead into a cycle, whatever the bound on the depth of the recursion. *)
Lemma pushDependencyFiles_cycle fuel entry contexts st :
  cyclicFrom st entry → pushDependencyFiles fuel entry contexts st = None.
Proof.
  revert entry contexts. induction fuel as [|fuel IH]; intros entry contexts Hc; [done|].
  destruct (cyclicFrom_step _ _ Hc) as (e & d & r' & He & Hd & Hm & Hc').
  simpl. rewrite (op_bind_run _ _ _ _ _ (readEntry_run _ _ _ He)).
  clear He Hc. revert contexts. induction (dependencies e) as [|x xs IHx]; intros contexts.
  { by apply elem_of_nil in Hd. }
  simpl. unfold op_bind at 1.
  match goal with |- match ?b st with _ => _ end = _ => destruct (b st) as [[cs st1]|] eqn:Hb end;
    [|done].
  pose proof (pushDependencyFiles_body_state _ _ _ _ _ _ Hb) as ->.
  apply elem_of_cons in Hd as [<-|Hd]; [|by apply IHx].
  exfalso. revert Hb. unfold mapGet at 1, op_bind at 1. rewrite Hm.
  unfold op_bind at 1. by rewrite IH.
Qed.

(** ** Gathering dependencies: termination *)

Lemma NoDup_bounded (l : list nat) (n : nat) :
  NoDup l → (∀ x, x ∈ l → (x < n)%nat) → (length l ≤ n)%nat.
Proof.
  intros Hnd Hlt. rewrite <- (length_seq n 0). apply submseteq_length.
  apply NoDup_submseteq; [done|]. intros x Hx. apply elem_of_seq. specialize (Hlt x Hx). lia.
Qed.

(** [path] holds the entries the recursion is in; with no cycle they are all
    different, so there are no more of them than objects. *)
Lemma pushDependencyFiles_acyclic fuel path entry contexts st :
  wf st → validRef st entry → ¬ cyclicFrom st entry →
  NoDup path → (∀ x, x ∈ path → validRef st x ∧ reaches st x entry) →
  (length (objects st) < fuel + length path)%nat →
  ∃ contexts', pushDependencyFiles fuel entry contexts st = Some (contexts', st).
Proof.
  intros Hwf. revert path entry contexts.
  induction fuel as [|fuel IH]; intros path entry contexts Hentry Hac Hnd Hpath Hfuel.
  all: assert (Hnew : entry ∉ path)
    by (intros Hin; apply Hac; exists entry; split; [by left|by apply Hpath]).
  - assert (length (entry :: path) ≤ length (objects st))%nat; [|simpl in *; lia].
    apply NoDup_bounded; [by constructor|].
    intros x [->|Hx]%elem_of_cons; [done|by apply Hpath].
  - destruct (proj1 (validRef_lookup _ _) Hentry) as [e He].
    simpl. rewrite (op_bind_run _ _ _ _ _ (readEntry_run _ _ _ He)).
    assert (Hdeps : ∀ d, d ∈ dependencies e → d ∈ dependencies e) by done.
    revert contexts Hdeps. generalize (dependencies e) at 1 3.
    intros l. induction l as [|d l IHl]; intros contexts Hdeps; [by eexists|].
    simpl. unfold op_bind at 1, mapGet at 1, op_bind at 1.
    destruct (sourceContexts st !! d) as [de|] eqn:Hd.
    + destruct (IH (entry :: path) de contexts) as (cs & Hrun).
      * by eapply Hwf.
      * intros Hc. apply Hac. eapply cyclicFrom_back; [done| |done..].
        apply Hdeps. by left.
      * by constructor.
      * intros x [->|Hx]%elem_of_cons.
        { split; [done|]. eapply reaches_direct; [done| |done]. apply Hdeps. by left. }
        { split; [by apply Hpath|]. eapply reaches_trans; [by apply Hpath|].
          eapply reaches_direct; [done| |done]. apply Hdeps. by left. }
      * simpl. lia.
      * unfold op_bind at 1. rewrite Hrun. simpl. apply IHl.
        intros d' Hd'. apply Hdeps. by right.
    + simpl. apply IHl. intros d' Hd'. apply Hdeps. by right.
Qed.

(** The names [getDependencies] returns for the contexts it gathered. *)
Lemma getDependencies_names `{!SourceContextFile} deps result st :
  (∀ d, d ∈ deps → validRef st d) →
  ∃ names,
    foldOp deps result (λ result dep,
      do d <- readEntry dep;
      op_ret (result ++ [sc_fileName (context d)])) st = Some (result ++ names, st) ∧
    Forall2 (λ r n, ∃ e, objects st !! r = Some e ∧ n = sc_fileName (context e)) deps names.
Proof.
  revert result. induction deps as [|d deps IH]; intros result Hvalid.
  - exists []. by rewrite app_nil_r.
  - destruct (proj1 (validRef_lookup st d)) as [e He]; [apply Hvalid; by left|].
    destruct (IH (result ++ [sc_fileName (context e)])) as (names & Hrun & Hall).
    { intros d' Hd'. apply Hvalid. by right. }
    exists (sc_fileName (context e) :: names). split; [|constructor; eauto].
    simpl. rewrite (op_bind_run _ _ _ _ _ (op_bind_run _ _ _ _ _ (readEntry_run _ _ _ He))).
    rewrite Hrun. by rewrite <- app_assoc.
Qed.

Lemma getDependencies_run `{!SourceContextFile} fuel name st ce deps :
  wf st → sourceContexts st !! name = Some ce →
  pushDependencyFiles fuel ce [] st = Some (deps, st) →
  ∃ names, getDependencies fuel name st = Some (names, st) ∧
    Forall2 (λ r n, ∃ e, objects st !! r = Some e ∧ n = sc_fileName (context e)) deps names.
Proof.
  intros Hwf Hname Hpush.
  destruct (getDependencies_names deps [] st) as (names & Hrun & Hall).
  { intros d Hd. eapply reaches_validRef; [done|].
    apply pushDependencyFiles_spec in Hpush as (_ & _ & _ & Hiff).
    apply Hiff in Hd as [Hd|Hd]; [by apply elem_of_nil in Hd|exact Hd]. }
  exists names. split; [|done]. unfold getDependencies.
  unfold mapGet at 1, op_bind at 1. rewrite Hname.
  by rewrite (op_bind_run _ _ _ _ _ Hpush).
Qed.

Lemma Forall2_NoDup_keys {A B} (R : A → B → Prop) (key : B → option A) l k :
  Forall2 R l k → (∀ a b, a ∈ l → R a b → key b = Some a) → NoDup l → NoDup k.
Proof.
  induction 1 as [|a b l k Hab Hall IH]; intros Hkey Hnd; [constructor|].
  apply NoDup_cons in Hnd as (Ha & Hnd). constructor.
  - intros (i & Hi)%list_elem_of_lookup_1.
    destruct (Forall2_lookup_r _ _ _ _ _ Hall Hi) as (a' & Hi' & Hab').
    apply list_elem_of_lookup_2 in Hi'.
    assert (key b = Some a') as Hb by (apply Hkey; [by right|done]).
    rewrite (Hkey a b) in Hb; [|by left|done]. by injection Hb as ->.
  - apply IH; [|done]. intros a' b' Ha'. apply Hkey. by right.
Qed.

Lemma reaches_mapped st r x : reaches st r x → ∃ d, sourceContexts st !! d = Some x.
Proof. induction 1; eauto. Qed.

Lemma getContext_loaded fuel name source st ce :
  sourceContexts st !! name = Some ce → getContext fuel name source st = Some (ce, st).
Proof. intros Hname. unfold getContext, mapGet, op_bind. by rewrite Hname. Qed.

Lemma mapGetSome_run name st ce :
  sourceContexts st !! name = Some ce → mapGetSome name st = Some (ce, st).
Proof. intros Hname. unfold mapGetSome, mapGet, op_bind. by rewrite Hname. Qed.

(** With no cycle behind an entry the gathering returns. *)
Lemma gathering_returns fuel entry st :
  wf st → validRef st entry → ¬ cyclicFrom st entry →
  (length (objects st) < fuel)%nat →
  ∃ deps, pushDependencyFiles fuel entry [] st = Some (deps, st).
Proof.
  intros Hwf Hentry Hac Hfuel.
  apply (pushDependencyFiles_acyclic fuel []); [done..|constructor| |simpl; lia].
  intros x Hx. by apply elem_of_nil in Hx.
Qed.

(** With a cycle behind the grammar the three gathering queries do not
    return. *)
Lemma gathering_diverges fuel name st context st1 :
  getContext fuel name None st = Some (context, st1) →
  cyclicFrom st1 context →
  (∀ options, generate fuel name options st = None) ∧
  (∀ rule options, generateSentence fuel name rule options st = None) ∧
  (∀ actionFile dataDir, createDebugger fuel name actionFile dataDir st = None).
Proof.
  intros Hget Hc.
  destruct (getContext_registered _ _ _ _ _ _ Hget) as (Hname & _).
  assert (Hpush : ∀ fuel' contexts, pushDependencyFiles fuel' context contexts st1 = None).
  { intros fuel' contexts. by apply pushDependencyFiles_cycle. }
  split_and!.
  - intros options. unfold generate.
    rewrite (op_bind_run _ _ _ _ _ Hget).
    rewrite (op_bind_run _ _ _ _ _ (mapGetSome_run _ _ _ Hname)).
    unfold op_bind. by rewrite Hpush.
  - intros rule options. unfold generateSentence.
    rewrite (op_bind_run _ _ _ _ _ Hget).
    rewrite (op_bind_run _ _ _ _ _ (mapGetSome_run _ _ _ Hname)).
    unfold op_bind at 1. by rewrite Hpush.
  - intros actionFile dataDir. unfold createDebugger.
    rewrite (op_bind_run _ _ _ _ _ Hget).
    rewrite (op_bind_run _ _ _ _ _ (mapGetSome_run _ _ _ Hname)).
    unfold op_bind at 1. by rewrite Hpush.
Qed.

(** X3.  Gathering the dependencies of a grammar whose dependency paths lead
    into an import cycle never returns, whatever the bound on the depth of the
    recursion: [pushDependencyFiles] recurses into an entry before it adds it
    to the set.  So [getDependencies], [generate], [generateSentence] and
    [createDebugger] do not return for such a grammar. *)
Theorem dependency_cycle_diverges `{!SourceContextFile} (fuel : nat) (name : string)
    (ce : ref) (st : AntlrFacade) :
  sourceContexts st !! name = Some ce → cyclicFrom st ce →
  (∀ fuel' contexts, pushDependencyFiles fuel' ce contexts st = None) ∧
  getDependencies fuel name st = None ∧
  (∀ options, generate fuel name options st = None) ∧
  (∀ rule options, generateSentence fuel name rule options st = None) ∧
  (∀ actionFile dataDir, createDebugger fuel name actionFile dataDir st = None).
Proof.
  intros Hname Hc.
  assert (Hpush : ∀ fuel' contexts, pushDependencyFiles fuel' ce contexts st = None).
  { intros fuel' contexts. by apply pushDependencyFiles_cycle. }
  split; [exact Hpush|]. split_and!.
  - unfold getDependencies, mapGet, op_bind at 1. rewrite Hname.
    unfold op_bind. by rewrite Hpush.
  - intros options. unfold generate.
    rewrite (op_bind_run _ _ _ _ _ (getContext_loaded _ _ _ _ _ Hname)).
    rewrite (op_bind_run _ _ _ _ _ (mapGetSome_run _ _ _ Hname)).
    unfold op_bind. by rewrite Hpush.
  - intros rule options. unfold generateSentence.
    rewrite (op_bind_run _ _ _ _ _ (getContext_loaded _ _ _ _ _ Hname)).
    rewrite (op_bind_run _ _ _ _ _ (mapGetSome_run _ _ _ Hname)).
    unfold op_bind at 1. by rewrite Hpush.
  - intros actionFile dataDir. unfold createDebugger.
    rewrite (op_bind_run _ _ _ _ _ (getContext_loaded _ _ _ _ _ Hname)).
    rewrite (op_bind_run _ _ _ _ _ (mapGetSome_run _ _ _ Hname)).
    unfold op_bind at 1. by rewrite Hpush.
Qed.

Lemma foldOp_mono {A B} (xs : list A) (acc : B) (f g : B → A → Op B) st r :
  (∀ acc x st r, f acc x st = Some r → g acc x st = Some r) →
  foldOp xs acc f st = Some r → foldOp xs acc g st = Some r.
Proof.
  intros Hfg. revert acc st r. induction xs as [|x xs IH]; intros acc st r; [done|].
  simpl. apply op_bind_mono; [apply Hfg|]. intros acc' st1 r1. apply IH.
Qed.

(** A larger bound on the depth of the recursion gives the same set. *)
Lemma pushDependencyFiles_fuel fuel fuel' entry contexts st r :
  (fuel ≤ fuel')%nat →
  pushDependencyFiles fuel entry contexts st = Some r →
  pushDependencyFiles fuel' entry contexts st = Some r.
Proof.
  revert fuel' entry contexts st r.
  induction fuel as [|fuel IH]; intros fuel' entry contexts st r Hle; [done|].
  destruct fuel' as [|fuel']; [lia|]. simpl.
  apply op_bind_mono; [done|]. intros e st1 r1. apply foldOp_mono.
  intros acc dep st2 r2. apply op_bind_mono; [done|]. intros [de|] st3 r3; [|done].
  apply op_bind_mono; [|done]. intros st4 r4. apply IH. lia.
Qed.

(** Dependency paths that lead to entries of a lower rank lead into no
    cycle. *)
Lemma ranked_acyclic (rank : ref → nat) st :
  (∀ r e d r', objects st !! r = Some e → d ∈ dependencies e →
     sourceContexts st !! d = Some r' → (rank r' < rank r)%nat) →
  ∀ r, ¬ cyclicFrom st r.
Proof.
  intros Hrank.
  assert (Hlt : ∀ x y, reaches st x y → (rank y < rank x)%nat).
  { induction 1 as [r e d r' He Hd Hm|r e d r' y He Hd Hm _ IH].
    - by eapply Hrank.
    - specialize (Hrank _ _ _ _ He Hd Hm). lia. }
  intros r (x & _ & Hxx). specialize (Hlt _ _ Hxx). lia.
Qed.

(** X4.  Gathering the dependencies of a loaded grammar whose dependency paths
    lead into no cycle terminates: in a well-formed state
    [pushDependencyFiles] returns for every bound on the depth of the
    recursion above the number of entry objects, with the same set for every
    such bound, and leaves the state as it was; [getDependencies] and
    [generate] then return without changing the state, and [generateSentence]
    and [createDebugger] return. *)
Theorem dependency_gathering_terminates `{!SourceContextFile} (fuel : nat) (name : string)
    (ce : ref) (st : AntlrFacade) :
  wf st → sourceContexts st !! name = Some ce → ¬ cyclicFrom st ce →
  (length (objects st) < fuel)%nat →
  (∀ contexts, ∃ contexts',
     pushDependencyFiles fuel ce contexts st = Some (contexts', st) ∧
     ∀ fuel', (fuel ≤ fuel')%nat →
       pushDependencyFiles fuel' ce contexts st = Some (contexts', st)) ∧
  (∃ names, getDependencies fuel name st = Some (names, st)) ∧
  (∀ options, ∃ call, generate fuel name options st = Some ((ce, call), st)) ∧
  (∀ rule options, ∃ outcome st', generateSentence fuel name rule options st =
     Some (outcome, st')) ∧
  (∀ actionFile dataDir, ∃ result st', createDebugger fuel name actionFile dataDir st =
     Some (result, st')).
Proof.
  intros Hwf Hname Hac Hfuel.
  assert (Hpush : ∀ contexts, ∃ contexts',
            pushDependencyFiles fuel ce contexts st = Some (contexts', st)).
  { intros contexts. apply (pushDependencyFiles_acyclic fuel []); [done|by eapply Hwf|done|..].
    - constructor.
    - intros x Hx. by apply elem_of_nil in Hx.
    - simpl. lia. }
  split.
  { intros contexts. destruct (Hpush contexts) as (contexts' & Hrun).
    exists contexts'. split; [exact Hrun|]. intros fuel' Hle.
    by eapply pushDependencyFiles_fuel. }
  destruct (Hpush []) as (deps & Hdeps).
  destruct (gathering_queries_run fuel name st ce st deps Hwf
              (getContext_loaded _ _ _ _ _ Hname) Hdeps) as (_ & _ & Hgen & Hsen & Hdbg).
  split_and!.
  - destruct (getDependencies_run fuel name st ce deps) as (names & Hrun & _); eauto.
  - intros options. eexists. apply Hgen.
  - intros rule options. destruct (Hsen rule options) as (st2 & Hrun). eauto.
  - intros actionFile dataDir. destruct (Hdbg actionFile dataDir) as (? & st2 & Hrun & _).
    eauto.
Qed.

Lemma getDependencies_paths `{!SourceContextFile} fuel name st ce deps :
  wf st → sourceContexts st !! name = Some ce →
  pushDependencyFiles fuel ce [] st = Some (deps, st) →
  ∃ names, getDependencies fuel name st = Some (names, st) ∧
    Forall2 (λ r n, ∃ e, objects st !! r = Some e ∧ n = sc_fileName (context e))
      deps names ∧
    (∀ options, generate fuel name options st =
       Some ((ce, Call_generate deps options), st)) ∧
    ((∀ n r e, sourceContexts st !! n = Some r → objects st !! r = Some e →
        sc_fileName (context e) = n) →
     NoDup names ∧
     ∀ p, p ∈ names ↔ ∃ r, sourceContexts st !! p = Some r ∧ reaches st ce r).
Proof.
  intros Hwf Hname Hpush.
  destruct (getDependencies_run fuel name st ce deps Hwf Hname Hpush) as (names & Hrun & Hall).
  destruct (gathering_queries_run fuel name st ce st deps Hwf
              (getContext_loaded _ _ _ _ _ Hname) Hpush) as (Hnd & Hiff & Hgen & _).
  exists names. split_and!; [done..|]. intros Hfile.
  assert (Hkey : ∀ r n, r ∈ deps →
            (∃ e, objects st !! r = Some e ∧ n = sc_fileName (context e)) →
            sourceContexts st !! n = Some r).
  { intros r n Hr (e & He & ->). apply Hiff, reaches_mapped in Hr as (d & Hd).
    by rewrite (Hfile _ _ _ Hd He). }
  split.
  - eapply (Forall2_NoDup_keys _ (λ n, sourceContexts st !! n)); eassumption.
  - intros p. split.
    + intros (i & Hi)%list_elem_of_lookup_1.
      destruct (Forall2_lookup_r _ _ _ _ _ Hall Hi) as (r & Hir & Hrn).
      exists r. apply list_elem_of_lookup_2 in Hir.
      split; [by apply Hkey|by apply Hiff].
    + intros (r & Hp & Hr). apply Hiff in Hr.
      apply list_elem_of_lookup_1 in Hr as (i & Hi).
      destruct (Forall2_lookup_l _ _ _ _ _ Hall Hi) as (n & Hin & Hrn).
      destruct Hrn as (e & He & ->). rewrite (Hfile _ _ _ Hp He) in Hin.
      by eapply list_elem_of_lookup_2.
Qed.

(** X5.  [getDependencies] returns the empty list for a file name that is not
    in the map, without loading it.  For a loaded grammar whose dependency
    paths lead into an import cycle it does not return.  For a loaded grammar
    whose dependency paths lead into no cycle it returns, in the order they
    were gathered, the file names of the contexts that [generate] hands to the
    context, and changes nothing; when every context in the map carries the
    file name it is registered under, these are, each once, the paths in the
    map whose entries the dependency lists lead to. *)
Theorem getDependencies_closure `{!SourceContextFile} (fuel : nat) (name : string)
    (st : AntlrFacade) :
  (sourceContexts st !! name = None → getDependencies fuel name st = Some ([], st)) ∧
  ∀ ce, wf st → sourceContexts st !! name = Some ce →
    (cyclicFrom st ce → getDependencies fuel name st = None) ∧
    (¬ cyclicFrom st ce → (length (objects st) < fuel)%nat →
     ∃ deps names,
       pushDependencyFiles fuel ce [] st = Some (deps, st) ∧
       getDependencies fuel name st = Some (names, st) ∧
       Forall2 (λ r n, ∃ e, objects st !! r = Some e ∧ n = sc_fileName (context e))
         deps names ∧
       (∀ options, generate fuel name options st =
          Some ((ce, Call_generate deps options), st)) ∧
       ((∀ n r e, sourceContexts st !! n = Some r → objects st !! r = Some e →
           sc_fileName (context e) = n) →
        NoDup names ∧
        ∀ p, p ∈ names ↔ ∃ r, sourceContexts st !! p = Some r ∧ reaches st ce r)).
Proof.
  split.
  { intros Hname. unfold getDependencies, mapGet, op_bind. by rewrite Hname. }
  intros ce Hwf Hname. split.
  - intros Hc. unfold getDependencies, mapGet, op_bind at 1. rewrite Hname.
    unfold op_bind. by rewrite (pushDependencyFiles_cycle _ _ _ _ Hc).
  - intros Hac Hfuel.
    destruct (gathering_returns fuel ce st) as (deps & Hpush); [done|by eapply Hwf|done..|].
    destruct (getDependencies_paths fuel name st ce deps Hwf Hname Hpush)
      as (names & Hrun & Hall & Hgen & Hpaths).
    by exists deps, names.
Qed.

(** ** The loop over the gathered contexts *)

Lemma beforeErrors_subset st contexts r : r ∈ beforeErrors st contexts → r ∈ contexts.
Proof.
  induction contexts as [|d cs IH]; simpl; [done|].
  destruct (hasErrorsAt st d); [by intros ?%elem_of_nil|].
  intros [->|Hr]%elem_of_cons; [by left|right; by apply IH].
Qed.

Lemma beforeErrors_agree st st' contexts :
  (∀ d, d ∈ contexts → objects st' !! d = objects st !! d) →
  beforeErrors st' contexts = beforeErrors st contexts.
Proof.
  induction contexts as [|d cs IH]; intros Hsame; [done|]. simpl.
  unfold hasErrorsAt at 1 2. rewrite Hsame by by left.
  destruct (match objects st !! d with Some e => _ | None => _ end); [done|].
  f_equal. apply IH. intros x Hx. apply Hsame. by right.
Qed.

Lemma beforeErrors_all st contexts :
  existsb (hasErrorsAt st) contexts = false → beforeErrors st contexts = contexts.
Proof.
  induction contexts as [|d cs IH]; simpl; [done|].
  destruct (hasErrorsAt st d); [done|]. simpl. intros Hcs. f_equal. by apply IH.
Qed.

(** What the loop does to the state: it sets up the interpreters of the
    contexts in front of the first one with errors, and nothing else. *)
Lemma prepareInterpreters_effect dataDir contexts st :
  NoDup contexts →
  (∀ d, d ∈ contexts → validRef st d) →
  ∃ st2, prepareInterpreters dataDir contexts st =
           Some (negb (existsb (hasErrorsAt st) contexts), st2) ∧
         sourceContexts st2 = sourceContexts st ∧ importDir st2 = importDir st ∧
         ∀ r, objects st2 !! r =
                if decide (r ∈ beforeErrors st contexts)
                then prepared dataDir <$> objects st !! r
                else objects st !! r.
Proof.
  revert st. induction contexts as [|d cs IH]; intros st Hnd Hvalid.
  - exists st. split_and!; [done..|]. intros r. rewrite decide_False; [done|].
    by intros ?%elem_of_nil.
  - apply NoDup_cons in Hnd as (Hd & Hnd).
    assert (Hdv : validRef st d) by (apply Hvalid; left).
    destruct (proj1 (validRef_lookup _ _) Hdv) as [e He].
    assert (Hh : sc_hasErrors (context e) = hasErrorsAt st d)
      by (unfold hasErrorsAt; by rewrite He).
    simpl. rewrite (op_bind_run _ _ _ _ _ (readEntry_run _ _ _ He)). rewrite Hh.
    destruct (hasErrorsAt st d) eqn:Herr.
    { exists st. split_and!; [done..|]. intros r. rewrite decide_False; [done|].
      by intros ?%elem_of_nil. }
    assert (∃ st1, (if sc_isInterpreterDataLoaded (context e) then op_ret tt
                    else updateEntry d (with_context (λ c, sc_setupInterpreters c dataDir))) st
                   = Some (tt, st1) ∧ contextsOnly st st1 ∧
                   objects st1 !! d = Some (prepared dataDir e) ∧
                   ∀ r, r ≠ d → objects st1 !! r = objects st !! r)
      as (st1 & Hrun & Hc & Hd1 & Hsame).
    { unfold prepared. destruct (sc_isInterpreterDataLoaded (context e)).
      - exists st. split; [done|]. split; [apply contextsOnly_refl|done].
      - destruct (updateEntry_context st d (λ c, sc_setupInterpreters c dataDir) Hdv)
          as (st1 & Hrun & Hc).
        exists st1. split; [done|]. split; [done|].
        rewrite (updateEntry_run _ _ _ Hdv) in Hrun. injection Hrun as <-.
        split; [simpl; by rewrite list_lookup_alter_eq, He|].
        intros r Hr. simpl. by rewrite list_lookup_alter_ne. }
    rewrite (op_bind_run _ _ _ _ _ Hrun).
    destruct (IH st1 Hnd) as (st2 & Hrest & Hmap2 & Hdir2 & Hobj2).
    { intros x Hx. apply (contextsOnly_validRef _ _ _ Hc), Hvalid. by right. }
    assert (Hcs : ∀ x, x ∈ cs → objects st1 !! x = objects st !! x).
    { intros x Hx. apply Hsame. by intros ->. }
    exists st2. split_and!.
    + rewrite Hrest. simpl. do 3 f_equal. apply existsb_agree.
      intros x Hx. unfold hasErrorsAt. by rewrite Hcs.
    + rewrite Hmap2. apply Hc.
    + rewrite Hdir2. apply Hc.
    + intros r. rewrite Hobj2, (beforeErrors_agree st st1 cs Hcs).
      destruct (decide (r = d)) as [->|Hr].
      * rewrite decide_False by (intros Hin; by apply beforeErrors_subset in Hin).
        rewrite decide_True by by left. by rewrite Hd1, He.
      * rewrite (Hsame r Hr).
        destruct (decide (r ∈ beforeErrors st cs)) as [Hin|Hin].
        { rewrite decide_True; [done|by right]. }
        { rewrite decide_False; [done|]. by intros [?|?]%elem_of_cons. }
Qed.

(** Contexts that the entry does not reach stay in front of the set. *)
Lemma pushDependencyFiles_prefix fuel entry pre contexts st contexts' :
  pushDependencyFiles fuel entry contexts st = Some (contexts', st) →
  (∀ x, x ∈ pre → ¬ reaches st entry x) →
  pushDependencyFiles fuel entry (pre ++ contexts) st = Some (pre ++ contexts', st).
Proof.
  revert entry contexts contexts'.
  induction fuel as [|fuel IH]; intros entry contexts contexts' Hrun Hpre; [done|].
  simpl in Hrun. apply op_bind_Some in Hrun as (e & st1 & Hread & Hrun).
  unfold readEntry in Hread. destruct (objects st !! entry) as [e0|] eqn:He; [|done].
  injection Hread as <- <-.
  change (pushDependencyFiles (S fuel) entry (pre ++ contexts) st) with
    ((do e <- readEntry entry;
      foldOp (dependencies e) (pre ++ contexts) (λ contexts dep,
        do depEntry <- mapGet dep;
        match depEntry with
        | Some de =>
          do contexts' <- pushDependencyFiles fuel de contexts;
          op_ret (setAdd de contexts')
        | None => op_ret contexts
        end)) st).
  rewrite (op_bind_run _ _ _ _ _ (readEntry_run _ _ _ He)).
  assert (Hdeps : ∀ d, d ∈ dependencies e0 → d ∈ dependencies e0) by done.
  revert contexts contexts' Hrun Hdeps. generalize (dependencies e0) at 1 2 4.
  intros l. induction l as [|d l IHl]; intros cs cs' Hrun Hdeps.
  { by injection Hrun as <-. }
  simpl in *. apply op_bind_Some in Hrun as (csA & stA & Hd & Hrest).
  pose proof (pushDependencyFiles_body_state _ _ _ _ _ _ Hd) as ->.
  assert ((do depEntry <- mapGet d;
           match depEntry with
           | Some de =>
             do contexts' <- pushDependencyFiles fuel de (pre ++ cs);
             op_ret (setAdd de contexts')
           | None => op_ret (pre ++ cs)
           end) st = Some (pre ++ csA, st)) as Hd2.
  { revert Hd. unfold mapGet at 1 2, op_bind at 1 3.
    destruct (sourceContexts st !! d) as [de|] eqn:Hde; [|by intros [= <-]].
    intros (cs0 & st0 & Hpush & [= <- ->])%op_bind_Some.
    assert (Hreach : reaches st entry de).
    { eapply reaches_direct; [done| |done]. apply Hdeps. by left. }
    rewrite (op_bind_run _ _ _ _ _ (IH _ _ _ Hpush
      (λ x Hx Hr, Hpre x Hx (reaches_trans _ _ _ _ Hreach Hr)))).
    unfold op_ret, setAdd. do 2 f_equal.
    destruct (decide (de ∈ cs0)) as [Hin|Hin].
    - rewrite decide_True; [done|]. apply elem_of_app. by right.
    - rewrite decide_False; [by rewrite app_assoc|].
      intros [Hin'|Hin']%elem_of_app; [by eapply Hpre|done]. }
  rewrite (op_bind_run _ _ _ _ _ Hd2). apply IHl; [done|].
  intros d' Hd'. apply Hdeps. by right.
Qed.

(** [createDebugger], once the context lookup and the gathering have
    returned: the contexts are the context of the grammar followed by the
    contexts [generate] hands on. *)
Lemma createDebugger_run fuel name actionFile dataDir st st1 context deps :
  wf st →
  getContext fuel name None st = Some (context, st1) →
  pushDependencyFiles fuel context [] st1 = Some (deps, st1) →
  (context ∉ deps) ∧ NoDup (context :: deps) ∧
  (∀ d, d ∈ context :: deps → validRef st1 d) ∧
  createDebugger fuel name actionFile dataDir st =
    (do ready <- prepareInterpreters dataDir (context :: deps);
     if ready : bool then op_ret (Some (context :: deps, actionFile)) else op_ret None) st1.
Proof.
  intros Hwf Hget Hpush.
  destruct (getContext_registered _ _ _ _ _ _ Hget) as (Hname & Hwf1).
  specialize (Hwf1 Hwf).
  destruct (gathering_queries_run _ _ _ _ _ _ Hwf Hget Hpush) as (Hnd & Hin & _).
  assert (Hown : context ∉ deps).
  { intros Hc%Hin. assert (cyclicFrom st1 context) as Hcyc by (exists context; auto).
    by rewrite (pushDependencyFiles_cycle _ _ _ _ Hcyc) in Hpush. }
  split; [exact Hown|]. split; [by constructor|]. split.
  { intros d [->|Hd]%elem_of_cons; [by eapply Hwf1|].
    eapply reaches_validRef; [done|]. by apply Hin. }
  unfold createDebugger.
  rewrite (op_bind_run _ _ _ _ _ Hget), (op_bind_run _ _ _ _ _ (mapGetSome_run _ _ _ Hname)).
  change (setAdd context []) with ([context] ++ []).
  rewrite (op_bind_run _ _ _ _ _ (pushDependencyFiles_prefix _ _ [context] _ _ _ Hpush
    (λ x Hx Hr, Hown (proj2 (Hin _)
       (eq_ind _ (λ y, reaches st1 context y) Hr _ (proj1 (list_elem_of_singleton _ _) Hx)))))).
  reflexivity.
Qed.

(** What [createDebugger] returns once the gathering has returned. *)
Lemma createDebugger_outcome fuel name actionFile dataDir st st1 context deps :
  wf st →
  getContext fuel name None st = Some (context, st1) →
  pushDependencyFiles fuel context [] st1 = Some (deps, st1) →
  ∃ st2, createDebugger fuel name actionFile dataDir st =
    Some (if hasErrorsAt st1 context || existsb (hasErrorsAt st1) deps then None
          else Some (context :: deps, actionFile), st2).
Proof.
  intros Hwf Hget Hpush.
  destruct (createDebugger_run fuel name actionFile dataDir _ _ _ _ Hwf Hget Hpush)
    as (Hown & Hnd & Hvalid & Hrun).
  destruct (prepareInterpreters_run dataDir (context :: deps) st1 Hnd Hvalid)
    as (st2 & Hloop & _).
  exists st2. rewrite Hrun, (op_bind_run _ _ _ _ _ Hloop). simpl.
  by destruct (hasErrorsAt st1 context || existsb (hasErrorsAt st1) deps).
Qed.

Lemma getContext_validRef fuel name st context st1 :
  wf st → getContext fuel name None st = Some (context, st1) → validRef st1 context.
Proof.
  intros Hwf Hget. destruct (getContext_registered _ _ _ _ _ _ Hget) as (Hname & Hwf1).
  by eapply (Hwf1 Hwf).
Qed.

(** ** Which queries forward the dependency contexts (C4) *)

(** C4, as amended.  Once the context of the grammar is found,
    [getDiagnostics] and [countReferences] do not gather anything: like the
    single-file query [symbolInfoAtPosition] they only call the context of the
    grammar, with no dependency contexts.  [generate], [generateSentence] and
    [createDebugger] gather the contexts reached from the grammar through the
    dependency lists of the loaded entries.  When these lists lead into an
    import cycle the gathering never returns, whatever the bound on the depth
    of the recursion, and nothing is handed on.  When they lead into no cycle
    the gathering returns the reached contexts depth first (a context comes
    after the contexts it reaches) and each context once, and exactly these
    are handed on: by [generate] always, by [generateSentence] unless one of
    them has errors (the callback then gets the error message), and by
    [createDebugger], behind the context of the grammar itself, unless one of
    them or the context of the grammar has errors (it then returns
    [undefined]). *)
Theorem queries_forwarding (fuel : nat) (name : string) (st st1 : AntlrFacade)
    (context : ref) :
  wf st →
  getContext fuel name None st = Some (context, st1) →
  (getDiagnostics fuel name st = Some ((context, Call_getDiagnostics), st1) ∧
   forwardedDependencies Call_getDiagnostics = [] ∧
   (∀ symbol, countReferences fuel name symbol st =
      Some ((context, Call_getReferenceCount symbol), st1) ∧
      forwardedDependencies (Call_getReferenceCount symbol) = []) ∧
   (∀ column row limitToChildren,
      symbolInfoAtPosition fuel name column row limitToChildren st =
        Some ((context, Call_symbolAtPosition column row limitToChildren), st1) ∧
      forwardedDependencies (Call_symbolAtPosition column row limitToChildren) = [])) ∧
  (cyclicFrom st1 context →
     (∀ fuel' contexts, pushDependencyFiles fuel' context contexts st1 = None) ∧
     (∀ options, generate fuel name options st = None) ∧
     (∀ rule options, generateSentence fuel name rule options st = None) ∧
     (∀ actionFile dataDir, createDebugger fuel name actionFile dataDir st = None)) ∧
  (¬ cyclicFrom st1 context → (length (objects st1) < fuel)%nat →
     ∃ deps,
       pushDependencyFiles fuel context [] st1 = Some (deps, st1) ∧
       NoDup deps ∧ (∀ x, x ∈ deps ↔ reaches st1 context x) ∧
       dependenciesFirst st1 deps ∧
       (∀ options, generate fuel name options st =
          Some ((context, Call_generate deps options), st1)) ∧
       (∀ rule options, ∃ st2,
          generateSentence fuel name rule options st =
            Some (if existsb (hasErrorsAt st1) deps
                  then Callback "[Fix grammar errors first]" 0
                  else Generated context (Call_generateSentence deps rule options),
                  st2)) ∧
       (∀ actionFile dataDir, ∃ st2,
          createDebugger fuel name actionFile dataDir st =
            Some (if hasErrorsAt st1 context || existsb (hasErrorsAt st1) deps
                  then None
                  else Some (context :: deps, actionFile), st2))).
Proof.
  intros Hwf Hget.
  assert (Hfwd : ∀ call, forward fuel name call st = Some ((context, call), st1)).
  { intros call. unfold forward. by rewrite (op_bind_run _ _ _ _ _ Hget). }
  split; [|split].
  - split; [apply Hfwd|]. split; [done|]. split.
    + intros symbol. split; [apply Hfwd|done].
    + intros column row limitToChildren. split; [apply Hfwd|done].
  - intros Hc. split.
    + intros fuel' contexts. by apply pushDependencyFiles_cycle.
    + by apply (gathering_diverges fuel name st context st1).
  - intros Hac Hfuel.
    destruct (gathering_returns fuel context st1) as (deps & Hpush);
      [by eapply getContext_registered|by eapply getContext_validRef|done..|].
    destruct (gathering_queries_run _ _ _ _ _ _ Hwf Hget Hpush)
      as (Hnd & Hin & Hgen & Hsent & _).
    exists deps. split; [exact Hpush|]. split; [exact Hnd|]. split; [exact Hin|]. split.
    { apply (pushDependencyFiles_order _ _ _ _ _ _ Hpush).
      intros l1 x l2 y Heq. by destruct l1. }
    split; [exact Hgen|]. split; [exact Hsent|].
    intros actionFile dataDir. by eapply createDebugger_outcome.
Qed.

(** ** Sentence generation with erroneous dependencies (C10) *)

(** C10, as amended.  Once the context of the grammar is found:  when the
    dependency lists behind the grammar lead into an import cycle,
    [generateSentence] never returns and the callback is not called.  When
    they lead into no cycle it returns, for every bound on the depth of the
    recursion above the number of entry objects.  If one of the contexts the
    grammar reaches through the dependency lists has errors, all it does with
    the callback is one call with the sentence "[Fix grammar errors first]"
    and the index 0, and the context is not asked to generate anything.  If
    none has, the callback goes to the context of the grammar together with
    the gathered contexts, whether or not that context has errors itself. *)
Theorem generateSentence_errors (fuel : nat) (name rule : string)
    (options : SentenceGenerationOptions) (st st1 : AntlrFacade) (context : ref) :
  wf st →
  getContext fuel name None st = Some (context, st1) →
  (cyclicFrom st1 context → generateSentence fuel name rule options st = None) ∧
  (¬ cyclicFrom st1 context → (length (objects st1) < fuel)%nat →
   ∃ deps st2,
     pushDependencyFiles fuel context [] st1 = Some (deps, st1) ∧
     (∀ x, x ∈ deps ↔ reaches st1 context x) ∧
     generateSentence fuel name rule options st =
       Some (if existsb (hasErrorsAt st1) deps
             then Callback "[Fix grammar errors first]" 0
             else Generated context (Call_generateSentence deps rule options), st2) ∧
     ((∃ d, reaches st1 context d ∧ hasErrorsAt st1 d = true) →
        generateSentence fuel name rule options st =
          Some (Callback "[Fix grammar errors first]" 0, st2)) ∧
     ((∀ d, reaches st1 context d → hasErrorsAt st1 d = false) →
        generateSentence fuel name rule options st =
          Some (Generated context (Call_generateSentence deps rule options), st2))).
Proof.
  intros Hwf Hget. split.
  { intros Hc. by apply (gathering_diverges fuel name st context st1). }
  intros Hac Hfuel.
  destruct (gathering_returns fuel context st1) as (deps & Hpush);
    [by eapply getContext_registered|by eapply getContext_validRef|done..|].
  destruct (gathering_queries_run _ _ _ _ _ _ Hwf Hget Hpush) as (_ & Hin & _ & Hsent & _).
  destruct (Hsent rule options) as (st2 & Hrun).
  exists deps, st2. split; [exact Hpush|]. split; [exact Hin|]. split; [exact Hrun|]. split.
  - intros (d & Hd & Herr). rewrite Hrun.
    replace (existsb (hasErrorsAt st1) deps) with true; [done|].
    symmetry. apply existsb_exists. exists d.
    split; [by apply list_elem_of_In, Hin|done].
  - intros Hnone. rewrite Hrun.
    replace (existsb (hasErrorsAt st1) deps) with false; [done|].
    symmetry. apply not_true_is_false. intros (d & Hd & Herr)%existsb_exists.
    apply list_elem_of_In, Hin in Hd. rewrite (Hnone d Hd) in Herr. done.
Qed.

(** ** Debugging and the interpreters *)

(** X8.  Once the context of the grammar is found, and the dependency lists
    behind the grammar lead into no import cycle, [createDebugger] gives the
    debugger the context of the grammar followed by the dependency contexts
    [generate] hands on, in the same order, and it returns [undefined] exactly
    when one of these contexts, the one of the grammar itself included, has
    errors. *)
Theorem createDebugger_errors (fuel : nat) (name actionFile dataDir : string)
    (st st1 : AntlrFacade) (context : ref) :
  wf st →
  getContext fuel name None st = Some (context, st1) →
  ¬ cyclicFrom st1 context → (length (objects st1) < fuel)%nat →
  ∃ deps,
    pushDependencyFiles fuel context [] st1 = Some (deps, st1) ∧
    (context ∉ deps) ∧
    (∀ options, generate fuel name options st =
       Some ((context, Call_generate deps options), st1)) ∧
    ∃ st2,
      createDebugger fuel name actionFile dataDir st =
        Some (if hasErrorsAt st1 context || existsb (hasErrorsAt st1) deps then None
              else Some (context :: deps, actionFile), st2) ∧
      (hasErrorsAt st1 context = true ∨ (∃ d, d ∈ deps ∧ hasErrorsAt st1 d = true) ↔
       createDebugger fuel name actionFile dataDir st = Some (None, st2)).
Proof.
  intros Hwf Hget Hac Hfuel.
  destruct (gathering_returns fuel context st1) as (deps & Hpush);
    [by eapply getContext_registered|by eapply getContext_validRef|done..|].
  destruct (createDebugger_run fuel name actionFile dataDir _ _ _ _ Hwf Hget Hpush)
    as (Hown & _).
  destruct (gathering_queries_run _ _ _ _ _ _ Hwf Hget Hpush) as (_ & _ & Hgen & _).
  exists deps. split; [exact Hpush|]. split; [exact Hown|]. split; [exact Hgen|].
  destruct (createDebugger_outcome fuel name actionFile dataDir _ _ _ _ Hwf Hget Hpush)
    as (st2 & Hrun).
  exists st2. split; [exact Hrun|]. rewrite Hrun.
  destruct (hasErrorsAt st1 context || existsb (hasErrorsAt st1) deps) eqn:Herr; simpl.
  - split; [done|]. intros _.
    apply orb_true_iff in Herr as [Herr|Herr]; [by left|right].
    apply existsb_exists in Herr as (d & Hd & Herr). exists d. split; [|done].
    by apply list_elem_of_In.
  - split; [|done]. apply orb_false_iff in Herr as (Hc & Hds).
    intros [Herr|(d & Hd & Herr)]; [congruence|].
    assert (existsb (hasErrorsAt st1) deps = true); [|congruence].
    apply existsb_exists. exists d. split; [by apply list_elem_of_In|done].
Qed.

(** X9.  What [generateSentence] and [createDebugger] leave behind, once the
    context of the grammar is found and when the dependency lists behind the
    grammar lead into no import cycle: both return, the map is as it was
    after the context lookup, and the only entries that changed are those of
    the gathered contexts in front of the first one with errors (all of them
    when none has errors), whose interpreters were set up unless their data
    was loaded; [generateSentence] uses the directory [.antlr] next to the
    grammar and does not go through the context of the grammar itself,
    [createDebugger] uses the directory it is given and starts with it.  A
    context with errors does not undo what was set up before it. *)
Theorem interpreters_prepared (fuel : nat) (name : string) (st st1 : AntlrFacade)
    (context : ref) :
  wf st →
  getContext fuel name None st = Some (context, st1) →
  ¬ cyclicFrom st1 context → (length (objects st1) < fuel)%nat →
  ∃ deps,
    pushDependencyFiles fuel context [] st1 = Some (deps, st1) ∧
    (∀ rule options, ∃ outcome st2,
       generateSentence fuel name rule options st = Some (outcome, st2) ∧
       sourceContexts st2 = sourceContexts st1 ∧
       ∀ r, objects st2 !! r =
              if decide (r ∈ beforeErrors st1 deps)
              then prepared (path_join (path_dirname name) ".antlr") <$> objects st1 !! r
              else objects st1 !! r) ∧
    (∀ actionFile dataDir, ∃ result st2,
       createDebugger fuel name actionFile dataDir st = Some (result, st2) ∧
       sourceContexts st2 = sourceContexts st1 ∧
       ∀ r, objects st2 !! r =
              if decide (r ∈ beforeErrors st1 (context :: deps))
              then prepared dataDir <$> objects st1 !! r
              else objects st1 !! r).
Proof.
  intros Hwf Hget Hac Hfuel.
  destruct (gathering_returns fuel context st1) as (deps & Hpush);
    [by eapply getContext_registered|by eapply getContext_validRef|done..|].
  destruct (getContext_registered _ _ _ _ _ _ Hget) as (Hname & _).
  exists deps. split; [exact Hpush|]. split.
  - intros rule options.
    destruct (createDebugger_run fuel name "" "" _ _ _ _ Hwf Hget Hpush)
      as (_ & Hnd & Hvalid & _).
    apply NoDup_cons in Hnd as (_ & Hnd).
    destruct (prepareInterpreters_effect (path_join (path_dirname name) ".antlr") deps st1 Hnd)
      as (st2 & Hloop & Hmap & _ & Hobj).
    { intros d Hd. apply Hvalid. by right. }
    unfold generateSentence.
    rewrite (op_bind_run _ _ _ _ _ Hget), (op_bind_run _ _ _ _ _ (mapGetSome_run _ _ _ Hname)).
    rewrite (op_bind_run _ _ _ _ _ Hpush), (op_bind_run _ _ _ _ _ Hloop).
    destruct (negb (existsb (hasErrorsAt st1) deps)); eexists _, st2; done.
  - intros actionFile dataDir.
    destruct (createDebugger_run fuel name actionFile dataDir _ _ _ _ Hwf Hget Hpush)
      as (_ & Hnd & Hvalid & Hrun).
    destruct (prepareInterpreters_effect dataDir (context :: deps) st1 Hnd Hvalid)
      as (st2 & Hloop & Hmap & _ & Hobj).
    rewrite Hrun, (op_bind_run _ _ _ _ _ Hloop).
    destruct (negb (existsb (hasErrorsAt st1) (context :: deps))); eexists _, st2; done.
Qed.

(** ** What a load changes *)

(** X10.  [loadGrammar] never unloads anything: the import directory stays,
    no object goes away, every name in the map stays mapped to the same entry
    object, and every object keeps its grammar name and its dependency list,
    its count never getting lower.  A load of a name that is in the map does
    nothing but raise the count of its entry: the text is not replaced and
    nothing is parsed.  A load of a name that is not in the map returns a new
    object. *)
Theorem loadGrammar_frame (fuel : nat) (name : string) (source : option string)
    (st st' : AntlrFacade) (r : ref) :
  loadGrammar fuel name source st = Some (r, st') →
  importDir st' = importDir st ∧
  (∀ n c, sourceContexts st !! n = Some c → sourceContexts st' !! n = Some c) ∧
  (∀ c e, objects st !! c = Some e →
     ∃ e', objects st' !! c = Some e' ∧ grammar e' = grammar e ∧
           dependencies e' = dependencies e ∧ refCount e ≤ refCount e') ∧
  (∀ ce, sourceContexts st !! name = Some ce → r = ce ∧ st' = bump 1 ce st) ∧
  (sourceContexts st !! name = None →
     r = length (objects st) ∧ objects st !! r = None ∧
     sourceContexts st' !! name = Some r).
Proof.
  intros Hrun.
  destruct (loadGrammar_grows fuel _ _ _ _ _ Hrun) as ((_ & Hsub & Hdir & Hobj) & Hname & Hr).
  split; [exact Hdir|]. split.
  { intros n c Hn. eapply lookup_weaken; eassumption. }
  split.
  { intros c e He. destruct (Hobj c e He) as (e' & He' & Hg & Hrc & Hd).
    exists e'. split_and!; [done|done|by apply Hd|done]. }
  split.
  - intros ce Hce. destruct fuel as [|fuel]; [done|].
    assert (Hvalid : validRef st ce).
    { simpl in Hrun. unfold mapGet at 1, op_bind at 1 in Hrun. rewrite Hce in Hrun.
      unfold op_bind at 1, op_ret at 1 in Hrun.
      apply op_bind_Some in Hrun as ([] & st1 & Hupd & _).
      unfold updateEntry in Hupd. apply validRef_lookup.
      destruct (objects st !! ce); [eauto|done]. }
    rewrite (loadGrammar_loaded _ _ _ _ _ Hce Hvalid) in Hrun. by injection Hrun as <- <-.
  - intros Hnone. destruct fuel as [|fuel]; [done|].
    destruct (loadGrammar_new_steps _ _ _ _ _ _ Hnone Hrun) as (-> & _).
    split_and!; [done| |done]. apply lookup_ge_None_2. lia.
Qed.

Lemma contextPair_contextsOnly m a b st st' :
  contextPair m a b st = Some (tt, st') → contextsOnly st st'.
Proof.
  intros Hrun.
  assert (validRef st a ∧ validRef st b) as (Ha & Hb).
  { unfold contextPair in Hrun.
    apply op_bind_Some in Hrun as (ea & st1 & Hra & Hrun).
    apply op_bind_Some in Hrun as (eb & st2 & Hrb & _).
    unfold readEntry in Hra, Hrb.
    destruct (objects st !! a) eqn:Hea; [|done]. injection Hra as <- <-.
    destruct (objects st !! b) eqn:Heb; [|done].
    split; apply validRef_lookup; eauto. }
  destruct (contextPair_run st m a b Ha Hb) as (st'' & Hrun' & Hc).
  rewrite Hrun in Hrun'. by injection Hrun' as ->.
Qed.

(** The paths recorded by the first loop of [parseGrammar] are in the map. *)
Lemma resolveLoop_loaded load ce names st st' e :
  loadGrows load →
  objects st !! ce = Some e →
  forEach names (resolveDependency load ce) st = Some (tt, st') →
  ∀ d, d ∈ depsAt st' ce → d ∈ dependencies e ∨ is_Some (sourceContexts st' !! d).
Proof.
  intros Hg. revert st e. induction names as [|dep names IH]; intros st e He Hrun d Hd.
  { injection Hrun as <-. left. unfold depsAt in Hd. by rewrite He in Hd. }
  simpl in Hrun. apply op_bind_Some in Hrun as ([] & st1 & Hone & Hrest).
  destruct (resolveDependency_dependencies _ _ _ _ _ _ Hg He Hone)
    as (e1 & He1 & _ & _ & Hdeps1).
  destruct (IH _ _ He1 Hrest d Hd) as [Hin|Hin]; [|by right].
  rewrite Hdeps1 in Hin. apply elem_of_app in Hin as [Hin|Hin]; [by left|]. right.
  assert (Hgrows : grows (λ r, r ≠ ce) st1 st').
  { apply (forEach_grows _ (resolveDependency load ce) (λ s, validRef s ce) names st1 st');
      [|apply validRef_lookup; eauto|done].
    intros x s s' Hs Hx. split; [by eapply resolveDependency_grows|].
    eapply grows_validRef; [by eapply resolveDependency_grows|done]. }
  unfold resolveDependency in Hone.
  apply op_bind_Some in Hone as (res & st0 & Hload & Hpair).
  pose proof (loadDependencyWith_recorded _ _ _ _ _ _ _ Hg He Hload) as Hrec.
  destruct (resolvePath st e dep) as [p|]; [|by apply elem_of_nil in Hin].
  apply list_elem_of_singleton in Hin as ->. destruct Hrec as (c & -> & Hc & _).
  exists c. eapply grows_lookup; [exact Hgrows|].
  apply contextPair_contextsOnly in Hpair as (_ & -> & _). exact Hc.
Qed.

Lemma resolveDependencies_loaded load ce st olds st1 :
  loadGrows load →
  resolveDependencies load ce st = Some (olds, st1) →
  ∀ d, d ∈ depsAt st1 ce → is_Some (sourceContexts st1 !! d).
Proof.
  intros Hg Hrun d Hd. unfold resolveDependencies in Hrun.
  apply op_bind_Some in Hrun as (e & st0 & Hread & Hrun).
  unfold readEntry in Hread. destruct (objects st !! ce) as [e0|] eqn:He; [|done].
  injection Hread as <- <-.
  assert (Hce : validRef st ce) by (apply validRef_lookup; eauto).
  rewrite (op_bind_run _ _ _ _ _ (updateEntry_run _ _ _ Hce)) in Hrun.
  set (stA := set_objects _ st) in Hrun.
  assert (HeA : objects stA !! ce = Some (with_dependencies (λ _, []) e0)).
  { unfold stA. simpl. by rewrite list_lookup_alter_eq, He. }
  destruct (contextParse_run ce stA) as (eA & stB & HeA' & Hparse & Hc).
  { apply validRef_lookup. eauto. }
  rewrite HeA in HeA'. injection HeA' as <-.
  rewrite (op_bind_run _ _ _ _ _ Hparse) in Hrun.
  apply op_bind_Some in Hrun as ([] & stC & Hloop & [= _ <-]).
  assert (∃ eB, objects stB !! ce = Some eB ∧ dependencies eB = []) as (eB & HeB & HdB).
  { destruct Hc as (Hs & _). pose proof (sameShape_lookup _ _ ce Hs) as Hl.
    rewrite HeA in Hl. destruct (objects stB !! ce) as [eB|]; [|done].
    simpl in Hl. injection Hl as _ Hdeps _. eauto. }
  destruct (resolveLoop_loaded _ _ _ _ _ _ Hg HeB Hloop d Hd) as [Hin|Hin]; [|done].
  rewrite HdB in Hin. by apply elem_of_nil in Hin.
Qed.

(** X11.  After a load of a name that was not in the map, the dependency list
    of the new entry holds the paths found, in the order of the parse, for
    the names the parse of the initial text gave (names with no file leave no
    trace), and every path in it is in the map; the count of the entry is at
    least 1. *)
Theorem loadGrammar_new_dependencies (fuel : nat) (name : string) (source : option string)
    (st st' : AntlrFacade) (r : ref) :
  sourceContexts st !! name = None →
  loadGrammar fuel name source st = Some (r, st') →
  ∃ e, objects st' !! r = Some e ∧ grammar e = name ∧ 1 ≤ refCount e ∧
    dependencies e =
      omap (resolvePath st' e)
        (snd (sc_parse (sc_setText (sc_new name) (initialSource name source)))) ∧
    ∀ d, d ∈ dependencies e → is_Some (sourceContexts st' !! d).
Proof.
  intros Hnone Hrun. destruct fuel as [|fuel]; [done|].
  rewrite (loadGrammar_new _ _ _ _ Hnone) in Hrun.
  pose proof (registered_lookup name st) as He0.
  set (ce := length (objects st)) in *. set (st0 := registered name st) in *.
  assert (Hce0 : validRef st0 ce) by (apply validRef_lookup; eauto).
  rewrite (op_bind_run _ _ _ _ _ (updateEntry_run _ _ _ Hce0)) in Hrun.
  set (st1 := set_objects _ st0) in Hrun.
  assert (He1 : objects st1 !! ce =
            Some {| context := sc_setText (sc_new name) (initialSource name source);
                    refCount := 0; dependencies := []; grammar := name |}).
  { unfold st1, set_objects. cbn [objects]. by rewrite list_lookup_alter_eq, He0. }
  apply op_bind_Some in Hrun as ([] & st2 & Hparse & Hrun).
  rewrite parseGrammarWith_phases in Hparse.
  apply op_bind_Some in Hparse as (olds & st2' & Hres & Hrel).
  pose proof (loadGrammar_grows fuel) as Hg.
  destruct (resolveDependencies_dependencies _ _ _ _ _ _ Hg He1 Hres) as (-> & Hdeps).
  simpl in Hrel. injection Hrel as ->.
  destruct (resolveDependencies_grows _ _ _ _ _ Hg Hres) as ((_ & _ & Hdir & Hobj) & _).
  destruct (Hobj _ _ He1) as (e2 & He2 & Hg2 & Hrc2 & _).
  pose proof (resolveDependencies_loaded _ _ _ _ _ Hg Hres) as Hloaded.
  apply op_bind_Some in Hrun as ([] & st3 & Hupd & [= <- <-]).
  rewrite (updateEntry_run st2 ce) in Hupd by (apply validRef_lookup; eauto).
  injection Hupd as <-.
  exists (with_refCount (λ n, n + 1) e2). simpl in *.
  rewrite list_lookup_alter_eq, He2. split_and!; [done|done|lia|..].
  - unfold depsAt in Hdeps. rewrite He2 in Hdeps. rewrite Hdeps.
    apply omap_agree. intros dep. symmetry. by apply resolvePath_agree.
  - intros d Hd. apply Hloaded. unfold depsAt. by rewrite He2.
Qed.

(** ** The source argument *)

(** X12.  The [source] argument of [loadGrammar] and [getContext] is used
    only for a name that is not in the map, and only when it is not the empty
    string: for a loaded name it is ignored (the text of the context stays),
    and an empty string is taken for a missing argument, so the text is read
    from the file.  A text that is not empty is what the new context is given,
    whatever the file holds. *)
Theorem loadGrammar_source (fuel : nat) (name : string) (source : option string)
    (st : AntlrFacade) :
  (is_Some (sourceContexts st !! name) →
     loadGrammar fuel name source st = loadGrammar fuel name None st ∧
     getContext fuel name source st = getContext fuel name None st) ∧
  loadGrammar fuel name (Some ""%string) st = loadGrammar fuel name None st ∧
  getContext fuel name (Some ""%string) st = getContext fuel name None st ∧
  (∀ text, text ≠ ""%string → initialSource name (Some text) = text) ∧
  initialSource name None =
    (if fs_statSync name then default ""%string (fs_readFileSync name) else ""%string).
Proof.
  split_and!.
  - intros [ce Hce]. unfold getContext, mapGet, op_bind. rewrite Hce. split; [|done].
    destruct fuel as [|fuel]; [done|]. simpl. unfold mapGet, op_bind. by rewrite Hce.
  - destruct fuel as [|fuel]; [done|]. reflexivity.
  - unfold getContext, mapGet, op_bind. destruct (sourceContexts st !! name); [done|].
    destruct fuel as [|fuel]; [done|]. reflexivity.
  - intros text Htext. unfold initialSource, falsy. by rewrite bool_decide_eq_false_2.
  - reflexivity.
Qed.

(** ** The states clients can bring about *)

Lemma prepareInterpreters_contextsOnly dataDir contexts st ready st' :
  prepareInterpreters dataDir contexts st = Some (ready, st') → contextsOnly st st'.
Proof.
  revert st. induction contexts as [|d cs IH]; intros st Hrun.
  { injection Hrun as _ <-. apply contextsOnly_refl. }
  simpl in Hrun. apply op_bind_Some in Hrun as (e & st0 & Hread & Hrun).
  unfold readEntry in Hread. destruct (objects st !! d) as [e0|] eqn:He; [|done].
  injection Hread as <- <-.
  destruct (sc_hasErrors (context e0)).
  { injection Hrun as _ <-. apply contextsOnly_refl. }
  apply op_bind_Some in Hrun as ([] & st1 & Hset & Hrun).
  eapply contextsOnly_trans; [|by apply IH].
  destruct (sc_isInterpreterDataLoaded (context e0)).
  - injection Hset as <-. apply contextsOnly_refl.
  - destruct (updateEntry_context st d (λ c, sc_setupInterpreters c dataDir))
      as (st1' & Hset' & Hc); [apply validRef_lookup; eauto|].
    rewrite Hset in Hset'. by injection Hset' as <-.
Qed.

Lemma getContext_consistent holders fuel name source st c st1 :
  consistent holders st →
  getContext fuel name source st = Some (c, st1) →
  consistent (match sourceContexts st !! name with
              | Some _ => holders
              | None => loadedBy holders name
              end) st1.
Proof.
  intros Hinv. unfold getContext, mapGet, op_bind at 1.
  destruct (sourceContexts st !! name); [by intros [= _ <-]|].
  by apply loadGrammar_consistent.
Qed.

Lemma perform_consistent holders fuel q st st' :
  consistent holders st → permitted q holders →
  perform fuel q st = Some (tt, st') →
  consistent (holdersAfter q st holders) st'.
Proof.
  intros Hinv Hq Hrun. destruct q; simpl in *.
  - apply op_bind_Some in Hrun as (r & st1 & Hload & [= <-]).
    by eapply loadGrammar_consistent.
  - destruct (releaseGrammar_consistent _ _ _ Hinv Hq) as (st'' & Hrun' & Hinv').
    rewrite Hrun in Hrun'. by injection Hrun' as <-.
  - by eapply setText_consistent.
  - unfold reparse, mapGet, op_bind at 1 in Hrun.
    destruct (sourceContexts st !! fileName) as [ce|] eqn:Hmap; [|by injection Hrun as <-].
    unfold parseGrammar in Hrun. pose proof Hrun as Hrun0.
    rewrite parseGrammarWith_phases in Hrun0.
    apply op_bind_Some in Hrun0 as (olds & st1 & Hres & _).
    destruct (parseGrammar_consistent _ _ _ _ _ _ _ Hinv Hmap Hres) as (st'' & Hrun' & _ & ? & _).
    unfold parseGrammar in Hrun'. rewrite Hrun in Hrun'. by injection Hrun' as <-.
  - apply op_bind_Some in Hrun as ([c ?] & st1 & Hfwd & [= <-]).
    unfold forward in Hfwd. apply op_bind_Some in Hfwd as (c' & st2 & Hget & [= _ _ <-]).
    by eapply getContext_consistent.
  - apply op_bind_Some in Hrun as ([c ?] & st1 & Hgen & [= <-]).
    unfold generate in Hgen. apply op_bind_Some in Hgen as (c' & st2 & Hget & Hgen).
    apply op_bind_Some in Hgen as (entry & st3 & Hentry & Hgen).
    apply op_bind_Some in Hgen as (deps & st4 & Hpush & [= _ _ <-]).
    apply pushDependencyFiles_spec in Hpush as (-> & _).
    unfold mapGetSome, mapGet, op_bind in Hentry.
    destruct (sourceContexts st2 !! fileName); [|done]. injection Hentry as _ <-.
    by eapply getContext_consistent.
  - apply op_bind_Some in Hrun as (outcome & st1 & Hgen & [= <-]).
    unfold generateSentence in Hgen. apply op_bind_Some in Hgen as (c' & st2 & Hget & Hgen).
    apply op_bind_Some in Hgen as (entry & st3 & Hentry & Hgen).
    apply op_bind_Some in Hgen as (deps & st4 & Hpush & Hgen).
    apply op_bind_Some in Hgen as (ready & st5 & Hloop & Hgen).
    assert (st5 = st1) as -> by (destruct ready; by injection Hgen as _ <-).
    apply pushDependencyFiles_spec in Hpush as (-> & _).
    unfold mapGetSome, mapGet, op_bind in Hentry.
    destruct (sourceContexts st2 !! fileName); [|done]. injection Hentry as _ <-.
    eapply counted_contextsOnly; [by eapply prepareInterpreters_contextsOnly|].
    by eapply getContext_consistent.
  - apply op_bind_Some in Hrun as (outcome & st1 & Hgen & [= <-]).
    unfold createDebugger in Hgen. apply op_bind_Some in Hgen as (c' & st2 & Hget & Hgen).
    apply op_bind_Some in Hgen as (entry & st3 & Hentry & Hgen).
    apply op_bind_Some in Hgen as (deps & st4 & Hpush & Hgen).
    apply op_bind_Some in Hgen as (ready & st5 & Hloop & Hgen).
    assert (st5 = st1) as -> by (destruct ready; by injection Hgen as _ <-).
    apply pushDependencyFiles_spec in Hpush as (-> & _).
    unfold mapGetSome, mapGet, op_bind in Hentry.
    destruct (sourceContexts st2 !! fileName); [|done]. injection Hentry as _ <-.
    eapply counted_contextsOnly; [by eapply prepareInterpreters_contextsOnly|].
    by eapply getContext_consistent.
Qed.

(** X13.  The counting invariant holds in every state clients can bring
    about, as long as they release only what they hold: every count is the
    number of holders of the name plus the number of times the dependency
    lists of the entries in the map name it.  So a grammar that has a holder
    is in the map, with a count no less than the number of its holders; every
    path in the dependency list of an entry in the map is in the map; and two
    names never share an entry object. *)
Theorem reachable_consistent (holders : string → nat) (st : AntlrFacade) :
  reachable holders st →
  consistent holders st ∧
  (∀ n, (0 < holders n)%nat →
     ∃ k, refCountOf st n = Some k ∧ Z.of_nat (holders n) ≤ k) ∧
  (∀ n r e d, sourceContexts st !! n = Some r → objects st !! r = Some e →
     d ∈ dependencies e → is_Some (sourceContexts st !! d)) ∧
  (∀ n n' r, sourceContexts st !! n = Some r → sourceContexts st !! n' = Some r → n = n').
Proof.
  intros Hreach.
  assert (Hinv : consistent holders st).
  { induction Hreach as [dir|holders st fuel q st' _ IH Hq Hrun];
      [apply consistent_new|by eapply perform_consistent]. }
  split; [exact Hinv|]. split_and!.
  - intros n Hn. pose proof (consistent_lookup _ _ n Hinv) as Hl.
    destruct (sourceContexts st !! n) as [r|] eqn:Hr; [|lia].
    destruct Hl as (e & He & _ & _ & Hrc). exists (refCount e).
    split; [by eapply refCountOf_lookup|lia].
  - intros n r e d Hn He Hd.
    destruct (consistent_kept holders st d Hinv) as (k & Hk & _).
    { right. by exists n, r, e. }
    apply refCountOf_Some in Hk as (ce & _ & Hce & _). eauto.
  - intros n n' r Hn Hn'. symmetry.
    eapply counting_injective; [by apply consistent_counting|done..].
Qed.

(** ** What a release leaves alone *)

Lemma contextPair_others m a b st st' r :
  contextPair m a b st = Some (tt, st') → r ≠ a → r ≠ b →
  objects st' !! r = objects st !! r.
Proof.
  intros Hrun Ha Hb. unfold contextPair in Hrun.
  apply op_bind_Some in Hrun as (ea & st1 & Hra & Hrun).
  apply op_bind_Some in Hrun as (eb & st2 & Hrb & Hrun).
  unfold readEntry in Hra, Hrb.
  destruct (objects st !! a) eqn:Hea; [|done]. injection Hra as <- <-.
  destruct (objects st !! b) eqn:Heb; [|done]. injection Hrb as <- <-.
  apply op_bind_Some in Hrun as ([] & st3 & Hu1 & Hu2).
  rewrite updateEntry_run in Hu1 by (apply validRef_lookup; eauto). injection Hu1 as <-.
  rewrite updateEntry_run in Hu2
    by (unfold validRef; simpl; rewrite length_alter; apply validRef_lookup; eauto).
  injection Hu2 as <-. simpl. by rewrite !list_lookup_alter_ne.
Qed.

Lemma reaches_releaseFrame st st' x y :
  releaseFrame st st' → reaches st' x y → reaches st x y.
Proof.
  intros (Hlen & Hsub & _ & Hobj).
  assert (Hedge : ∀ r e' d r', objects st' !! r = Some e' → d ∈ dependencies e' →
            sourceContexts st' !! d = Some r' →
            ∃ e, objects st !! r = Some e ∧ d ∈ dependencies e ∧
                 sourceContexts st !! d = Some r').
  { intros r e' d r' He' Hd Hm.
    destruct (objects st !! r) as [e|] eqn:He.
    - destruct (Hobj r e He) as (e'' & He'' & Hdeps & _).
      rewrite He' in He''. injection He'' as <-. exists e.
      split_and!; [done|by rewrite <- Hdeps|by eapply lookup_weaken].
    - apply lookup_ge_None in He. apply lookup_lt_Some in He'. lia. }
  induction 1 as [r e' d r' He' Hd Hm|r e' d r' z He' Hd Hm _ IH].
  - destruct (Hedge _ _ _ _ He' Hd Hm) as (e & ? & ? & ?). by eapply reaches_direct.
  - destruct (Hedge _ _ _ _ He' Hd Hm) as (e & ? & ? & ?). by eapply reaches_step.
Qed.

(** A release that returned did what [releaseFrame] says. *)
Lemma internalReleaseGrammar_frame fuel name referencing st st' :
  wf st → (∀ x, referencing = Some x → validRef st x) →
  internalReleaseGrammar fuel name referencing st = Some (tt, st') →
  releaseFrame st st'.
Proof.
  intros Hwf Href Hrun.
  destruct (internalReleaseGrammar_returns (fuel `max` S (size (sourceContexts st)))
              name referencing st Hwf Href) as (st'' & Hrun' & Hf); [lia|].
  rewrite (internalReleaseGrammar_fuel fuel _ _ _ _ _ (Nat.le_max_l _ _) Hrun) in Hrun'.
  by injection Hrun' as <-.
Qed.

(** One call of [internalReleaseGrammar] on a loaded name, with what it did
    to the objects other than the two contexts. *)
Lemma internalReleaseGrammar_step_others fuel name referencing st ce e :
  sourceContexts st !! name = Some ce →
  objects st !! ce = Some e →
  (∀ r, referencing = Some r → validRef st r) →
  ∃ st1, contextsOnly st st1 ∧
    (∀ r, r ≠ ce → (∀ x, referencing = Some x → r ≠ x) →
       objects st1 !! r = objects st !! r) ∧
    internalReleaseGrammar (S fuel) name referencing st =
      if decide (refCount e - 1 = 0) then
        forEach (dependencies e) (λ dep, internalReleaseGrammar fuel dep (Some ce))
          (set_sourceContexts (delete name) (bump (-1) ce st1))
      else Some (tt, bump (-1) ce st1).
Proof.
  intros Hname He Href.
  assert (Hce : validRef st ce) by (apply validRef_lookup; eauto).
  assert (∃ st1, contextsOnly st st1 ∧
            (∀ r, r ≠ ce → (∀ x, referencing = Some x → r ≠ x) →
               objects st1 !! r = objects st !! r) ∧
            match referencing with
            | Some r => contextPair sc_removeDependency r ce
            | None => op_ret tt
            end st = Some (tt, st1)) as (st1 & Hc & Hothers & Hrun).
  { destruct referencing as [x|].
    - destruct (contextPair_run st sc_removeDependency x ce) as (st1 & Hrun & ?); [eauto..|].
      exists st1. split; [done|]. split; [|done].
      intros r Hr Hx. eapply contextPair_others; [exact Hrun|by apply Hx|done].
    - exists st. split; [apply contextsOnly_refl|done]. }
  exists st1. split; [exact Hc|]. split; [exact Hothers|].
  simpl. unfold mapGet at 1. unfold op_bind at 1. rewrite Hname.
  rewrite (op_bind_run _ _ _ _ _ Hrun).
  apply (contextsOnly_validRef _ _ _ Hc) in Hce.
  rewrite (op_bind_run _ _ _ _ _ (updateEntry_run _ _ (with_refCount (λ n, n - 1)) Hce)).
  destruct (proj1 (validRef_lookup _ _) Hce) as [e1 He1].
  assert (Hsh : shape e1 = shape e).
  { destruct Hc as (Hs & _). pose proof (sameShape_lookup _ _ ce Hs) as Hl.
    rewrite He, He1 in Hl. simpl in Hl. congruence. }
  assert (Hread : objects (set_objects (alter (with_refCount (λ n, n - 1)) ce) st1) !! ce
                  = Some (with_refCount (λ n, n - 1) e1)).
  { simpl. rewrite list_lookup_alter_eq, He1. reflexivity. }
  rewrite (op_bind_run _ _ _ _ _ (readEntry_run _ _ _ Hread)).
  injection Hsh as Hrc Hdeps Hg. simpl. rewrite Hrc, Hdeps.
  unfold bump. replace (λ n : Z, n + -1) with (λ n : Z, n - 1) by reflexivity.
  destruct (decide (refCount e - 1 = 0)); reflexivity.
Qed.

(** A release leaves alone every entry object that is neither the entry of
    the name nor behind a chain of dependency paths that starts there, and
    every name that is mapped to such an object. *)
Lemma internalReleaseGrammar_local fuel name referencing st st' r :
  wf st → (∀ x, referencing = Some x → validRef st x) →
  internalReleaseGrammar fuel name referencing st = Some (tt, st') →
  (∀ ce, sourceContexts st !! name = Some ce → r ≠ ce ∧ ¬ reaches st ce r) →
  (∀ x, referencing = Some x → r ≠ x) →
  objects st' !! r = objects st !! r ∧
  ∀ n, sourceContexts st !! n = Some r → sourceContexts st' !! n = Some r.
Proof.
  revert name referencing st st'.
  induction fuel as [|fuel IH]; intros name referencing st st' Hwf Href Hrun Hr Hx; [done|].
  destruct (sourceContexts st !! name) as [ce|] eqn:Hname.
  2:{ simpl in Hrun. unfold mapGet at 1, op_bind at 1 in Hrun. rewrite Hname in Hrun.
      by injection Hrun as <-. }
  destruct (Hr ce eq_refl) as (Hrce & Hnot).
  destruct (proj1 (validRef_lookup _ _) (Hwf _ _ Hname)) as [e He].
  destruct (internalReleaseGrammar_step_others fuel name referencing st ce e Hname He Href)
    as (st1 & Hc & Hothers & Heq).
  rewrite Heq in Hrun. clear Heq.
  assert (Hobj2 : objects (bump (-1) ce st1) !! r = objects st !! r).
  { rewrite bump_lookup, decide_False by done. by apply Hothers. }
  destruct (decide (refCount e - 1 = 0)) as [Hz|Hz].
  2:{ injection Hrun as <-. split; [done|]. intros n Hn. simpl. destruct Hc as (_ & -> & _).
      done. }
  set (st2 := set_sourceContexts (delete name) (bump (-1) ce st1)) in *.
  assert (Hf2 : releaseFrame st st2).
  { eapply releaseFrame_trans; [apply contextsOnly_releaseFrame, Hc|].
    eapply releaseFrame_trans; [apply bump_releaseFrame|apply mapDelete_releaseFrame]. }
  assert (Hmap2 : ∀ n, sourceContexts st !! n = Some r → sourceContexts st2 !! n = Some r).
  { intros n Hn. unfold st2. simpl. destruct Hc as (_ & -> & _).
    rewrite lookup_delete_ne; [done|]. intros <-. congruence. }
  assert (Hdeps : ∀ d, d ∈ dependencies e → d ∈ dependencies e) by done.
  assert (Hobj2' : objects st2 !! r = objects st !! r) by exact Hobj2.
  clearbody st2. clear Hobj2 Hothers Hc st1.
  revert st2 Hrun Hf2 Hmap2 Hobj2' Hdeps. generalize (dependencies e) at 1 2.
  intros l. induction l as [|d l IHl]; intros st2 Hrun Hf2 Hmap2 Hobj2 Hdeps.
  { by injection Hrun as <-. }
  simpl in Hrun. apply op_bind_Some in Hrun as ([] & st3 & Hd & Hrest).
  assert (Hwf2 : wf st2) by by eapply releaseFrame_wf.
  assert (Hce2 : ∀ x, Some ce = Some x → validRef st2 x).
  { intros x [= <-]. eapply releaseFrame_validRef; [done|]. by eapply Hwf. }
  destruct (IH d (Some ce) st2 st3 Hwf2 Hce2 Hd) as (Hobj3 & Hmap3).
  { intros de Hde.
    assert (Hreach : reaches st ce de).
    { eapply reaches_direct; [done|apply Hdeps; by left|].
      destruct Hf2 as (_ & Hsub & _). by eapply lookup_weaken. }
    split; [by intros ->|]. intros Hr'. apply Hnot.
    eapply reaches_trans; [done|]. by eapply reaches_releaseFrame. }
  { by intros x [= <-]. }
  apply (IHl st3 Hrest).
  - eapply releaseFrame_trans; [done|]. by eapply internalReleaseGrammar_frame.
  - intros n Hn. by apply Hmap3, Hmap2.
  - by rewrite Hobj3.
  - intros d' Hd'. apply Hdeps. by right.
Qed.

(** X14.  A release changes nothing outside the dependency closure of the
    released grammar: an entry object that is neither the entry of the name
    nor behind a chain of dependency paths that starts there is as it was, and
    the names mapped to it stay mapped to it.  No name is added to the map and
    no object is created. *)
Theorem releaseGrammar_local (name : string) (st st' : AntlrFacade) (ce r : ref) :
  wf st →
  releaseGrammar name st = Some (tt, st') →
  sourceContexts st !! name = Some ce →
  r ≠ ce → ¬ reaches st ce r →
  objects st' !! r = objects st !! r ∧
  (∀ n, sourceContexts st !! n = Some r →
     sourceContexts st' !! n = Some r ∧ entryOf st' n = entryOf st n) ∧
  sourceContexts st' ⊆ sourceContexts st ∧
  length (objects st') = length (objects st).
Proof.
  intros Hwf Hrun Hname Hr Hnot.
  destruct (internalReleaseGrammar_local (S (size (sourceContexts st))) name None st st' r Hwf)
    as (Hobj & Hmap); [done|exact Hrun|..|].
  { intros ce' Hce'. rewrite Hname in Hce'. by injection Hce' as <-. }
  { done. }
  destruct (internalReleaseGrammar_frame (S (size (sourceContexts st))) name None st st' Hwf)
    as (Hlen & Hsub & _); [done|exact Hrun|].
  split_and!; [done| |done..].
  intros n Hn. split; [by apply Hmap|]. unfold entryOf. by rewrite (Hmap n Hn), Hn.
Qed.

(** ** Editing and reparsing *)

Lemma reparse_dependencies_run fuel name st st' ce e :
  wf st → sourceContexts st !! name = Some ce → objects st !! ce = Some e →
  reparse fuel name st = Some (tt, st') →
  depsAt st' ce = omap (resolvePath st e) (snd (sc_parse (context e))) ∧
  ∀ holders, consistent holders st → consistent holders st'.
Proof.
  intros Hwf Hname He Hrun.
  unfold reparse, mapGet, op_bind at 1 in Hrun. rewrite Hname in Hrun.
  unfold parseGrammar in Hrun. pose proof Hrun as Hrun0.
  rewrite parseGrammarWith_phases in Hrun0.
  apply op_bind_Some in Hrun0 as (olds & st1 & Hres & Hrel).
  destruct (resolveDependencies_grows _ _ _ _ _ (loadGrammar_grows fuel) Hres)
    as ((Hwf1 & _ & _ & Ho) & _).
  destruct (releaseEach_returns olds st1 (Hwf1 Hwf)) as (st'' & Hrel' & Hf).
  rewrite Hrel in Hrel'. injection Hrel' as <-.
  destruct (resolveDependencies_dependencies _ _ _ _ _ _ (loadGrammar_grows fuel) He Hres)
    as (_ & Hdeps).
  split.
  - rewrite <- Hdeps. unfold depsAt.
    destruct (Ho _ _ He) as (e1 & He1 & _).
    destruct Hf as (_ & _ & _ & Ho'). destruct (Ho' _ _ He1) as (e' & He' & Hd & _).
    by rewrite He', He1.
  - intros holders Hinv.
    destruct (parseGrammar_consistent _ _ _ _ _ _ _ Hinv Hname Hres) as (st'' & Hrun' & _ & ? & _).
    unfold parseGrammar in Hrun'. rewrite Hrun in Hrun'. by injection Hrun' as <-.
Qed.

(** X15.  [setText] replaces the text of the context of a loaded grammar and
    changes nothing else: the map, the counts and the dependency lists stay,
    so the dependency list is that of the old text until the grammar is
    reparsed.  A [reparse] after it leaves the entry with the paths found for
    the names the parse of the new text gives, and keeps the counts right if
    they were right before the edit. *)
Theorem setText_reparse (fuel : nat) (name source : string) (st : AntlrFacade) (ce : ref)
    (e : ContextEntry) :
  wf st →
  sourceContexts st !! name = Some ce →
  objects st !! ce = Some e →
  ∃ st1,
    setText name source st = Some (tt, st1) ∧
    sourceContexts st1 = sourceContexts st ∧
    (∀ r, objects st1 !! r =
            if decide (r = ce) then Some (with_context (λ c, sc_setText c source) e)
            else objects st !! r) ∧
    depsAt st1 ce = dependencies e ∧
    ∀ st2, reparse fuel name st1 = Some (tt, st2) →
      depsAt st2 ce =
        omap (resolvePath st e) (snd (sc_parse (sc_setText (context e) source))) ∧
      ∀ holders, consistent holders st → consistent holders st2.
Proof.
  intros Hwf Hname He.
  assert (Hce : validRef st ce) by by eapply Hwf.
  destruct (updateEntry_context st ce (λ c, sc_setText c source) Hce) as (st1 & Hrun & Hc).
  assert (Hset : setText name source st = Some (tt, st1)).
  { unfold setText, mapGet, op_bind. by rewrite Hname. }
  rewrite (updateEntry_run _ _ _ Hce) in Hrun. injection Hrun as <-.
  eexists. split; [exact Hset|]. split; [done|].
  assert (He1 : objects (set_objects (alter (with_context (λ c, sc_setText c source)) ce) st)
                  !! ce = Some (with_context (λ c, sc_setText c source) e)).
  { simpl. by rewrite list_lookup_alter_eq, He. }
  split_and!.
  - intros r. destruct (decide (r = ce)) as [->|Hr]; [done|].
    simpl. by rewrite list_lookup_alter_ne.
  - unfold depsAt. by rewrite He1.
  - intros st2 Hre.
    destruct (reparse_dependencies_run fuel name _ st2 ce _ (contextsOnly_wf _ _ Hc Hwf)
                Hname He1 Hre) as (Hdeps & Hinv).
    split.
    + rewrite Hdeps. simpl. apply omap_agree. intros dep. by apply resolvePath_agree.
    + intros holders Hh. apply Hinv. by eapply counted_contextsOnly.
Qed.

(** X18.  A dependency that a grammar has before and after an edit is not
    reloaded: when the counts are right and a client holds the grammar, then
    after [reparse] the grammar is still mapped to the same entry object, and
    so is every path that was in its dependency list before and is in it
    afterwards, the new dependencies being loaded before the old ones are
    released. *)
Theorem reparse_keeps_instances (fuel : nat) (name : string) (holders : string → nat)
    (st st' : AntlrFacade) (ce : ref) (e : ContextEntry) :
  consistent holders st → (0 < holders name)%nat →
  sourceContexts st !! name = Some ce → objects st !! ce = Some e →
  reparse fuel name st = Some (tt, st') →
  sourceContexts st' !! name = Some ce ∧
  ∀ d, d ∈ dependencies e → d ∈ depsAt st' ce →
    is_Some (sourceContexts st !! d) ∧ sourceContexts st' !! d = sourceContexts st !! d.
Proof.
  intros Hinv Hheld Hname He Hrun.
  destruct (reparse_dependencies_run fuel name st st' ce e (proj1 Hinv) Hname He Hrun)
    as (_ & Hinv'). specialize (Hinv' _ Hinv).
  unfold reparse, mapGet, op_bind at 1 in Hrun. rewrite Hname in Hrun.
  unfold parseGrammar in Hrun. rewrite parseGrammarWith_phases in Hrun.
  apply op_bind_Some in Hrun as (olds & st1 & Hres & Hrel).
  destruct (resolveDependencies_grows _ _ _ _ _ (loadGrammar_grows fuel) Hres)
    as (Hg & _).
  destruct (releaseEach_returns olds st1 (proj1 Hg (proj1 Hinv))) as (st'' & Hrel' & Hf).
  rewrite Hrel in Hrel'. injection Hrel' as <-.
  destruct Hf as (_ & Hsub & _).
  assert (Hsame : ∀ n r, sourceContexts st !! n = Some r → is_Some (sourceContexts st' !! n) →
            sourceContexts st' !! n = Some r).
  { intros n r Hn [r' Hr']. rewrite Hr'. f_equal.
    pose proof (lookup_weaken _ _ _ _ Hr' Hsub) as H1.
    rewrite (grows_lookup _ _ _ _ _ Hg Hn) in H1. by injection H1. }
  assert (Hin : ∀ s n, consistent holders s → (0 < holders n)%nat ∨ referenced s n →
            is_Some (sourceContexts s !! n)).
  { intros s n Hs Hn. destruct (consistent_kept _ _ _ Hs Hn) as (k & Hk & _).
    apply refCountOf_Some in Hk as (r & _ & Hr & _). eauto. }
  assert (Hname' : sourceContexts st' !! name = Some ce).
  { apply Hsame; [done|]. apply Hin; [done|by left]. }
  split; [exact Hname'|]. intros d Hold Hnew.
  destruct (Hin st d Hinv) as [r Hr].
  { right. by exists name, ce, e. }
  split; [by exists r|]. rewrite Hr. apply Hsame; [done|]. apply Hin; [done|]. right.
  unfold depsAt in Hnew. destruct (objects st' !! ce) as [e'|] eqn:He'.
  - by exists name, ce, e'.
  - by apply elem_of_nil in Hnew.
Qed.

(** X19.  Loading a grammar that is in the map and releasing it again is a
    round trip: the release gives back the very state the load started from,
    the count of the entry having been raised and lowered by one. *)
Theorem load_release_roundtrip (fuel : nat) (name : string) (source : option string)
    (st : AntlrFacade) (ce : ref) (e : ContextEntry) :
  sourceContexts st !! name = Some ce → objects st !! ce = Some e →
  refCount e ≠ 0 →
  ∃ st1, loadGrammar (S fuel) name source st = Some (ce, st1) ∧
         refCountOf st1 name = Some (refCount e + 1) ∧
         releaseGrammar name st1 = Some (tt, st).
Proof.
  intros Hname He Hrc.
  assert (Hce : validRef st ce) by (apply validRef_lookup; eauto).
  exists (bump 1 ce st). split; [by apply loadGrammar_loaded|].
  assert (He1 : objects (bump 1 ce st) !! ce = Some (with_refCount (λ n, n + 1) e)).
  { by rewrite bump_lookup, decide_True, He. }
  split; [by rewrite (refCountOf_lookup (bump 1 ce st) name ce _ Hname He1)|].
  rewrite (releaseGrammar_kept (bump 1 ce st) name ce _ Hname He1) by (simpl; lia).
  do 2 f_equal. destruct st as [os m d]. unfold bump, set_objects. simpl. f_equal.
  simpl in He. clear -He. revert ce He. induction os as [|o os IH]; intros [|ce] He;
    simpl in *; try done.
  - injection He as ->. f_equal. destruct e as [c k ds g]. unfold with_refCount. simpl.
    f_equal. lia.
  - f_equal. by apply IH.
Qed.

(** ** Why a grammar is in the map *)

(** Walking back from an entry along the dependency lists that name it:
    [visited] holds the entries the walk went through, all of them reached
    from the entry [x] it is at. *)
Lemma loaded_needed_walk holders st r fuel visited nx x :
  consistent holders st →
  sourceContexts st !! nx = Some x →
  x = r ∨ reaches st x r →
  NoDup visited →
  (∀ y, y ∈ visited → validRef st y ∧ reaches st x y) →
  (length (objects st) < fuel + length visited)%nat →
  (∃ h rh, (0 < holders h)%nat ∧ sourceContexts st !! h = Some rh ∧
           (rh = r ∨ reaches st rh r)) ∨
  (∃ c, reaches st c c ∧ (c = r ∨ reaches st c r)).
Proof.
  intros Hinv. revert visited nx x.
  induction fuel as [|fuel IH]; intros visited nx x Hx Hxr Hnd Hvis Hfuel.
  all: destruct (decide (x ∈ visited)) as [Hin|Hnew];
    [right; exists x; split; [by apply Hvis|done]|].
  all: assert (Hvalid : validRef st x) by by eapply (proj1 Hinv).
  - assert (length (x :: visited) ≤ length (objects st))%nat; [|simpl in *; lia].
    apply NoDup_bounded; [by constructor|].
    intros y [->|Hy]%elem_of_cons; [done|by apply Hvis].
  - destruct (decide (0 < holders nx)%nat) as [Hheld|Hfree].
    { left. by exists nx, x. }
    pose proof (consistent_lookup _ _ nx Hinv) as Hl. rewrite Hx in Hl.
    destruct Hl as (e & He & _ & Hpos & Hcount).
    assert (0 < incoming st nx)%nat as Hinc by lia.
    apply incoming_pos in Hinc as (n1 & r1 & e1 & Hn1 & He1 & Hdep).
    assert (Hstep : reaches st r1 x) by by eapply reaches_direct.
    apply (IH (x :: visited) n1 r1); [done| |by constructor| |simpl; lia].
    + right. destruct Hxr as [<-|Hxr]; [done|by eapply reaches_trans].
    + intros y [->|Hy]%elem_of_cons; [done|]. split; [by apply Hvis|].
      eapply reaches_trans; [done|by apply Hvis].
Qed.

(** X20.  Nothing is in the map without a reason: when the counts are right,
    the entry of every name in the map is the entry of a grammar with a
    holder, or behind the dependency paths of one, or it is kept by an import
    cycle (it is on a cycle of dependency paths or behind one).  So when no
    grammar has a holder and no dependency paths form a cycle, the map is
    empty. *)
Theorem loaded_needed (holders : string → nat) (st : AntlrFacade) :
  consistent holders st →
  (∀ n r, sourceContexts st !! n = Some r →
     (∃ h rh, (0 < holders h)%nat ∧ sourceContexts st !! h = Some rh ∧
              (rh = r ∨ reaches st rh r)) ∨
     (∃ c, reaches st c c ∧ (c = r ∨ reaches st c r))) ∧
  ((∀ h, holders h = 0%nat) → (∀ c, ¬ reaches st c c) → sourceContexts st = ∅).
Proof.
  intros Hinv.
  assert (Hwhy : ∀ n r, sourceContexts st !! n = Some r →
            (∃ h rh, (0 < holders h)%nat ∧ sourceContexts st !! h = Some rh ∧
                     (rh = r ∨ reaches st rh r)) ∨
            (∃ c, reaches st c c ∧ (c = r ∨ reaches st c r))).
  { intros n r Hn.
    apply (loaded_needed_walk holders st r (S (length (objects st))) [] n r);
      [done|done|by left|constructor| |simpl; lia].
    intros y Hy. by apply elem_of_nil in Hy. }
  split; [exact Hwhy|]. intros Hnone Hacyclic. apply map_empty. intros n.
  destruct (sourceContexts st !! n) as [r|] eqn:Hn; [|done].
  destruct (Hwhy n r Hn) as [(h & _ & Hh & _)|(c & Hc & _)].
  - rewrite Hnone in Hh. lia.
  - by apply Hacyclic in Hc.
Qed.

End FurtherProperties.

(** ** Sorting symbol occurrences *)

Section Sorting.
Context {A : Type} (key : A → Z).

Let compareFn (x y : A) : Z := key x - key y.

Lemma sortInsert_perm x l : sortInsert compareFn x l ≡ₚ x :: l.
Proof.
  induction l as [|y l IH]; [done|]. simpl.
  destruct (decide (compareFn x y ≤ 0)); [done|]. rewrite IH. apply Permutation_swap.
Qed.

Lemma Array_sort_perm l : Array_sort compareFn l ≡ₚ l.
Proof.
  induction l as [|x l IH]; [done|]. unfold Array_sort in *. simpl.
  by rewrite sortInsert_perm, IH.
Qed.

Lemma sortInsert_sorted x l :
  StronglySorted (λ a b, key a ≤ key b) l →
  StronglySorted (λ a b, key a ≤ key b) (sortInsert compareFn x l).
Proof.
  induction 1 as [|y l Hl IH Hy]; simpl; [repeat constructor|].
  unfold compareFn at 1. destruct (decide (key x - key y ≤ 0)) as [Hle|Hgt].
  - constructor; [by constructor|]. constructor; [lia|].
    eapply Forall_impl; [exact Hy|]. simpl. intros z Hz. lia.
  - constructor; [exact IH|]. rewrite sortInsert_perm. constructor; [lia|done].
Qed.

Lemma Array_sort_sorted l : StronglySorted (λ a b, key a ≤ key b) (Array_sort compareFn l).
Proof.
  induction l as [|x l IH]; [constructor|]. unfold Array_sort in *. simpl.
  by apply sortInsert_sorted.
Qed.

(** Elements with the same key keep their order. *)
Lemma sortInsert_stable (P : A → Prop) `{!∀ a, Decision (P a)} x l :
  (∀ a b, P a → P b → key a = key b) →
  filter P (sortInsert compareFn x l) = filter P (x :: l).
Proof.
  intros HP. induction l as [|y l IH]; [done|]. simpl.
  unfold compareFn at 1. destruct (decide (key x - key y ≤ 0)) as [Hle|Hgt]; [done|].
  rewrite !filter_cons in *. rewrite IH.
  destruct (decide (P y)) as [Hy|Hy], (decide (P x)) as [Hx|Hx]; try done.
  specialize (HP _ _ Hx Hy). lia.
Qed.

Lemma Array_sort_stable (P : A → Prop) `{!∀ a, Decision (P a)} l :
  (∀ a b, P a → P b → key a = key b) →
  filter P (Array_sort compareFn l) = filter P l.
Proof.
  intros HP. induction l as [|x l IH]; [done|]. unfold Array_sort in *. simpl.
  rewrite sortInsert_stable by done. rewrite !filter_cons. by rewrite IH.
Qed.

End Sorting.

Section Classes.
Context {A K : Type} `{EqDecision K} (class : A → K) (rank : K → Z).
Hypothesis rank_inj : ∀ k1 k2, rank k1 = rank k2 → k1 = k2.

Let key (a : A) : Z := rank (class a).

(** A sorted list is determined by its elements of each class, in their
    order. *)
Lemma sorted_stable_unique l1 l2 :
  StronglySorted (λ a b, key a ≤ key b) l1 →
  StronglySorted (λ a b, key a ≤ key b) l2 →
  (∀ k, filter (λ a, class a = k) l1 = filter (λ a, class a = k) l2) →
  l1 = l2.
Proof.
  intros Hs1. revert l2. induction Hs1 as [|a l1 Hs1 IH Ha]; intros l2 Hs2 Hf.
  - destruct l2 as [|b l2]; [done|]. specialize (Hf (class b)).
    rewrite filter_cons, decide_True in Hf by done. done.
  - destruct Hs2 as [|b l2 Hs2 Hb].
    { specialize (Hf (class a)). rewrite filter_cons, decide_True in Hf by done. done. }
    assert (Hin : ∀ (l l' : list A) (x : A),
              filter (λ a, class a = class x) l = filter (λ a, class a = class x) l' →
              x ∈ l → x ∈ l').
    { intros l l' x Hfl Hx.
      assert (x ∈ filter (λ a, class a = class x) l) as Hx'
        by (apply list_elem_of_filter; split; done).
      rewrite Hfl in Hx'. by apply list_elem_of_filter in Hx' as (_ & ?). }
    assert (class a = class b) as Hab.
    { assert (a ∈ b :: l2) as Ha2 by (eapply Hin; [apply Hf|by left]).
      assert (b ∈ a :: l1) as Hb1 by (eapply Hin; [symmetry; apply Hf|by left]).
      apply elem_of_cons in Ha2 as [->|Ha2]; [done|].
      apply elem_of_cons in Hb1 as [->|Hb1]; [done|].
      rewrite Forall_forall in Ha, Hb. specialize (Ha _ Hb1). specialize (Hb _ Ha2).
      apply rank_inj. unfold key in *. lia. }
    pose proof (Hf (class a)) as Hfa.
    rewrite !filter_cons, !decide_True in Hfa by congruence.
    injection Hfa as <- Hfa. f_equal. apply IH; [done|]. intros k.
    specialize (Hf k). rewrite !filter_cons in Hf.
    destruct (decide (class a = k)); [|done]. by injection Hf.
Qed.

End Classes.


Section SymbolOccurrences.
Context `{NodeEnv} `{SourceContextApi} `{!SymbolTableApi}.

Lemma kindValue_inj k1 k2 : kindValue k1 = kindValue k2 → k1 = k2.
Proof. destruct k1, k2; simpl; intros Heq; first [reflexivity | discriminate Heq]. Qed.

Lemma getSymbolOccurrences_run fuel fileName symbolName st c st1 e :
  getContext fuel fileName None st = Some (c, st1) →
  objects st1 !! c = Some e →
  getSymbolOccurrences fuel fileName symbolName st =
    Some (Array_sort (λ lhs rhs, kindValue (kind lhs) - kindValue (kind rhs))
            (sc_getSymbolOccurrences (context e) symbolName false), st1).
Proof.
  intros Hc He. unfold getSymbolOccurrences.
  rewrite (op_bind_run _ _ _ _ _ Hc). by rewrite (op_bind_run _ _ _ _ _ (readEntry_run _ _ _ He)).
Qed.

(** X6.  [getSymbolOccurrences] returns the occurrences the symbol table of
    the context found, each exactly once, in ascending order of the values of
    their kinds, those of one kind in the order the symbol table gave them; it
    is the only list with these two properties. *)
Theorem getSymbolOccurrences_sorted (fuel : nat) (fileName symbolName : string)
    (st st1 : AntlrFacade) (c : ref) (e : ContextEntry) :
  getContext fuel fileName None st = Some (c, st1) →
  objects st1 !! c = Some e →
  ∃ result,
    getSymbolOccurrences fuel fileName symbolName st = Some (result, st1) ∧
    result ≡ₚ sc_getSymbolOccurrences (context e) symbolName false ∧
    StronglySorted byKind result ∧
    (∀ k, ofKind k result = ofKind k (sc_getSymbolOccurrences (context e) symbolName false)) ∧
    ∀ result',
      StronglySorted byKind result' →
      (∀ k, ofKind k result' =
            ofKind k (sc_getSymbolOccurrences (context e) symbolName false)) →
      result' = result.
Proof.
  intros Hc He. eexists. split; [eapply getSymbolOccurrences_run; eassumption|].
  set (key := λ s : SymbolInfo, kindValue (kind s)).
  set (found := sc_getSymbolOccurrences (context e) symbolName false).
  split_and!.
  - apply (Array_sort_perm key).
  - apply (Array_sort_sorted key).
  - intros k. apply (Array_sort_stable key). intros a b Ha Hb. unfold key. congruence.
  - intros result' Hsorted Hkinds.
    apply (sorted_stable_unique kind kindValue kindValue_inj); [done|apply (Array_sort_sorted key)|].
    intros k. unfold ofKind in Hkinds. rewrite Hkinds. symmetry.
    apply (Array_sort_stable key). intros a b Ha Hb. unfold key. congruence.
Qed.

(** X7.  In the list [getSymbolOccurrences] returns, no definition of a rule
    or token, nor any symbol of another kind, comes after a reference to a
    token or rule: behind the first reference there are only references, the
    references to tokens before those to rules. *)
Theorem getSymbolOccurrences_references_last (fuel : nat) (fileName symbolName : string)
    (st st1 : AntlrFacade) (result l1 l2 : list SymbolInfo) (x : SymbolInfo) :
  getSymbolOccurrences fuel fileName symbolName st = Some (result, st1) →
  result = l1 ++ x :: l2 →
  isReference x →
  (∀ y, y ∈ l2 → isReference y) ∧
  (kind x = RuleReference → ∀ y, y ∈ l2 → kind y = RuleReference).
Proof.
  intros Hrun -> Hx.
  assert (Hsorted : StronglySorted byKind (l1 ++ x :: l2)).
  { unfold getSymbolOccurrences in Hrun.
    apply op_bind_Some in Hrun as (c & st2 & _ & Hrun).
    apply op_bind_Some in Hrun as (e & st3 & _ & [= <- _]).
    apply (Array_sort_sorted (λ s : SymbolInfo, kindValue (kind s))). }
  apply StronglySorted_app_1_r in Hsorted. inversion_clear Hsorted as [|? ? _ Hle].
  rewrite Forall_forall in Hle. unfold byKind, isReference in *.
  split.
  - intros y Hy. specialize (Hle y Hy).
    destruct Hx as [Hx|Hx]; rewrite Hx in Hle; destruct (kind y); simpl in Hle; auto; lia.
  - intros Hx' y Hy. specialize (Hle y Hy). rewrite Hx' in Hle.
    destruct (kind y); simpl in Hle; auto; lia.
Qed.

End SymbolOccurrences.

(** ** The file names of the contexts *)

Section FileNames.
Context `{NodeEnv} `{SourceContextApi} `{!SourceContextFile}.
Hypothesis laws : FileNameLaws.

Lemma keeps_ret {A} (a : A) : keeps (op_ret a).
Proof. by intros st a' st' Hst [= _ <-]. Qed.

Lemma keeps_bind {A B} (m : Op A) (k : A → Op B) :
  keeps m → (∀ a, keeps (k a)) → keeps (op_bind m k).
Proof.
  intros Hm Hk st b st' Hst (a & st1 & Hrun & Hrest)%op_bind_Some.
  eapply Hk; [|exact Hrest]. by eapply Hm.
Qed.

Lemma keeps_forEach {A} (xs : list A) (body : A → Op unit) :
  (∀ x, keeps (body x)) → keeps (forEach xs body).
Proof.
  intros Hbody. induction xs as [|x xs IH]; [apply keeps_ret|].
  simpl. apply keeps_bind; [apply Hbody|by intros _].
Qed.

Lemma keeps_foldOp {A B} (xs : list A) (acc : B) (body : B → A → Op B) :
  (∀ acc x, keeps (body acc x)) → keeps (foldOp xs acc body).
Proof.
  intros Hbody. revert acc. induction xs as [|x xs IH]; intros acc; [apply keeps_ret|].
  simpl. apply keeps_bind; [apply Hbody|done].
Qed.

Lemma keeps_objects {A} (m : Op A) :
  (∀ st a st', m st = Some (a, st') → objects st' = objects st) → keeps m.
Proof. intros Hm st a st' Hst Hrun r e. rewrite (Hm _ _ _ Hrun). apply Hst. Qed.

Lemma keeps_mapGet n : keeps (mapGet n).
Proof. apply keeps_objects. by intros st a st' [= _ <-]. Qed.

Lemma keeps_mapSet n r : keeps (mapSet n r).
Proof. apply keeps_objects. by intros st [] st' [= <-]. Qed.

Lemma keeps_mapDelete n : keeps (mapDelete n).
Proof. apply keeps_objects. by intros st [] st' [= <-]. Qed.

Lemma keeps_readEntry r : keeps (readEntry r).
Proof.
  apply keeps_objects. intros st a st'. unfold readEntry.
  destruct (objects st !! r); [by intros [= _ <-]|done].
Qed.

Lemma keeps_noReturn {A} : keeps (@noReturn AntlrFacade A).
Proof. by intros st a st' _ ?. Qed.

Lemma keeps_allocEntry e :
  sc_fileName (context e) = grammar e → keeps (allocEntry e).
Proof.
  intros He st a st' Hst [= _ <-] r e'. simpl.
  intros [Hr|[_ Hr]]%lookup_app_Some; [by eapply Hst|].
  destruct (r - length (objects st))%nat; [|done]. by injection Hr as <-.
Qed.

Lemma keeps_updateEntry r f :
  (∀ e, sc_fileName (context e) = grammar e →
        sc_fileName (context (f e)) = grammar (f e)) →
  keeps (updateEntry r f).
Proof.
  intros Hf st [] st' Hst. unfold updateEntry.
  destruct (objects st !! r) eqn:Hr; [|done]. intros [= <-] r' e'. simpl.
  destruct (decide (r = r')) as [<-|Hne].
  - rewrite list_lookup_alter_eq, Hr. intros [= <-]. apply Hf. by eapply Hst.
  - rewrite list_lookup_alter_ne by done. apply Hst.
Qed.

Lemma keeps_contextPair m a b :
  (∀ c d, sc_fileName (fst (m c d)) = sc_fileName c ∧
          sc_fileName (snd (m c d)) = sc_fileName d) →
  keeps (contextPair m a b).
Proof.
  intros Hm st [] st' Hst Hrun. unfold contextPair in Hrun.
  apply op_bind_Some in Hrun as (ea & st1 & Hra & Hrun).
  apply op_bind_Some in Hrun as (eb & st2 & Hrb & Hrun).
  unfold readEntry in Hra, Hrb.
  destruct (objects st !! a) eqn:Hea; [|done]. injection Hra as -> <-.
  destruct (objects st !! b) eqn:Heb; [|done]. injection Hrb as -> <-.
  pose proof (Hst _ _ Hea) as Hna. pose proof (Hst _ _ Heb) as Hnb.
  destruct (Hm (context ea) (context eb)) as (Hfst & Hsnd).
  apply op_bind_Some in Hrun as ([] & st3 & Hu1 & Hu2).
  rewrite updateEntry_run in Hu1 by (apply validRef_lookup; eauto). injection Hu1 as <-.
  rewrite updateEntry_run in Hu2
    by (unfold validRef; simpl; rewrite length_alter; apply validRef_lookup; eauto).
  injection Hu2 as <-. intros r e'. simpl.
  destruct (decide (b = r)) as [<-|Hb].
  - rewrite list_lookup_alter_eq. destruct (decide (a = b)) as [->|Ha].
    + rewrite list_lookup_alter_eq, Heb. intros [= <-]. simpl. congruence.
    + rewrite list_lookup_alter_ne, Heb by done. intros [= <-]. simpl. congruence.
  - rewrite list_lookup_alter_ne by done. destruct (decide (a = r)) as [<-|Ha].
    + rewrite list_lookup_alter_eq, Hea. intros [= <-]. simpl. congruence.
    + rewrite list_lookup_alter_ne by done. apply Hst.
Qed.

Lemma keeps_internalReleaseGrammar fuel name referencing :
  keeps (internalReleaseGrammar fuel name referencing).
Proof.
  revert name referencing. induction fuel as [|fuel IH]; intros name referencing;
    [apply keeps_noReturn|].
  simpl. apply keeps_bind; [apply keeps_mapGet|]. intros [ce|]; [|apply keeps_ret].
  apply keeps_bind.
  { destruct referencing; [|apply keeps_ret].
    apply keeps_contextPair, laws. }
  intros _. apply keeps_bind; [by apply keeps_updateEntry|].
  intros _. apply keeps_bind; [apply keeps_readEntry|].
  intros e. destruct (decide (refCount e = 0)); [|apply keeps_ret].
  apply keeps_bind; [apply keeps_mapDelete|]. intros _. by apply keeps_forEach.
Qed.

Lemma keeps_releaseGrammar name : keeps (releaseGrammar name).
Proof. intros st a st' Hst Hrun. by eapply keeps_internalReleaseGrammar. Qed.

Lemma keeps_tryDependency load ce probe depPath otherwise :
  (∀ x source, keeps (load x source)) → keeps otherwise →
  keeps (tryDependency load ce probe depPath otherwise).
Proof.
  intros Hload Ho. unfold tryDependency. destruct (probe depPath); [|done].
  apply keeps_bind; [by apply keeps_updateEntry|]. intros _.
  apply keeps_bind; [apply Hload|]. intros c. apply keeps_ret.
Qed.

Lemma keeps_loadDependencyWith load ce depName :
  (∀ x source, keeps (load x source)) → keeps (loadDependencyWith load ce depName).
Proof.
  intros Hload. unfold loadDependencyWith. apply keeps_bind; [apply keeps_readEntry|].
  intros e st a st' Hst. cbv beta zeta.
  apply (keeps_tryDependency load ce _ _ _ Hload); [|exact Hst].
  repeat (apply keeps_tryDependency; [done|]). apply keeps_ret.
Qed.

Lemma keeps_parseGrammarWith load ce :
  (∀ x source, keeps (load x source)) → keeps (parseGrammarWith load ce).
Proof.
  intros Hload. unfold parseGrammarWith.
  apply keeps_bind; [apply keeps_readEntry|]. intros e.
  apply keeps_bind; [by apply keeps_updateEntry|]. intros _.
  apply keeps_bind.
  { unfold contextParse. apply keeps_bind; [apply keeps_readEntry|]. intros e0.
    apply keeps_bind; [|intros _; apply keeps_ret].
    apply keeps_updateEntry. intros e1 He1. simpl. rewrite <- He1. apply laws. }
  intros names. apply keeps_bind.
  - apply keeps_forEach. intros dep. apply keeps_bind; [by apply keeps_loadDependencyWith|].
    intros [d|]; [|apply keeps_ret]. apply keeps_contextPair, laws.
  - intros _. apply keeps_forEach. intros dep. apply keeps_releaseGrammar.
Qed.

Lemma keeps_loadGrammar fuel name source : keeps (loadGrammar fuel name source).
Proof.
  revert name source. induction fuel as [|fuel IH]; intros name source; [apply keeps_noReturn|].
  simpl. apply keeps_bind; [apply keeps_mapGet|]. intros found.
  apply keeps_bind.
  - destruct found as [ce|]; [apply keeps_ret|].
    apply keeps_bind; [apply keeps_allocEntry; simpl; apply laws|]. intros ce.
    apply keeps_bind; [apply keeps_mapSet|]. intros _.
    apply keeps_bind.
    { apply keeps_updateEntry. intros e He. simpl. rewrite <- He. apply laws. }
    intros _. apply keeps_bind; [by apply keeps_parseGrammarWith|]. intros _. apply keeps_ret.
  - intros ce. apply keeps_bind; [by apply keeps_updateEntry|]. intros _. apply keeps_ret.
Qed.

Lemma keeps_getContext fuel name source : keeps (getContext fuel name source).
Proof.
  unfold getContext. apply keeps_bind; [apply keeps_mapGet|].
  intros [ce|]; [apply keeps_ret|apply keeps_loadGrammar].
Qed.

Lemma keeps_pushDependencyFiles fuel entry contexts :
  keeps (pushDependencyFiles fuel entry contexts).
Proof.
  intros st a st' Hst Hrun. by apply pushDependencyFiles_spec in Hrun as (-> & _).
Qed.

Lemma keeps_prepareInterpreters dataDir contexts : keeps (prepareInterpreters dataDir contexts).
Proof.
  induction contexts as [|d cs IH]; [apply keeps_ret|].
  simpl. apply keeps_bind; [apply keeps_readEntry|]. intros e.
  destruct (sc_hasErrors (context e)); [apply keeps_ret|].
  apply keeps_bind; [|done].
  destruct (sc_isInterpreterDataLoaded (context e)); [apply keeps_ret|].
  apply keeps_updateEntry. intros e1 He1. simpl. rewrite <- He1. apply laws.
Qed.

Lemma keeps_mapGetSome name : keeps (mapGetSome name).
Proof.
  unfold mapGetSome. apply keeps_bind; [apply keeps_mapGet|].
  intros [ce|]; [apply keeps_ret|apply keeps_noReturn].
Qed.

Lemma keeps_perform fuel q : keeps (perform fuel q).
Proof.
  destruct q; simpl.
  - apply keeps_bind; [apply keeps_loadGrammar|]. intros _. apply keeps_ret.
  - apply keeps_releaseGrammar.
  - unfold setText. apply keeps_bind; [apply keeps_mapGet|]. intros [ce|]; [|apply keeps_ret].
    apply keeps_updateEntry. intros e He. simpl. rewrite <- He. apply laws.
  - unfold reparse. apply keeps_bind; [apply keeps_mapGet|]. intros [ce|]; [|apply keeps_ret].
    apply keeps_parseGrammarWith. intros x s. apply keeps_loadGrammar.
  - apply keeps_bind; [|intros _; apply keeps_ret]. unfold forward.
    apply keeps_bind; [apply keeps_getContext|]. intros c. apply keeps_ret.
  - apply keeps_bind; [|intros _; apply keeps_ret]. unfold generate.
    apply keeps_bind; [apply keeps_getContext|]. intros c.
    apply keeps_bind; [apply keeps_mapGetSome|]. intros entry.
    apply keeps_bind; [apply keeps_pushDependencyFiles|]. intros deps. apply keeps_ret.
  - apply keeps_bind; [|intros _; apply keeps_ret]. unfold generateSentence.
    apply keeps_bind; [apply keeps_getContext|]. intros c.
    apply keeps_bind; [apply keeps_mapGetSome|]. intros entry.
    apply keeps_bind; [apply keeps_pushDependencyFiles|]. intros deps.
    apply keeps_bind; [apply keeps_prepareInterpreters|]. intros [|]; apply keeps_ret.
  - apply keeps_bind; [|intros _; apply keeps_ret]. unfold createDebugger.
    apply keeps_bind; [apply keeps_getContext|]. intros c.
    apply keeps_bind; [apply keeps_mapGetSome|]. intros entry.
    apply keeps_bind; [apply keeps_pushDependencyFiles|]. intros deps.
    apply keeps_bind; [apply keeps_prepareInterpreters|]. intros [|]; apply keeps_ret.
Qed.

(** In the states clients can bring about, every context holds the name of
    the file it was made for. *)
Lemma reachable_fileNamed holders st : reachable holders st → fileNamed st.
Proof.
  induction 1 as [dir|holders st fuel q st' _ IH _ Hrun].
  - intros r e Hr. simpl in Hr. by rewrite lookup_nil in Hr.
  - by eapply keeps_perform.
Qed.

(** So every context in the map holds the name it is registered under. *)
Lemma reachable_keys holders st :
  reachable holders st →
  consistent holders st ∧
  ∀ n r e, sourceContexts st !! n = Some r → objects st !! r = Some e →
    sc_fileName (context e) = n.
Proof.
  intros Hreach. pose proof (reachable_fileNamed _ _ Hreach) as Hnamed.
  assert (Hinv : consistent holders st).
  { clear Hnamed. induction Hreach as [dir|holders st fuel q st' _ IH Hq Hrun];
      [apply consistent_new|by eapply perform_consistent]. }
  split; [exact Hinv|]. intros n r e Hn He. rewrite (Hnamed _ _ He).
  by destruct (proj1 (proj2 Hinv) _ _ _ Hn He) as (? & _).
Qed.

(** X16.  When no method the facade calls on a context changes its file
    name, then in every state clients can bring about (releasing only what
    they hold) every entry object holds the grammar name its context was made
    with, and every context in the map holds the file name it is registered
    under; for a loaded grammar whose dependency paths lead into no import
    cycle [getDependencies] then returns, each once, the paths in the map that
    its dependency lists lead to. *)
Theorem reachable_fileNames (holders : string → nat) (st : AntlrFacade) :
  reachable holders st →
  (∀ r e, objects st !! r = Some e → sc_fileName (context e) = grammar e) ∧
  (∀ n r e, sourceContexts st !! n = Some r → objects st !! r = Some e →
     sc_fileName (context e) = n) ∧
  ∀ fuel name ce,
    sourceContexts st !! name = Some ce → ¬ cyclicFrom st ce →
    (length (objects st) < fuel)%nat →
    ∃ names, getDependencies fuel name st = Some (names, st) ∧ NoDup names ∧
      ∀ p, p ∈ names ↔ ∃ r, sourceContexts st !! p = Some r ∧ reaches st ce r.
Proof.
  intros Hreach.
  destruct (reachable_keys _ _ Hreach) as (Hinv & Hkeys).
  split; [exact (reachable_fileNamed _ _ Hreach)|]. split; [exact Hkeys|].
  intros fuel name ce Hname Hac Hfuel.
  destruct (gathering_returns fuel ce st (proj1 Hinv)) as (deps & Hpush);
    [by eapply (proj1 Hinv)|done..|].
  destruct (getDependencies_paths fuel name st ce deps (proj1 Hinv) Hname Hpush)
    as (names & Hrun & _ & _ & Hpaths).
  exists names. split; [exact Hrun|]. by apply Hpaths.
Qed.

End FileNames.

(** ** The tree data provider *)

Section TreeData.
Import TreeDataProvider.
Context {Backend : Type}.

(** X17.  After any number of [refresh] calls the current file of a tree data
    provider is determined by the document of the last call alone: it is the
    file name of that document when there is one and it is an ANTLR grammar
    with the [file] scheme, and undefined otherwise.  Every call fires the
    change event once, whether the current file changed or not, and the back
    end stays the same. *)
Theorem refresh_sequence (this : AntlrTreeDataProvider Backend)
    (documents : list (option TextDocument)) (document : option TextDocument) :
  currentFile (foldl (λ p d, refresh d p) this (documents ++ [document])) =
    currentFile (refresh document (newAntlrTreeDataProvider (backend this))) ∧
  changeEvent (foldl (λ p d, refresh d p) this (documents ++ [document])) =
    (changeEvent this + length documents + 1)%nat ∧
  backend (foldl (λ p d, refresh d p) this (documents ++ [document])) = backend this ∧
  ∀ f, currentFile (refresh document this) = Some f ↔
       ∃ d, document = Some d ∧ languageId d = "antlr"%string ∧
            scheme (uri d) = "file"%string ∧ fileName d = f.
Proof.
  assert (Hfold : ∀ ds (p : AntlrTreeDataProvider Backend),
            changeEvent (foldl (λ p d, refresh d p) p ds) = (changeEvent p + length ds)%nat ∧
            backend (foldl (λ p d, refresh d p) p ds) = backend p).
  { induction ds as [|d ds IH]; intros p; simpl; [split; [lia|done]|].
    destruct (IH (refresh d p)) as (-> & ->). simpl. split; [lia|done]. }
  rewrite foldl_app. simpl. split; [done|].
  destruct (Hfold documents this) as (-> & ->). split; [lia|]. split; [done|].
  intros f. destruct document as [d|]; simpl.
  - destruct (bool_decide (languageId d = "antlr"%string)) eqn:Hl;
      destruct (bool_decide (scheme (uri d) = "file"%string)) eqn:Hs; simpl.
    + apply bool_decide_eq_true in Hl, Hs. split.
      * intros [= <-]. by exists d.
      * by intros (? & [= <-] & _ & _ & <-).
    + apply bool_decide_eq_false in Hs. split; [done|]. by intros (? & [= <-] & _ & ? & _).
    + apply bool_decide_eq_false in Hl. split; [done|]. by intros (? & [= <-] & ? & _).
    + apply bool_decide_eq_false in Hl. split; [done|]. by intros (? & [= <-] & ? & _).
  - split; [done|]. by intros (? & ? & _).
Qed.

End TreeData.

(** * The properties at work in the small world *)

Section Witnesses.
Import Demo.
Local Open Scope string_scope.

Lemma parserLoaded_run :
  loadGrammar 5 "test/backend/TParser.g4" None backend = Some (0%nat, parserLoaded).
Proof. vm_compute. reflexivity. Qed.

Lemma cyclic_run : loadGrammar 5 "cycle/Ping.g4" None backend = Some (0%nat, cyclic).
Proof. vm_compute. reflexivity. Qed.

Lemma shared_run : loadGrammar 5 "shared/Main.g4" None backend = Some (0%nat, shared).
Proof. vm_compute. reflexivity. Qed.

Lemma sharedEdited_run : setText "shared/Main.g4" mainText' shared = Some (tt, sharedEdited).
Proof. vm_compute. reflexivity. Qed.

Lemma backend_wf : wf backend.
Proof. by intros n r ?. Qed.

Lemma parserLoaded_wf : wf parserLoaded.
Proof. apply (bool_decide_unpack _). vm_compute. exact I. Qed.

Lemma cyclic_wf : wf cyclic.
Proof. apply (bool_decide_unpack _). vm_compute. exact I. Qed.

Lemma shared_consistent : consistent (oneLoad "shared/Main.g4") shared.
Proof. exact (loadGrammar_consistent _ _ _ _ _ _ _ (consistent_new ".") shared_run). Qed.

Lemma sharedEdited_consistent : consistent (oneLoad "shared/Main.g4") sharedEdited.
Proof. exact (setText_consistent _ _ _ _ _ shared_consistent sharedEdited_run). Qed.

(** ** C1 *)



(** ** C2 *)

(** The grammar with the shared dependency and the grammar [Base] it imports
    are both loaded, and the dependency [Common] they share was released by a
    caller that never loaded it.  Releasing the first grammar then removes
    [Common] from the map, although [Base] stays in the map, with count 1, and
    still names [Common] in its dependency list. *)
Lemma releaseGrammar_counts_counterexample :
  loadGrammar 5 "shared/Main.g4" None backend = Some (0%nat, shared) ∧
  loadGrammar 5 "shared/Base.g4" None shared = Some (1%nat, sharedTwice) ∧
  releaseGrammar "shared/Common.g4" sharedTwice = Some (tt, commonReleased) ∧
  depsAt commonReleased 0%nat = ["shared/Base.g4"; "shared/Common.g4"] ∧
  refCountOf commonReleased "shared/Common.g4" = Some 1 ∧
  ∃ st', releaseGrammar "shared/Main.g4" commonReleased = Some (tt, st') ∧
         sourceContexts st' !! "shared/Main.g4" = None ∧
         sourceContexts st' !! "shared/Base.g4" = Some 1%nat ∧
         refCountOf st' "shared/Base.g4" = Some 1 ∧
         depsAt st' 1%nat = ["shared/Common.g4"] ∧
         sourceContexts st' !! "shared/Common.g4" = None.
Proof.
  split; [vm_compute; reflexivity|]. split; [vm_compute; reflexivity|].
  split; [vm_compute; reflexivity|]. split; [vm_compute; reflexivity|].
  split; [vm_compute; reflexivity|].
  exists (after (releaseGrammar "shared/Main.g4") commonReleased).
  split_and!; vm_compute; reflexivity.
Qed.

(** Releasing the grammar with the shared dependency, which has one holder. *)
Lemma releaseGrammar_counts_witness :
  wf shared ∧
  sourceContexts shared !! "shared/Main.g4" = Some 0%nat ∧
  refCountOf shared "shared/Main.g4" = Some 1 ∧
  consistent (oneLoad "shared/Main.g4") shared ∧
  (0 < oneLoad "shared/Main.g4" "shared/Main.g4")%nat ∧
  ∃ st', releaseGrammar "shared/Main.g4" shared = Some (tt, st') ∧
         sourceContexts st' !! "shared/Main.g4" = None ∧
         consistent (releasedBy (oneLoad "shared/Main.g4") "shared/Main.g4") st'.
Proof.
  assert (Hname : sourceContexts shared !! "shared/Main.g4" = Some 0%nat)
    by (vm_compute; reflexivity).
  assert (Hrc : refCountOf shared "shared/Main.g4" = Some 1) by (vm_compute; reflexivity).
  assert (Hheld : (0 < oneLoad "shared/Main.g4" "shared/Main.g4")%nat)
    by (vm_compute; lia).
  split; [exact (proj1 shared_consistent)|]. split; [exact Hname|]. split; [exact Hrc|].
  split; [exact shared_consistent|]. split; [exact Hheld|].
  destruct (refCountOf_Some _ _ _ Hrc) as (ce & e & Hname' & He & Hrce).
  rewrite Hname in Hname'. injection Hname' as <-.
  destruct (releaseGrammar_counts "shared/Main.g4" shared 0%nat e
              (proj1 shared_consistent) Hname He) as (_ & Hzero & Hcounts).
  destruct (Hzero Hrce) as (st' & Hrun & Hgone & _).
  destruct (Hcounts _ shared_consistent Hheld) as (st'' & Hrun' & Hinv & _).
  rewrite Hrun in Hrun'. injection Hrun' as <-.
  exists st'. split; [exact Hrun|]. split; [exact Hgone | exact Hinv].
Defined.

(** ** C3 *)

(** The grammar and both its imports are loaded; the shared import has count
    2.  The text is changed to import the shared grammar only, and the grammar
    is reparsed.  The shared import is in the old and in the new dependency
    set, and its count goes from 2 to 1, because the other old import, which
    also imported it, is unloaded. *)
Lemma reparse_dependencies_counterexample :
  ∃ st',
    reparse 5 "shared/Main.g4" sharedEdited = Some (tt, st') ∧
    depsAt sharedEdited 0 = ["shared/Base.g4"; "shared/Common.g4"] ∧
    depsAt st' 0 = ["shared/Common.g4"] ∧
    refCountOf sharedEdited "shared/Common.g4" = Some 2 ∧
    refCountOf st' "shared/Common.g4" = Some 1.
Proof.
  exists (after (reparse 5 "shared/Main.g4") sharedEdited).
  split_and!; vm_compute; reflexivity.
Qed.

Lemma reparse_dependencies_witness :
  wf sharedEdited ∧
  sourceContexts sharedEdited !! "shared/Main.g4" = Some 0%nat ∧
  consistent (oneLoad "shared/Main.g4") sharedEdited ∧
  ∃ st', reparse 5 "shared/Main.g4" sharedEdited = Some (tt, st') ∧
         depsAt st' 0 = ["shared/Common.g4"] ∧
         consistent (oneLoad "shared/Main.g4") st'.
Proof.
  assert (Hname : sourceContexts sharedEdited !! "shared/Main.g4" = Some 0%nat)
    by (vm_compute; reflexivity).
  split; [exact (proj1 sharedEdited_consistent)|]. split; [exact Hname|].
  split; [exact sharedEdited_consistent|].
  destruct (objects sharedEdited !! 0%nat) as [e|] eqn:He; [|by vm_compute in He].
  destruct (resolveDependencies (loadGrammar 5) 0%nat sharedEdited) as [[olds st1]|] eqn:Hres;
    [|by vm_compute in Hres].
  destruct (reparse_dependencies 5 _ _ _ _ _ _ (proj1 sharedEdited_consistent) Hname He Hres)
    as (st' & Hrun & _ & _ & Hdeps & Hcounts).
  destruct (Hcounts _ sharedEdited_consistent) as (Hinv & _).
  exists st'. split; [exact Hrun|]. split; [|exact Hinv].
  rewrite Hdeps. vm_compute in He. injection He as <-. vm_compute. reflexivity.
Defined.

(** ** C4 *)

(** With the parser grammar and its lexer grammar loaded, the dependency
    contexts of the parser grammar are the one context of the lexer grammar;
    [getDiagnostics] and [countReferences] hand no context on. *)
Lemma queries_forwarding_counterexample :
  ∃ c call call',
    getDiagnostics 5 "test/backend/TParser.g4" parserLoaded = Some ((c, call), parserLoaded) ∧
    countReferences 5 "test/backend/TParser.g4" "ID" parserLoaded =
      Some ((c, call'), parserLoaded) ∧
    pushDependencyFiles 5 c [] parserLoaded = Some ([1%nat], parserLoaded) ∧
    forwardedDependencies call = [] ∧
    forwardedDependencies call' = [].
Proof.
  exists 0%nat, Call_getDiagnostics, (Call_getReferenceCount "ID").
  split_and!; vm_compute; reflexivity.
Qed.

(** ** C5 *)



(** ** C6 *)


(** ** C7 *)

(** The grammar [test/backend/t.g] does not exist.  Loading it on a new
    facade registers an entry for it with an empty dependency list and count
    1. *)
Lemma loadGrammar_unreadable_witness :
  sourceContexts backend !! "test/backend/t.g" = None ∧
  fs_statSync "test/backend/t.g" = false ∧
  snd (sc_parse (sc_setText (sc_new "test/backend/t.g") "")) = [] ∧
  ∃ st', loadGrammar 5 "test/backend/t.g" None backend = Some (0%nat, st') ∧
         refCountOf st' "test/backend/t.g" = Some 1 ∧
         depsAt st' 0%nat = [].
Proof.
  assert (Hname : sourceContexts backend !! "test/backend/t.g" = None) by reflexivity.
  assert (Hstat : fs_statSync "test/backend/t.g" = false) by (vm_compute; reflexivity).
  assert (Hparse : snd (sc_parse (sc_setText (sc_new "test/backend/t.g") "")) = [])
    by (vm_compute; reflexivity).
  split; [exact Hname|]. split; [exact Hstat|]. split; [exact Hparse|].
  destruct (loadGrammar_unreadable 4 "test/backend/t.g" backend Hname (or_introl Hstat) Hparse)
    as (_ & _ & Hrun).
  eexists. split; [exact Hrun|]. split; vm_compute; reflexivity.
Defined.

(** ** C8 *)

Lemma cycleLeft_wf : wf cycleLeft.
Proof. apply (bool_decide_unpack _). vm_compute. exact I. Qed.

(** A further release goes once around the cycle and returns, with both
    entries removed. *)
Lemma releaseGrammar_terminates_witness :
  wf cycleLeft ∧
  depsAt cycleLeft 0%nat = ["cycle/Pong.g4"] ∧
  depsAt cycleLeft 1%nat = ["cycle/Ping.g4"] ∧
  ∃ st', releaseGrammar "cycle/Ping.g4" cycleLeft = Some (tt, st') ∧
         wf st' ∧
         sourceContexts st' !! "cycle/Ping.g4" = None ∧
         sourceContexts st' !! "cycle/Pong.g4" = None.
Proof.
  split; [exact cycleLeft_wf|].
  split; [vm_compute; reflexivity|]. split; [vm_compute; reflexivity|].
  destruct (releaseGrammar_terminates cycleLeft "cycle/Ping.g4" cycleLeft_wf)
    as ((st' & Hrun & _ & Hwf' & _) & _).
  exists st'. split; [exact Hrun|]. split; [exact Hwf'|].
  vm_compute in Hrun. injection Hrun as <-. split; vm_compute; reflexivity.
Defined.

(** ** C10 *)

Lemma lexerBroken_wf : wf lexerBroken.
Proof. apply (bool_decide_unpack _). vm_compute. exact I. Qed.

(** With errors in the grammar itself but none in its dependency the
    callback is handed to the context, as without errors. *)
Example generateSentence_own_errors :
  hasErrorsAt parserBroken 0%nat = true ∧
  hasErrorsAt parserBroken 1%nat = false ∧
  generateSentence 5 "test/backend/TParser.g4" "r" tt parserBroken =
    Some (Generated 0%nat (Call_generateSentence [1%nat] "r" tt),
          after (generateSentence 5 "test/backend/TParser.g4" "r" tt) parserBroken).
Proof. split_and!; vm_compute; reflexivity. Qed.

(** ** C9 *)

(** Two grammars are loaded and the reported count is 0. *)
Example getSelfDiagnostics_two_contexts :
  size (sourceContexts parserLoaded) = 2%nat ∧
  contextCount (getSelfDiagnostics parserLoaded) = 0%Z.
Proof. split; vm_compute; reflexivity. Qed.

(** ** The test of the repository for loading and unloading

    [Base Handling] of [test/backend/test.ts]: a grammar is loaded and
    released; a grammar without a file is loaded, as a different instance, and
    released; the first grammar is loaded twice, which gives the same
    instance both times, and released once. *)
Example base_handling :
  ∃ st1 st2 st3 st4 st5 st6 st7 c1 context c1' context',
    loadGrammar 5 "test/backend/t.g4" None backend = Some (c1, st1) ∧
    releaseGrammar "test/backend/t.g4" st1 = Some (tt, st2) ∧
    loadGrammar 5 "test/backend/t.g" None st2 = Some (context, st3) ∧
    context ≠ c1 ∧
    releaseGrammar "test/backend/t.g" st3 = Some (tt, st4) ∧
    loadGrammar 5 "test/backend/t.g4" None st4 = Some (c1', st5) ∧
    loadGrammar 5 "test/backend/t.g4" None st5 = Some (context', st6) ∧
    context' = c1' ∧
    releaseGrammar "test/backend/t.g4" st6 = Some (tt, st7) ∧
    refCountOf st7 "test/backend/t.g4" = Some 1%Z.
Proof.
  set (st1 := after (loadGrammar 5 "test/backend/t.g4" None) backend).
  set (st2 := after (releaseGrammar "test/backend/t.g4") st1).
  set (st3 := after (loadGrammar 5 "test/backend/t.g" None) st2).
  set (st4 := after (releaseGrammar "test/backend/t.g") st3).
  set (st5 := after (loadGrammar 5 "test/backend/t.g4" None) st4).
  set (st6 := after (loadGrammar 5 "test/backend/t.g4" None) st5).
  set (st7 := after (releaseGrammar "test/backend/t.g4") st6).
  exists st1, st2, st3, st4, st5, st6, st7, 0%nat, 1%nat, 2%nat, 2%nat.
  split_and!; try (vm_compute; reflexivity). lia.
Qed.

End Witnesses.

(** * The further properties at work in the small world *)

Section FurtherWitnesses.
Import Demo DemoQueries.
Local Open Scope string_scope.

Lemma run_state {A} (a b : A) (s s' : AntlrFacade) :
  Some (a, s) = Some (b, s') → s = s'.
Proof. by intros [= _ ->]. Qed.

Lemma run_value {A} (a b : A) (s s' : AntlrFacade) :
  Some (a, s) = Some (b, s') → a = b.
Proof. by intros [= -> _]. Qed.

(** The set of files of the small world holds what its files import. *)
Lemma fileSet_importClosed : importClosed "." fileSet.
Proof.
  assert (Hall : Forall (λ p, Forall (λ d, d ∈ files.*1)
                                (imports (newAntlrFacade ".") (loadedEntry p None)))
                   (files.*1)).
  { apply (bool_decide_unpack _). vm_compute. exact I. }
  intros p d Hp Hd. apply elem_of_list_to_set in Hp. apply elem_of_list_to_set.
  rewrite Forall_forall in Hall. specialize (Hall p Hp).
  rewrite Forall_forall in Hall. by apply Hall.
Qed.

Lemma ping_file : "cycle/Ping.g4" ∈ fileSet.
Proof. apply elem_of_list_to_set. apply (bool_decide_unpack _). vm_compute. exact I. Qed.

Lemma common_file : "shared/Common.g4" ∈ fileSet.
Proof. apply elem_of_list_to_set. apply (bool_decide_unpack _). vm_compute. exact I. Qed.

(** Loading one of the two grammars that import each other. *)
Lemma loadGrammar_terminates_witness :
  importClosed (importDir backend) fileSet ∧
  (∀ d, d ∈ imports backend (loadedEntry "cycle/Ping.g4" None) → d ∈ fileSet) ∧
  wf backend ∧ (missing fileSet backend + 1 < 10)%nat ∧
  ∃ r st', loadGrammar 10 "cycle/Ping.g4" None backend = Some (r, st') ∧
           sourceContexts st' !! "cycle/Ping.g4" = Some r.
Proof.
  assert (Hm : (missing fileSet backend + 1 < 10)%nat) by (vm_compute; lia).
  pose proof (λ d, fileSet_importClosed "cycle/Ping.g4" d ping_file) as Hroot.
  split; [exact fileSet_importClosed|]. split; [exact Hroot|].
  split; [exact backend_wf|]. split; [exact Hm|].
  destruct (loadGrammar_terminates fileSet 10 "cycle/Ping.g4" None backend
              fileSet_importClosed Hroot backend_wf Hm)
    as (r & st' & Hrun & _ & _ & Hname & _).
  exact (ex_intro _ r (ex_intro _ st' (conj Hrun Hname))).
Defined.

Lemma sharedEdited_wf : wf sharedEdited.
Proof. apply sharedEdited_consistent. Qed.

(** The edited text of the grammar with a shared dependency names one
    grammar, which is one of the files. *)
Lemma sharedEdited_imports ce e d :
  sourceContexts sharedEdited !! "shared/Main.g4" = Some ce →
  objects sharedEdited !! ce = Some e →
  d ∈ imports sharedEdited e → d ∈ fileSet.
Proof.
  assert (Hname : sourceContexts sharedEdited !! "shared/Main.g4" = Some 0%nat)
    by (vm_compute; reflexivity).
  assert (∃ e0, objects sharedEdited !! 0%nat = Some e0 ∧
                imports sharedEdited e0 = ["shared/Common.g4"]) as (e0 & He0 & Himp)
    by (eexists; split; [vm_compute; reflexivity|vm_compute; reflexivity]).
  rewrite Hname. intros [= <-]. rewrite He0. intros [= <-]. rewrite Himp.
  intros ->%list_elem_of_singleton. exact common_file.
Qed.

Lemma reparse_terminates_witness :
  importClosed (importDir sharedEdited) fileSet ∧
  (∀ ce e d, sourceContexts sharedEdited !! "shared/Main.g4" = Some ce →
     objects sharedEdited !! ce = Some e → d ∈ imports sharedEdited e → d ∈ fileSet) ∧
  wf sharedEdited ∧ (missing fileSet sharedEdited < 6)%nat ∧
  ∃ st', reparse 6 "shared/Main.g4" sharedEdited = Some (tt, st') ∧ wf st'.
Proof.
  assert (Hm : (missing fileSet sharedEdited < 6)%nat) by (vm_compute; lia).
  split; [exact fileSet_importClosed|]. split; [exact sharedEdited_imports|].
  split; [exact sharedEdited_wf|]. split; [exact Hm|].
  destruct (reparse_terminates fileSet 6 "shared/Main.g4" sharedEdited
              fileSet_importClosed sharedEdited_imports sharedEdited_wf Hm)
    as ((st' & Hrun & _ & Hwf) & _).
  exact (ex_intro _ st' (conj Hrun Hwf)).
Defined.

Lemma cyclic_cycle : cyclicFrom cyclic 0.
Proof.
  exists 0%nat. split; [by left|].
  eapply (reaches_step cyclic 0 _ "cycle/Pong.g4" 1);
    [vm_compute; reflexivity|simpl; by left|vm_compute; reflexivity|].
  eapply (reaches_direct cyclic 1 _ "cycle/Ping.g4" 0);
    [vm_compute; reflexivity|simpl; by left|vm_compute; reflexivity].
Qed.

Lemma dependency_cycle_diverges_witness :
  sourceContexts cyclic !! "cycle/Ping.g4" = Some 0%nat ∧
  cyclicFrom cyclic 0 ∧
  getDependencies 5 "cycle/Ping.g4" cyclic = None ∧
  generate 5 "cycle/Ping.g4" tt cyclic = None.
Proof.
  assert (Hname : sourceContexts cyclic !! "cycle/Ping.g4" = Some 0%nat)
    by (vm_compute; reflexivity).
  split; [exact Hname|]. split; [exact cyclic_cycle|].
  destruct (dependency_cycle_diverges 5 "cycle/Ping.g4" 0 cyclic Hname cyclic_cycle)
    as (_ & Hdeps & Hgen & _).
  split; [exact Hdeps|apply Hgen].
Defined.

Lemma parserLoaded_acyclic : ¬ cyclicFrom parserLoaded 0.
Proof.
  apply (ranked_acyclic rank). intros r e d r' He Hd Hm.
  destruct r as [|[|r]]; vm_compute in He; [| |discriminate He].
  - injection He as <-. simpl in Hd. apply list_elem_of_singleton in Hd as ->.
    vm_compute in Hm. injection Hm as <-. vm_compute. lia.
  - injection He as <-. simpl in Hd. by apply elem_of_nil in Hd.
Qed.

Lemma parserLoaded_objects : (length (objects parserLoaded) < 5)%nat.
Proof. vm_compute. lia. Qed.

Lemma lexerBroken_acyclic : ¬ cyclicFrom lexerBroken 0.
Proof.
  apply (ranked_acyclic rank). intros r e d r' He Hd Hm.
  destruct r as [|[|r]]; vm_compute in He; [| |discriminate He].
  - injection He as <-. simpl in Hd. apply list_elem_of_singleton in Hd as ->.
    vm_compute in Hm. injection Hm as <-. vm_compute. lia.
  - injection He as <-. simpl in Hd. by apply elem_of_nil in Hd.
Qed.

Lemma parserBroken_acyclic : ¬ cyclicFrom parserBroken 0.
Proof.
  apply (ranked_acyclic rank). intros r e d r' He Hd Hm.
  destruct r as [|[|r]]; vm_compute in He; [| |discriminate He].
  - injection He as <-. simpl in Hd. apply list_elem_of_singleton in Hd as ->.
    vm_compute in Hm. injection Hm as <-. vm_compute. lia.
  - injection He as <-. simpl in Hd. by apply elem_of_nil in Hd.
Qed.

Lemma dependency_gathering_terminates_witness :
  wf parserLoaded ∧
  sourceContexts parserLoaded !! "test/backend/TParser.g4" = Some 0%nat ∧
  ¬ cyclicFrom parserLoaded 0 ∧
  (length (objects parserLoaded) < 5)%nat ∧
  ∃ names, getDependencies 5 "test/backend/TParser.g4" parserLoaded =
             Some (names, parserLoaded).
Proof.
  assert (Hname : sourceContexts parserLoaded !! "test/backend/TParser.g4" = Some 0%nat)
    by (vm_compute; reflexivity).
  assert (Hlen : (length (objects parserLoaded) < 5)%nat) by (vm_compute; lia).
  split; [exact parserLoaded_wf|]. split; [exact Hname|]. split; [exact parserLoaded_acyclic|].
  split; [exact Hlen|].
  destruct (dependency_gathering_terminates 5 "test/backend/TParser.g4" 0 parserLoaded
              parserLoaded_wf Hname parserLoaded_acyclic Hlen) as (_ & Hdeps & _).
  exact Hdeps.
Defined.

Lemma parserLoaded_dependencies :
  pushDependencyFiles 5 0 [] parserLoaded = Some ([1%nat], parserLoaded).
Proof. vm_compute. reflexivity. Qed.

Lemma parserLoaded_context :
  getContext 5 "test/backend/TParser.g4" None parserLoaded = Some (0%nat, parserLoaded).
Proof. vm_compute. reflexivity. Qed.

Lemma demo_laws : FileNameLaws.
Proof. constructor; intros; try split; reflexivity. Qed.

Lemma parserLoaded_reachable : reachable (oneLoad "test/backend/TParser.g4") parserLoaded.
Proof.
  apply (reachable_perform (λ _, 0%nat) backend 5
           (DoLoadGrammar "test/backend/TParser.g4" None) parserLoaded).
  - apply (reachable_new ".").
  - exact I.
  - simpl. rewrite (op_bind_run _ _ _ _ _ parserLoaded_run). reflexivity.
Qed.

Lemma shared_reachable : reachable (oneLoad "shared/Main.g4") shared.
Proof.
  apply (reachable_perform (λ _, 0%nat) backend 5
           (DoLoadGrammar "shared/Main.g4" None) shared).
  - apply (reachable_new ".").
  - exact I.
  - simpl. rewrite (op_bind_run _ _ _ _ _ shared_run). reflexivity.
Qed.

Lemma parserLoaded_name :
  sourceContexts parserLoaded !! "test/backend/TParser.g4" = Some 0%nat.
Proof. vm_compute. reflexivity. Qed.

Lemma getDependencies_closure_witness :
  sourceContexts parserLoaded !! "test/backend/t.g4" = None ∧
  getDependencies 5 "test/backend/t.g4" parserLoaded = Some ([], parserLoaded) ∧
  wf parserLoaded ∧
  sourceContexts parserLoaded !! "test/backend/TParser.g4" = Some 0%nat ∧
  ¬ cyclicFrom parserLoaded 0 ∧
  (length (objects parserLoaded) < 5)%nat ∧
  ∃ names, getDependencies 5 "test/backend/TParser.g4" parserLoaded =
             Some (names, parserLoaded) ∧
           (∀ p, p ∈ names ↔
              ∃ r, sourceContexts parserLoaded !! p = Some r ∧ reaches parserLoaded 0 r).
Proof.
  assert (Hnone : sourceContexts parserLoaded !! "test/backend/t.g4" = None)
    by (vm_compute; reflexivity).
  destruct (getDependencies_closure 5 "test/backend/t.g4" parserLoaded) as (Hempty & _).
  destruct (getDependencies_closure 5 "test/backend/TParser.g4" parserLoaded) as (_ & Hloaded).
  destruct (Hloaded 0%nat parserLoaded_wf parserLoaded_name) as (_ & Hreturns).
  destruct (Hreturns parserLoaded_acyclic parserLoaded_objects)
    as (deps & names & _ & Hrun & _ & _ & Hpaths).
  destruct (Hpaths (proj2 (reachable_keys demo_laws _ _ parserLoaded_reachable)))
    as (_ & Hiff).
  exact (conj Hnone (conj (Hempty Hnone) (conj parserLoaded_wf (conj parserLoaded_name
    (conj parserLoaded_acyclic (conj parserLoaded_objects
      (ex_intro _ names (conj Hrun Hiff)))))))).
Defined.

Example getDependencies_parser :
  getDependencies 5 "test/backend/TParser.g4" parserLoaded =
    Some (["test/backend/TLexer.g4"], parserLoaded).
Proof. vm_compute. reflexivity. Qed.

Lemma getSymbolOccurrences_sorted_witness :
  ∃ e, getContext 5 "test/backend/TParser.g4" None parserLoaded = Some (0%nat, parserLoaded) ∧
       objects parserLoaded !! 0%nat = Some e ∧
       sc_getSymbolOccurrences (context e) "ID" false = occurrencesOfID ∧
       ∃ result, getSymbolOccurrences 5 "test/backend/TParser.g4" "ID" parserLoaded =
                   Some (result, parserLoaded) ∧
                 StronglySorted byKind result ∧
                 ofKind TokenReference result = ofKind TokenReference occurrencesOfID.
Proof.
  assert (∃ e, objects parserLoaded !! 0%nat = Some e) as (e & He)
    by (eexists; vm_compute; reflexivity).
  exists e. split; [exact parserLoaded_context|]. split; [exact He|]. split; [reflexivity|].
  destruct (getSymbolOccurrences_sorted 5 "test/backend/TParser.g4" "ID" parserLoaded
              parserLoaded 0%nat e parserLoaded_context He)
    as (result & Hrun & _ & Hsorted & Hstable & _).
  exact (ex_intro _ result (conj Hrun (conj Hsorted (Hstable TokenReference)))).
Defined.

Example getSymbolOccurrences_ID :
  getSymbolOccurrences 5 "test/backend/TParser.g4" "ID" parserLoaded =
    Some ([ occurrence LexerRule "ID" "test/backend/TLexer.g4";
            occurrence TokenReference "ID" "test/backend/TParser.g4";
            occurrence TokenReference "ID" "test/backend/TLexer.g4";
            occurrence RuleReference "ID" "test/backend/TParser.g4" ], parserLoaded).
Proof. vm_compute. reflexivity. Qed.

Lemma getSymbolOccurrences_references_last_witness :
  getSymbolOccurrences 5 "test/backend/TParser.g4" "ID" parserLoaded =
    Some ([ occurrence LexerRule "ID" "test/backend/TLexer.g4";
            occurrence TokenReference "ID" "test/backend/TParser.g4";
            occurrence TokenReference "ID" "test/backend/TLexer.g4";
            occurrence RuleReference "ID" "test/backend/TParser.g4" ], parserLoaded) ∧
  isReference (occurrence TokenReference "ID" "test/backend/TParser.g4") ∧
  ∀ y, y ∈ [ occurrence TokenReference "ID" "test/backend/TLexer.g4";
             occurrence RuleReference "ID" "test/backend/TParser.g4" ] → isReference y.
Proof.
  assert (Hx : isReference (occurrence TokenReference "ID" "test/backend/TParser.g4"))
    by (left; reflexivity).
  split; [exact getSymbolOccurrences_ID|]. split; [exact Hx|].
  exact (proj1 (getSymbolOccurrences_references_last 5 "test/backend/TParser.g4" "ID"
    parserLoaded parserLoaded _ [occurrence LexerRule "ID" "test/backend/TLexer.g4"] _ _
    getSymbolOccurrences_ID eq_refl Hx)).
Defined.

Lemma parserBroken_wf : wf parserBroken.
Proof. apply (bool_decide_unpack _). vm_compute. exact I. Qed.

Lemma parserBroken_context :
  getContext 5 "test/backend/TParser.g4" None parserBroken = Some (0%nat, parserBroken).
Proof. vm_compute. reflexivity. Qed.

Lemma parserBroken_objects : (length (objects parserBroken) < 5)%nat.
Proof. vm_compute. lia. Qed.

Lemma createDebugger_errors_witness :
  wf parserBroken ∧
  getContext 5 "test/backend/TParser.g4" None parserBroken = Some (0%nat, parserBroken) ∧
  ¬ cyclicFrom parserBroken 0 ∧
  (length (objects parserBroken) < 5)%nat ∧
  hasErrorsAt parserBroken 0 = true ∧
  ∃ st2, createDebugger 5 "test/backend/TParser.g4" "" "data" parserBroken = Some (None, st2).
Proof.
  assert (Herr : hasErrorsAt parserBroken 0 = true) by (vm_compute; reflexivity).
  split; [exact parserBroken_wf|]. split; [exact parserBroken_context|].
  split; [exact parserBroken_acyclic|]. split; [exact parserBroken_objects|].
  split; [exact Herr|].
  destruct (createDebugger_errors 5 "test/backend/TParser.g4" "" "data" parserBroken
              parserBroken 0%nat parserBroken_wf parserBroken_context
              parserBroken_acyclic parserBroken_objects)
    as (deps & _ & _ & _ & st2 & _ & Hiff).
  exact (ex_intro _ st2 (proj1 Hiff (or_introl Herr))).
Defined.

Lemma interpreters_prepared_witness :
  wf parserLoaded ∧
  getContext 5 "test/backend/TParser.g4" None parserLoaded = Some (0%nat, parserLoaded) ∧
  ¬ cyclicFrom parserLoaded 0 ∧
  (length (objects parserLoaded) < 5)%nat ∧
  ∃ outcome st2,
    generateSentence 5 "test/backend/TParser.g4" "r" tt parserLoaded = Some (outcome, st2) ∧
    interpreterData ∘ context <$> objects st2 !! 1%nat = Some (Some "test/backend/.antlr") ∧
    objects st2 !! 0%nat = objects parserLoaded !! 0%nat.
Proof.
  split; [exact parserLoaded_wf|]. split; [exact parserLoaded_context|].
  split; [exact parserLoaded_acyclic|]. split; [exact parserLoaded_objects|].
  destruct (interpreters_prepared 5 "test/backend/TParser.g4" parserLoaded parserLoaded
              0%nat parserLoaded_wf parserLoaded_context parserLoaded_acyclic
              parserLoaded_objects) as (deps & Hpush & Hsen & _).
  pose proof (run_value _ _ _ _ (eq_trans (eq_sym Hpush) parserLoaded_dependencies)) as ->.
  destruct (Hsen "r" tt) as (outcome & st2 & Hrun & _ & Hobj).
  exists outcome, st2. split; [exact Hrun|]. split.
  - rewrite (Hobj 1%nat). vm_compute. reflexivity.
  - rewrite (Hobj 0%nat). vm_compute. reflexivity.
Defined.

Lemma loadGrammar_frame_witness :
  ∃ st', loadGrammar 5 "test/backend/t.g4" None parserLoaded = Some (2%nat, st') ∧
         sourceContexts st' !! "test/backend/TParser.g4" = Some 0%nat ∧
         sourceContexts st' !! "test/backend/TLexer.g4" = Some 1%nat ∧
         importDir st' = importDir parserLoaded.
Proof.
  assert (Hrun : loadGrammar 5 "test/backend/t.g4" None parserLoaded =
                   Some (2%nat, after (loadGrammar 5 "test/backend/t.g4" None) parserLoaded))
    by (vm_compute; reflexivity).
  exists (after (loadGrammar 5 "test/backend/t.g4" None) parserLoaded).
  split; [exact Hrun|].
  destruct (loadGrammar_frame 5 "test/backend/t.g4" None parserLoaded _ 2%nat Hrun)
    as (Hdir & Hmap & _).
  split; [apply Hmap; vm_compute; reflexivity|].
  split; [apply Hmap; vm_compute; reflexivity|exact Hdir].
Defined.

Lemma loadGrammar_new_dependencies_witness :
  sourceContexts backend !! "shared/Main.g4" = None ∧
  loadGrammar 5 "shared/Main.g4" None backend = Some (0%nat, shared) ∧
  depsAt shared 0 = ["shared/Base.g4"; "shared/Common.g4"] ∧
  ∃ e, objects shared !! 0%nat = Some e ∧
       ∀ d, d ∈ dependencies e → is_Some (sourceContexts shared !! d).
Proof.
  assert (Hnone : sourceContexts backend !! "shared/Main.g4" = None) by reflexivity.
  split; [exact Hnone|]. split; [exact shared_run|]. split; [vm_compute; reflexivity|].
  destruct (loadGrammar_new_dependencies 5 "shared/Main.g4" None backend shared 0%nat
              Hnone shared_run) as (e & He & _ & _ & _ & Hloaded).
  exact (ex_intro _ e (conj He Hloaded)).
Defined.

Lemma loadGrammar_source_witness :
  is_Some (sourceContexts parserLoaded !! "test/backend/TLexer.g4") ∧
  loadGrammar 5 "test/backend/TLexer.g4" (Some plainText) parserLoaded =
    loadGrammar 5 "test/backend/TLexer.g4" None parserLoaded ∧
  loadGrammar 5 "test/backend/t.g4" (Some "") backend =
    loadGrammar 5 "test/backend/t.g4" None backend ∧
  initialSource "test/backend/t.g4" (Some lexerText) = lexerText.
Proof.
  assert (Hloaded : is_Some (sourceContexts parserLoaded !! "test/backend/TLexer.g4"))
    by (exists 1%nat; vm_compute; reflexivity).
  destruct (loadGrammar_source 5 "test/backend/TLexer.g4" (Some plainText) parserLoaded)
    as (Hignored & _).
  destruct (loadGrammar_source 5 "test/backend/t.g4" None backend)
    as (_ & Hempty & _ & Htext & _).
  split; [exact Hloaded|]. split; [exact (proj1 (Hignored Hloaded))|].
  split; [exact Hempty|]. apply Htext. discriminate.
Defined.

Lemma reachable_consistent_witness :
  reachable (oneLoad "shared/Main.g4") shared ∧
  consistent (oneLoad "shared/Main.g4") shared ∧
  ∃ k, refCountOf shared "shared/Main.g4" = Some k ∧ (1 ≤ k)%Z.
Proof.
  destruct (reachable_consistent _ _ shared_reachable) as (Hinv & Hheld & _).
  split; [exact shared_reachable|]. split; [exact Hinv|].
  apply (Hheld "shared/Main.g4"). vm_compute. lia.
Defined.

Lemma releaseGrammar_local_witness :
  wf parserLoaded ∧
  sourceContexts parserLoaded !! "test/backend/TLexer.g4" = Some 1%nat ∧
  ¬ reaches parserLoaded 1 0 ∧
  ∃ st', releaseGrammar "test/backend/TLexer.g4" parserLoaded = Some (tt, st') ∧
         sourceContexts st' !! "test/backend/TLexer.g4" = None ∧
         objects st' !! 0%nat = objects parserLoaded !! 0%nat ∧
         sourceContexts st' !! "test/backend/TParser.g4" = Some 0%nat.
Proof.
  assert (Hname : sourceContexts parserLoaded !! "test/backend/TLexer.g4" = Some 1%nat)
    by (vm_compute; reflexivity).
  assert (Hnot : ¬ reaches parserLoaded 1 0).
  { intros Hr. eapply reaches_inv in Hr; [|vm_compute; reflexivity].
    destruct Hr as (d & r' & Hd & _). simpl in Hd. by apply elem_of_nil in Hd. }
  split; [exact parserLoaded_wf|]. split; [exact Hname|]. split; [exact Hnot|].
  assert (Hrun : releaseGrammar "test/backend/TLexer.g4" parserLoaded =
                   Some (tt, after (releaseGrammar "test/backend/TLexer.g4") parserLoaded))
    by (vm_compute; reflexivity).
  exists (after (releaseGrammar "test/backend/TLexer.g4") parserLoaded).
  split; [exact Hrun|]. split; [vm_compute; reflexivity|].
  destruct (releaseGrammar_local "test/backend/TLexer.g4" parserLoaded _ 1%nat 0%nat
              parserLoaded_wf Hrun Hname (λ H, O_S _ H) Hnot) as (Hobj & Hmap & _).
  split; [exact Hobj|]. apply Hmap. exact parserLoaded_name.
Defined.

Lemma shared_wf : wf shared.
Proof. apply shared_consistent. Qed.

Lemma setText_reparse_witness :
  wf shared ∧
  sourceContexts shared !! "shared/Main.g4" = Some 0%nat ∧
  ∃ e st1 st2,
    objects shared !! 0%nat = Some e ∧
    setText "shared/Main.g4" mainText' shared = Some (tt, st1) ∧
    depsAt st1 0 = ["shared/Base.g4"; "shared/Common.g4"] ∧
    reparse 5 "shared/Main.g4" st1 = Some (tt, st2) ∧
    depsAt st2 0 = ["shared/Common.g4"] ∧
    consistent (oneLoad "shared/Main.g4") st2.
Proof.
  assert (Hname : sourceContexts shared !! "shared/Main.g4" = Some 0%nat)
    by (vm_compute; reflexivity).
  split; [exact shared_wf|]. split; [exact Hname|].
  assert (∃ e, objects shared !! 0%nat = Some e) as (e & He)
    by (eexists; vm_compute; reflexivity).
  exists e.
  destruct (setText_reparse 5 "shared/Main.g4" mainText' shared 0%nat e shared_wf Hname He)
    as (st1 & Hset & _ & _ & Hold & Hre).
  assert (Hst1 : st1 = sharedEdited).
  { pose proof sharedEdited_run as Hse. rewrite Hset in Hse.
    exact (run_state _ _ _ _ Hse). }
  subst st1.
  exists sharedEdited, (after (reparse 5 "shared/Main.g4") sharedEdited).
  assert (Hrun : reparse 5 "shared/Main.g4" sharedEdited =
                   Some (tt, after (reparse 5 "shared/Main.g4") sharedEdited))
    by (vm_compute; reflexivity).
  destruct (Hre _ Hrun) as (Hnew & Hinv).
  split; [exact He|]. split; [exact Hset|]. split; [vm_compute; reflexivity|].
  split; [exact Hrun|]. split; [vm_compute; reflexivity|].
  exact (Hinv _ shared_consistent).
Defined.

Lemma reachable_fileNames_witness :
  FileNameLaws ∧
  reachable (oneLoad "test/backend/TParser.g4") parserLoaded ∧
  ¬ cyclicFrom parserLoaded 0 ∧
  ∃ names, getDependencies 5 "test/backend/TParser.g4" parserLoaded =
             Some (names, parserLoaded) ∧ NoDup names.
Proof.
  split; [exact demo_laws|]. split; [exact parserLoaded_reachable|].
  split; [exact parserLoaded_acyclic|].
  destruct (reachable_fileNames demo_laws _ _ parserLoaded_reachable) as (_ & _ & Hdeps).
  destruct (Hdeps 5%nat "test/backend/TParser.g4" 0%nat parserLoaded_name
              parserLoaded_acyclic parserLoaded_objects) as (names & Hrun & Hnd & _).
  exact (ex_intro _ names (conj Hrun Hnd)).
Defined.

Lemma reparse_keeps_instances_witness :
  consistent (oneLoad "shared/Main.g4") sharedEdited ∧
  (0 < oneLoad "shared/Main.g4" "shared/Main.g4")%nat ∧
  ∃ st', reparse 5 "shared/Main.g4" sharedEdited = Some (tt, st') ∧
         sourceContexts st' !! "shared/Main.g4" = Some 0%nat ∧
         sourceContexts st' !! "shared/Common.g4" =
           sourceContexts sharedEdited !! "shared/Common.g4".
Proof.
  assert (Hheld : (0 < oneLoad "shared/Main.g4" "shared/Main.g4")%nat) by (vm_compute; lia).
  assert (Hname : sourceContexts sharedEdited !! "shared/Main.g4" = Some 0%nat)
    by (vm_compute; reflexivity).
  assert (∃ e, objects sharedEdited !! 0%nat = Some e ∧ "shared/Common.g4" ∈ dependencies e)
    as (e & He & Hold).
  { eexists. split; [vm_compute; reflexivity|]. simpl. right. left. }
  assert (Hrun : reparse 5 "shared/Main.g4" sharedEdited =
                   Some (tt, after (reparse 5 "shared/Main.g4") sharedEdited))
    by (vm_compute; reflexivity).
  assert (Hnew : "shared/Common.g4" ∈ depsAt (after (reparse 5 "shared/Main.g4") sharedEdited) 0).
  { replace (depsAt (after (reparse 5 "shared/Main.g4") sharedEdited) 0)
      with ["shared/Common.g4"] by (vm_compute; reflexivity). left. }
  destruct (reparse_keeps_instances 5 "shared/Main.g4" _ sharedEdited _ 0%nat e
              sharedEdited_consistent Hheld Hname He Hrun) as (Hown & Hdeps).
  split; [exact sharedEdited_consistent|]. split; [exact Hheld|].
  exact (ex_intro _ _ (conj Hrun (conj Hown (proj2 (Hdeps _ Hold Hnew))))).
Defined.

Lemma load_release_roundtrip_witness :
  ∃ e, sourceContexts parserLoaded !! "test/backend/TLexer.g4" = Some 1%nat ∧
       objects parserLoaded !! 1%nat = Some e ∧ refCount e ≠ 0%Z ∧
       ∃ st1, loadGrammar 5 "test/backend/TLexer.g4" None parserLoaded = Some (1%nat, st1) ∧
              releaseGrammar "test/backend/TLexer.g4" st1 = Some (tt, parserLoaded).
Proof.
  assert (Hname : sourceContexts parserLoaded !! "test/backend/TLexer.g4" = Some 1%nat)
    by (vm_compute; reflexivity).
  assert (∃ e, objects parserLoaded !! 1%nat = Some e ∧ refCount e ≠ 0%Z) as (e & He & Hrc).
  { eexists. split; [vm_compute; reflexivity|]. simpl. discriminate. }
  exists e. split; [exact Hname|]. split; [exact He|]. split; [exact Hrc|].
  destruct (load_release_roundtrip 4 "test/backend/TLexer.g4" None parserLoaded 1%nat e
              Hname He Hrc) as (st1 & Hload & _ & Hrel).
  exact (ex_intro _ st1 (conj Hload Hrel)).
Defined.

Lemma cycleLeft_consistent :
  consistent (releasedBy (oneLoad "cycle/Ping.g4") "cycle/Ping.g4") cycleLeft.
Proof.
  pose proof (loadGrammar_consistent (λ _, 0%nat) 5 "cycle/Ping.g4" None backend 0%nat
                cyclic (consistent_new ".") cyclic_run) as Hinv.
  destruct (releaseGrammar_consistent _ "cycle/Ping.g4" cyclic Hinv) as (st' & Hrun & Hinv').
  { vm_compute. lia. }
  assert (Hst : st' = cycleLeft).
  { assert (Hleft : releaseGrammar "cycle/Ping.g4" cyclic = Some (tt, cycleLeft))
      by (vm_compute; reflexivity).
    rewrite Hrun in Hleft. exact (run_state _ _ _ _ Hleft). }
  rewrite Hst in Hinv'. exact Hinv'.
Qed.

Lemma loaded_needed_witness :
  consistent (releasedBy (oneLoad "cycle/Ping.g4") "cycle/Ping.g4") cycleLeft ∧
  (∀ h, releasedBy (oneLoad "cycle/Ping.g4") "cycle/Ping.g4" h = 0%nat) ∧
  sourceContexts cycleLeft !! "cycle/Pong.g4" = Some 1%nat ∧
  ∃ c, reaches cycleLeft c c ∧ (c = 1%nat ∨ reaches cycleLeft c 1).
Proof.
  assert (Hname : sourceContexts cycleLeft !! "cycle/Pong.g4" = Some 1%nat)
    by (vm_compute; reflexivity).
  assert (Hnone : ∀ h, releasedBy (oneLoad "cycle/Ping.g4") "cycle/Ping.g4" h = 0%nat).
  { intros h. unfold releasedBy, oneLoad, loadedBy.
    destruct (decide (h = "cycle/Ping.g4")); reflexivity. }
  split; [exact cycleLeft_consistent|]. split; [exact Hnone|]. split; [exact Hname|].
  destruct (loaded_needed _ _ cycleLeft_consistent) as (Hwhy & _).
  destruct (Hwhy _ _ Hname) as [(h & rh & Hh & _)|Hcycle]; [|exact Hcycle].
  rewrite Hnone in Hh. lia.
Defined.

Example refresh_documents :
  TreeDataProvider.currentFile
    (TreeDataProvider.refresh (Some grammarDocument)
       (TreeDataProvider.refresh None (TreeDataProvider.newAntlrTreeDataProvider backend))) =
    Some "test/backend/t.g4" ∧
  TreeDataProvider.changeEvent
    (TreeDataProvider.refresh (Some grammarDocument)
       (TreeDataProvider.refresh None (TreeDataProvider.newAntlrTreeDataProvider backend))) =
    2%nat.
Proof. split; reflexivity. Qed.

(** ** C4 *)

(** With the parser grammar and its lexer grammar loaded, [generate] hands
    the context of the lexer grammar on and [getDiagnostics] hands on
    nothing; for the two grammars that import each other [generate] does not
    return. *)
Lemma queries_forwarding_witness :
  wf parserLoaded ∧
  getContext 5 "test/backend/TParser.g4" None parserLoaded = Some (0%nat, parserLoaded) ∧
  ¬ cyclicFrom parserLoaded 0 ∧
  (length (objects parserLoaded) < 5)%nat ∧
  getDiagnostics 5 "test/backend/TParser.g4" parserLoaded =
    Some ((0%nat, Call_getDiagnostics), parserLoaded) ∧
  ∃ deps, pushDependencyFiles 5 0%nat [] parserLoaded = Some (deps, parserLoaded) ∧
          generate 5 "test/backend/TParser.g4" tt parserLoaded =
            Some ((0%nat, Call_generate deps tt), parserLoaded).
Proof.
  split; [exact parserLoaded_wf|]. split; [exact parserLoaded_context|].
  split; [exact parserLoaded_acyclic|]. split; [exact parserLoaded_objects|].
  destruct (queries_forwarding 5 "test/backend/TParser.g4" parserLoaded parserLoaded 0%nat
              parserLoaded_wf parserLoaded_context) as ((Hdiag & _) & _ & Hforward).
  split; [exact Hdiag|].
  destruct (Hforward parserLoaded_acyclic parserLoaded_objects)
    as (deps & Hpush & _ & _ & _ & Hgen & _).
  exact (ex_intro _ deps (conj Hpush (Hgen tt))).
Defined.

Example generate_parser :
  generate 5 "test/backend/TParser.g4" tt parserLoaded =
    Some ((0%nat, Call_generate [1%nat] tt), parserLoaded).
Proof. vm_compute. reflexivity. Qed.

(** ** C10 *)

Lemma cyclicBroken_cycle : cyclicFrom cyclicBroken 0.
Proof.
  exists 0%nat. split; [by left|].
  eapply (reaches_step cyclicBroken 0 _ "cycle/Pong.g4" 1);
    [vm_compute; reflexivity|simpl; by left|vm_compute; reflexivity|].
  eapply (reaches_direct cyclicBroken 1 _ "cycle/Ping.g4" 0);
    [vm_compute; reflexivity|simpl; by left|vm_compute; reflexivity].
Qed.

(** One of two grammars that import each other is loaded and the text of
    the other is replaced by one with errors.  A context in the dependency
    closure of the first then has errors, yet [generateSentence] for the
    first does not return, whatever the bound on the depth of the recursion:
    the callback is never called. *)
Lemma generateSentence_errors_counterexample :
  loadGrammar 5 "cycle/Ping.g4" None backend = Some (0%nat, cyclic) ∧
  setText "cycle/Pong.g4" brokenText cyclic = Some (tt, cyclicBroken) ∧
  sourceContexts cyclicBroken !! "cycle/Ping.g4" = Some 0%nat ∧
  reaches cyclicBroken 0 1 ∧
  hasErrorsAt cyclicBroken 1 = true ∧
  ∀ fuel rule options,
    generateSentence fuel "cycle/Ping.g4" rule options cyclicBroken = None.
Proof.
  assert (Hname : sourceContexts cyclicBroken !! "cycle/Ping.g4" = Some 0%nat)
    by (vm_compute; reflexivity).
  split; [exact cyclic_run|]. split; [vm_compute; reflexivity|].
  split; [exact Hname|]. split.
  { eapply (reaches_direct cyclicBroken 0 _ "cycle/Pong.g4" 1);
      [vm_compute; reflexivity|simpl; by left|vm_compute; reflexivity]. }
  split; [vm_compute; reflexivity|].
  intros fuel rule options.
  by apply (gathering_diverges fuel "cycle/Ping.g4" cyclicBroken 0%nat cyclicBroken
              (getContext_loaded _ _ _ _ _ Hname) cyclicBroken_cycle).
Qed.

Lemma lexerBroken_context :
  getContext 5 "test/backend/TParser.g4" None lexerBroken = Some (0%nat, lexerBroken).
Proof. vm_compute. reflexivity. Qed.

Lemma lexerBroken_objects : (length (objects lexerBroken) < 5)%nat.
Proof. vm_compute. lia. Qed.

Lemma lexerBroken_reaches : reaches lexerBroken 0 1.
Proof.
  eapply (reaches_direct lexerBroken 0 _ "test/backend/TLexer.g4" 1);
    [vm_compute; reflexivity|simpl; by left|vm_compute; reflexivity].
Qed.

(** With errors in the dependency the callback is called once, with the
    message. *)
Lemma generateSentence_errors_witness :
  wf lexerBroken ∧
  getContext 5 "test/backend/TParser.g4" None lexerBroken = Some (0%nat, lexerBroken) ∧
  ¬ cyclicFrom lexerBroken 0 ∧
  (length (objects lexerBroken) < 5)%nat ∧
  reaches lexerBroken 0 1 ∧
  hasErrorsAt lexerBroken 1%nat = true ∧
  ∃ st2, generateSentence 5 "test/backend/TParser.g4" "r" tt lexerBroken =
           Some (Callback "[Fix grammar errors first]" 0, st2).
Proof.
  assert (Herr : hasErrorsAt lexerBroken 1%nat = true) by (vm_compute; reflexivity).
  split; [exact lexerBroken_wf|]. split; [exact lexerBroken_context|].
  split; [exact lexerBroken_acyclic|]. split; [exact lexerBroken_objects|].
  split; [exact lexerBroken_reaches|]. split; [exact Herr|].
  destruct (@generateSentence_errors node contexts 5 "test/backend/TParser.g4" "r" tt
              lexerBroken lexerBroken 0%nat lexerBroken_wf lexerBroken_context)
    as (_ & Hreturns).
  destruct (Hreturns lexerBroken_acyclic lexerBroken_objects)
    as (deps & st2 & _ & _ & _ & Hcb & _).
  exact (ex_intro _ st2 (Hcb (ex_intro _ 1%nat (conj lexerBroken_reaches Herr)))).
Defined.

End FurtherWitnesses.
